(** * Contact evolution: a shallow embedding of [contact_evolution.py]

    The program simulates point contacts under pairwise forces and renders the
    snapshots as PCM samples and pixel grids.  The embedding keeps the data of
    the program as Python has it:

    - a Python [float] is an IEEE 754 binary64 number, here a primitive
      [float] with the operations of [PrimFloat] (NaN and the infinities
      included);
    - a Python [int] is a [Z];
    - [Contact] objects are mutable and shared by reference, so they live in
      a heap and the lists of the program hold locations;
    - an exception is a [Raise] outcome; the heap reached when an exception
      escapes is kept.

    [math.hypot], [math.sin], the float summation of the builtin [sum] and
    the Mersenne Twister behind [random.Random] are library code outside the
    repository: they are the fields of the classes [Libm] and [Random], and
    every statement holds for all of them. *)

From Stdlib Require Import ZArith Floats Lia Bool.
From stdpp Require Import base option list.

Set Warnings "-inexact-float".

(** ** Python primitives *)

Inductive exn :=
  | ZeroDivisionError
  | ValueError
  | OverflowError
  | IndexError
  | StructError.

Inductive res (A : Type) :=
  | Ok (a : A)
  | Raise (e : exn).
Arguments Ok {A} a.
Arguments Raise {A} e.

#[global] Instance res_ret : MRet res := fun A a => Ok a.
#[global] Instance res_bind : MBind res := fun A B f m =>
  match m with
  | Ok a => f a
  | Raise e => Raise e
  end.

Definition is_ok {A} (r : res A) : bool :=
  match r with Ok _ => true | Raise _ => false end.

Module Py.

(** [a / b] on floats: Python raises where IEEE would give an infinity or
    a NaN for a zero divisor. *)
Definition truediv (a b : float) : res float :=
  if (b =? 0)%float then Raise ZeroDivisionError else Ok (a / b)%float.

(** [int(f)]: truncation toward zero. *)
Definition int_of_float (f : float) : res Z :=
  match Prim2SF f with
  | S754_nan => Raise ValueError
  | S754_infinity _ => Raise OverflowError
  | S754_zero _ => Ok 0%Z
  | S754_finite s m e => Ok (cond_Zopp s (Z.shiftl (Zpos m) e))
  end.

(** [float(n)], the conversion applied when an [int] meets a [float] in
    an arithmetic operation: rounded to nearest even. *)
Definition float_of_int (n : Z) : res float :=
  let f := SF2Prim (binary_normalize prec emax n 0 false) in
  if is_infinity f then Raise OverflowError else Ok f.

(** [min(a, b)] and [max(a, b)] keep the first argument unless the second
    compares strictly below (above) it. *)
Definition min (a b : float) : float := if (b <? a)%float then b else a.
Definition max (a b : float) : float := if (a <? b)%float then b else a.

(** [l[i]] and [l[i] = v] with a non-negative index. *)
Definition getitem {A} (l : list A) (i : nat) : res A :=
  match l !! i with
  | Some a => Ok a
  | None => Raise IndexError
  end.

Definition setitem {A} (l : list A) (i : nat) (v : A) : res (list A) :=
  if decide (i < length l) then Ok (<[i := v]> l) else Raise IndexError.

(** [l[i] = v] with an [int] index: a negative index counts from the end. *)
Definition setitem_int {A} (l : list A) (i : Z) (v : A) : res (list A) :=
  let n := Z.of_nat (length l) in
  if decide (0 <= i < n)%Z then Ok (<[Z.to_nat i := v]> l)
  else if decide (- n <= i < 0)%Z then Ok (<[Z.to_nat (n + i) := v]> l)
  else Raise IndexError.

(** [range(a, b)] and [range(n)]; [enumerate(l)]. *)
Definition range2 (a b : nat) : list nat := seq a (b - a).
Definition range (n : Z) : list Z := Z.of_nat <$> seq 0 (Z.to_nat n).
Definition enumerate {A} (l : list A) : list (nat * A) := zip (seq 0 (length l)) l.

(** [a / b] on two [int]s: the exact quotient rounded to nearest even. *)
Definition int_truediv (a b : Z) : res float :=
  if decide (b = 0)%Z then Raise ZeroDivisionError
  else
    let sa := (a <? 0)%Z in
    let sb := (b <? 0)%Z in
    let q :=
      match a with
      | Z0 => S754_zero sb
      | _ => SFdiv prec emax (S754_finite sa (Z.to_pos (Z.abs a)) 0)
                             (S754_finite sb (Z.to_pos (Z.abs b)) 0)
      end in
    let f := SF2Prim q in
    if is_infinity f then Raise OverflowError else Ok f.

(** A [for] loop whose body may raise, threading the loop state. *)
Fixpoint for_each {A S} (xs : list A) (body : A -> S -> res S) (s : S) : res S :=
  match xs with
  | [] => Ok s
  | x :: xs' =>
      match body x s with
      | Ok s' => for_each xs' body s'
      | Raise e => Raise e
      end
  end.

End Py.

(** ** Library code outside the repository *)

Class Libm := {
  hypot : float -> float -> float;
  sin : float -> float;
  (* the builtin [sum] on floats: a sum from the left before CPython 3.12,
     a compensated sum since *)
  float_sum : list float -> float;
}.

(** [math.sin] raises on an infinite argument. *)
Definition math_sin `{Libm} (a : float) : res float :=
  if is_infinity a then Raise ValueError else Ok (sin a).

(** [random.Random(seed)]: a generator state and [random()], which yields a
    float of [0, 1) and the next state. *)
Class Random := {
  rng_state : Type;
  rng_seed : Z -> rng_state;
  rng_random : rng_state -> float * rng_state;
}.

(** [Random.uniform(a, b)] is [a + (b - a) * self.random()]. *)
Definition rng_uniform `{Random} (a b : float) (g : rng_state) : float * rng_state :=
  let '(u, g') := rng_random g in ((a + (b - a) * u)%float, g').

(** ** Data model *)

Module Contact.
Record t := mk {
  identifier : Z;
  x : float;
  y : float;
  vx : float;
  vy : float;
  affinity : float;
}.

Definition set_x (v : float) (c : t) : t :=
  mk (identifier c) v (y c) (vx c) (vy c) (affinity c).
Definition set_y (v : float) (c : t) : t :=
  mk (identifier c) (x c) v (vx c) (vy c) (affinity c).
Definition set_vx (v : float) (c : t) : t :=
  mk (identifier c) (x c) (y c) v (vy c) (affinity c).
Definition set_vy (v : float) (c : t) : t :=
  mk (identifier c) (x c) (y c) (vx c) v (affinity c).
End Contact.

#[global] Instance contact_inhabited : Inhabited Contact.t :=
  populate (Contact.mk 0 0 0 0 0 0).

#[global] Instance float_inhabited : Inhabited float := populate 0%float.

(** Forces are pairs of floats, added and subtracted by component. *)
Definition vadd (a b : float * float) : float * float :=
  (fst a + fst b, snd a + snd b)%float.
Definition vsub (a b : float * float) : float * float :=
  (fst a - fst b, snd a - snd b)%float.
Definition vneg (a : float * float) : float * float :=
  (- fst a, - snd a)%float.

(** Objects are shared by reference: a location is an index in the heap. *)
Abbreviation loc := nat.
Abbreviation heap := (list Contact.t).

Definition deref (h : heap) (l : loc) : Contact.t := h !!! l.

(** [Contact(...)]: a new object, at the next free location. *)
Definition alloc (c : Contact.t) (h : heap) : loc * heap := (length h, h ++ [c]).

Module Snapshot.
Record t := mk {
  time : float;
  contacts : list loc;
  energy : float;
}.

(** What a reader of the snapshot sees in heap [h]. *)
Definition view (h : heap) (s : t) : float * list Contact.t * float :=
  (time s, deref h <$> contacts s, energy s).
End Snapshot.

(** ** Commands: a heap threaded through code that may raise *)

Definition M (A : Type) : Type := heap -> res A * heap.

#[global] Instance M_ret : MRet M := fun A a h => (Ok a, h).
#[global] Instance M_bind : MBind M := fun A B f m h =>
  match m h with
  | (Ok a, h') => f a h'
  | (Raise e, h') => (Raise e, h')
  end.

(** A pure computation that only reads the heap. *)
Definition reading {A} (f : heap -> res A) : M A := fun h => (f h, h).

(** Reading an object through a reference, replacing its fields, and
    creating a new object. *)
Definition get_obj (l : loc) : M Contact.t := fun h => (Ok (deref h l), h).
Definition set_obj (l : loc) (c : Contact.t) : M unit := fun h => (Ok tt, <[l := c]> h).
Definition new_obj (c : Contact.t) : M loc := fun h => let '(l, h') := alloc c h in (Ok l, h').

(** A [for] loop over commands. *)
Fixpoint for_each_m {A} (xs : list A) (body : A -> M unit) : M unit :=
  match xs with
  | [] => mret tt
  | x :: xs' => _ ← body x; for_each_m xs' body
  end.

(** ** The evolution engine *)

Module EvolutionSimulation.
Local Open Scope float_scope.

(** The engine object; [_rng] is created by the constructor and never read,
    so it has no field here. *)
Record t := mk {
  _contacts : list loc;
  _width : float;
  _height : float;
  _damping : float;
  _time : float;
}.

(** The list comprehension of the constructor: every input contact is read
    and a new [Contact] with the same six fields is created. *)
Fixpoint copy_contacts (contacts : list loc) : M (list loc) :=
  match contacts with
  | [] => mret []
  | contact :: rest =>
      c ← get_obj contact;
      l ← new_obj c;
      ls ← copy_contacts rest;
      mret (l :: ls)
  end.

Definition init (contacts : list loc) (bounds : float * float) (damping : float) : M t :=
  locs ← copy_contacts contacts;
  mret (mk locs (fst bounds) (snd bounds) damping 0).

Definition time (self : t) : float := _time self.

(** [tuple(self._contacts)]: a new tuple of the same references. *)
Definition contacts (self : t) : list loc := _contacts self.

Definition _apply_bounds (position velocity max_value : float) : float * float :=
  if position <? 0 then (0, abs velocity)
  else if max_value <? position then (max_value, - abs velocity)
  else (position, velocity).

(** The body of the inner loop of [step] up to the two assignments: the
    force that [other] exerts on [contact]. *)
Definition pair_force `{Libm} (contact other : Contact.t) : res (float * float) :=
  let dx := Contact.x other - Contact.x contact in
  let dy := Contact.y other - Contact.y contact in
  let distance := hypot dx dy + 1e-6 in
  direction_x ← Py.truediv dx distance;
  direction_y ← Py.truediv dy distance;
  let affinity := (Contact.affinity contact + Contact.affinity other) * 0.5 in
  influence ← Py.truediv affinity (distance * distance);
  let influence := if distance <? 0.2 then influence * -1.5 else influence in
  let fx := direction_x * influence in
  let fy := direction_y * influence in
  mret (fx, fy).

(** [forces[i] = (forces[i][0] + fx, forces[i][1] + fy)] and
    [forces[j] = (forces[j][0] - fx, forces[j][1] - fy)] *)
Definition accumulate (i j : nat) (f : float * float) (forces : list (float * float))
  : res (list (float * float)) :=
  Fi ← Py.getitem forces i;
  forces ← Py.setitem forces i (vadd Fi f);
  Fj ← Py.getitem forces j;
  Py.setitem forces j (vsub Fj f).

Definition force_body `{Libm} (h : heap) (locs : list loc) (i : nat) (contact : loc)
    (j : nat) (forces : list (float * float)) : res (list (float * float)) :=
  other ← Py.getitem locs j;
  f ← pair_force (deref h contact) (deref h other);
  accumulate i j f forces.

(** The first loop of [step]; the heap is only read. *)
Definition compute_forces `{Libm} (h : heap) (locs : list loc) : res (list (float * float)) :=
  let forces := replicate (length locs) (0, 0) in
  Py.for_each (Py.enumerate locs)
    (fun '(i, contact) forces =>
       Py.for_each (Py.range2 (i + 1) (length locs)) (force_body h locs i contact) forces)
    forces.

(** The body of the second loop of [step] on the fields of one contact. *)
Definition integrate (self : t) (dt : float) (f : float * float) (c : Contact.t) : Contact.t :=
  let '(fx, fy) := f in
  let c := Contact.set_vx ((Contact.vx c + fx * dt) * _damping self) c in
  let c := Contact.set_vy ((Contact.vy c + fy * dt) * _damping self) c in
  let c := Contact.set_x (Contact.x c + Contact.vx c * dt) c in
  let c := Contact.set_y (Contact.y c + Contact.vy c * dt) c in
  let '(p, v) := _apply_bounds (Contact.x c) (Contact.vx c) (_width self) in
  let c := Contact.set_vx v (Contact.set_x p c) in
  let '(p, v) := _apply_bounds (Contact.y c) (Contact.vy c) (_height self) in
  Contact.set_vy v (Contact.set_y p c).

Definition integrate_body (self : t) (dt : float) (forces : list (float * float))
    (ic : nat * loc) : M unit :=
  let '(idx, contact) := ic in
  f ← reading (fun _ => Py.getitem forces idx);
  c ← get_obj contact;
  set_obj contact (integrate self dt f c).

(** [sum(math.hypot(c.vx, c.vy) for c in self._contacts)] *)
Definition total_speed `{Libm} (h : heap) (locs : list loc) : float :=
  float_sum ((fun l => hypot (Contact.vx (deref h l)) (Contact.vy (deref h l))) <$> locs).

Definition step `{Libm} (self : t) (dt : float) : M (Snapshot.t * t) :=
  forces ← reading (fun h => compute_forces h (_contacts self));
  _ ← for_each_m (Py.enumerate (_contacts self)) (integrate_body self dt forces);
  let self := mk (_contacts self) (_width self) (_height self) (_damping self)
                 (_time self + dt) in
  energy ← reading (fun h => Ok (total_speed h (_contacts self)));
  mret (Snapshot.mk (_time self) (contacts self) energy, self).

End EvolutionSimulation.

(** ** Contact factory and simulation runner *)

Local Open Scope float_scope.

(** One iteration of the loop of [create_contacts]: the five draws in the
    order of the keyword arguments, then the new object is appended. *)
Definition create_body `{Random} (identifier : Z) (st : rng_state * list loc)
  : M (rng_state * list loc) :=
  let '(rng, contacts) := st in
  let '(x, rng) := rng_random rng in
  let '(y, rng) := rng_random rng in
  let '(vx, rng) := rng_uniform (-0.05) 0.05 rng in
  let '(vy, rng) := rng_uniform (-0.05) 0.05 rng in
  let '(affinity, rng) := rng_uniform 0.4 1.0 rng in
  l ← new_obj (Contact.mk identifier x y vx vy affinity);
  mret (rng, contacts ++ [l]).

Fixpoint create_loop `{Random} (ids : list Z) (st : rng_state * list loc)
  : M (rng_state * list loc) :=
  match ids with
  | [] => mret st
  | identifier :: ids' => st' ← create_body identifier st; create_loop ids' st'
  end.

Definition create_contacts `{Random} (count : Z) (seed : Z) : M (list loc) :=
  let rng := rng_seed seed in
  st ← create_loop (Py.range count) (rng, []);
  mret (snd st).

(** The loop of [run_simulation]: one [step] per element of [range(steps)],
    each snapshot appended. *)
Fixpoint run_loop `{Libm} (r : list Z) (dt : float) (simulation : EvolutionSimulation.t)
    (snapshots : list Snapshot.t) : M (list Snapshot.t) :=
  match r with
  | [] => mret snapshots
  | _ :: r' =>
      '(snapshot, simulation') ← EvolutionSimulation.step simulation dt;
      run_loop r' dt simulation' (snapshots ++ [snapshot])
  end.

Definition run_simulation `{Libm} (steps : Z) (dt : float) (contacts : list loc)
    (bounds : float * float) (damping : float) : M (list Snapshot.t) :=
  simulation ← EvolutionSimulation.init contacts bounds damping;
  run_loop (Py.range steps) dt simulation [].

(** ** Audio renderer *)

(** [math.pi] *)
Definition pi : float := 0x1.921fb54442d18p+1.

(** The value one contact adds to a sample. *)
Definition voice `{Libm} (time t : float) (contact : Contact.t) (value : float) : res float :=
  let frequency := 220 + 220 * (Contact.x contact + Contact.y contact) / 2 in
  let amplitude := Py.min 1.0 (Contact.affinity contact) in
  let phase := 2 * pi * frequency * (time + t) in
  s ← math_sin phase;
  mret (value + amplitude * s).

(** [int(max(-1.0, min(1.0, value)) * 32767)] *)
Definition quantize (value : float) : res Z :=
  Py.int_of_float (Py.max (-1.0) (Py.min 1.0 value) * 32767).

(** The body of the loop over [sample_index]: the sample appended. *)
Definition sample `{Libm} (h : heap) (snapshot : Snapshot.t) (sample_rate : Z)
    (sample_index : Z) : res Z :=
  t ← Py.int_truediv sample_index sample_rate;
  value ← Py.for_each (Snapshot.contacts snapshot)
             (fun l value => voice (Snapshot.time snapshot) t (deref h l) value) 0;
  n ← Py.float_of_int (Z.max 1 (Z.of_nat (length (Snapshot.contacts snapshot))));
  value ← Py.truediv value n;
  let value := value * Py.min 1.0 (0.4 + Snapshot.energy snapshot) in
  quantize value.

Definition step_samples (sample_rate : Z) (step_duration : float) : res Z :=
  r ← Py.float_of_int sample_rate;
  Py.int_of_float (r * step_duration).

(** The loop over the snapshots: the list [samples]. *)
Definition audio_samples `{Libm} (h : heap) (snapshots : list Snapshot.t)
    (sample_rate : Z) (step_duration : float) : res (list Z) :=
  Py.for_each snapshots
    (fun snapshot samples =>
       n ← step_samples sample_rate step_duration;
       Py.for_each (Py.range n)
         (fun sample_index samples =>
            s ← sample h snapshot sample_rate sample_index;
            mret (samples ++ [s]))
         samples)
    [].

(** [struct.pack("<h", n)]: two bytes, little endian, two's complement;
    [struct.error] outside the signed 16-bit range. *)
Definition pack_h (n : Z) : res (list Z) :=
  if decide (-32768 <= n <= 32767)%Z
  then Ok [(n mod 256)%Z; ((n / 256) mod 256)%Z]
  else Raise StructError.

Definition pack_samples (samples : list Z) : res (list Z) :=
  Py.for_each samples (fun s bytes => b ← pack_h s; mret (bytes ++ b)) [].

(** What is handed to the [wave] writer. *)
Record wav := mk_wav {
  nchannels : Z;
  sampwidth : Z;
  framerate : Z;
  frames : list Z;
}.

Definition generate_audio `{Libm} (h : heap) (snapshots : list Snapshot.t)
    (sample_rate : Z) (step_duration : float) : res wav :=
  samples ← audio_samples h snapshots sample_rate step_duration;
  bytes ← pack_samples samples;
  mret (mk_wav 1 2 sample_rate bytes).

(** ** Visual renderer *)

Abbreviation color := (Z * Z * Z)%type.
Abbreviation grid := (list (list color)).

Definition _color_for_contact (contact : Contact.t) : res color :=
  intensity ← Py.int_of_float (80 + 175 * Py.min 1.0 (Contact.affinity contact));
  g ← Py.int_of_float (60 + 195 * Contact.x contact);
  b ← Py.int_of_float (60 + 195 * Contact.y contact);
  mret (intensity, g, b).

(** [pixels[y][x] = color] *)
Definition set_pixel (pixels : grid) (y x : Z) (c : color) : res grid :=
  let n := Z.of_nat (length pixels) in
  let y' := if decide (y < 0)%Z then (n + y)%Z else y in
  if decide (0 <= y' < n)%Z then
    row ← Py.setitem_int (pixels !!! Z.to_nat y') x c;
    mret (<[Z.to_nat y' := row]> pixels)
  else Raise IndexError.

(** [min(width - 1, max(0, int(v * (width - 1))))] *)
Definition pixel_coord (v : float) (width : Z) : res Z :=
  w ← Py.float_of_int (width - 1);
  i ← Py.int_of_float (v * w);
  mret (Z.min (width - 1) (Z.max 0 i)).

(** [min(width - 1, max(0, x + offset))] *)
Definition neighbour (x offset width : Z) : Z :=
  Z.min (width - 1) (Z.max 0 (x + offset)).

(** The body of the loop over the contacts of a snapshot. *)
Definition draw_contact (width height : Z) (contact : Contact.t) (pixels : grid) : res grid :=
  x ← pixel_coord (Contact.x contact) width;
  y ← pixel_coord (Contact.y contact) height;
  c ← _color_for_contact contact;
  pixels ← set_pixel pixels y x c;
  Py.for_each [(-1)%Z; 1%Z]
    (fun offset pixels =>
       let nx := neighbour x offset width in
       let ny := neighbour y offset height in
       set_pixel pixels ny nx c)
    pixels.

Definition background : color := (12, 12, 24)%Z.

Definition blank (width height : Z) : grid :=
  (fun _ => (fun _ => background) <$> Py.range width) <$> Py.range height.

Definition render_frame (h : heap) (width height : Z) (snapshot : Snapshot.t) : res grid :=
  Py.for_each (Snapshot.contacts snapshot)
    (fun l pixels => draw_contact width height (deref h l) pixels)
    (blank width height).

(** The pixel grids written by [generate_visual_frames], in frame order. *)
Definition generate_visual_frames (h : heap) (snapshots : list Snapshot.t)
    (size : Z * Z) : res (list grid) :=
  let '(width, height) := size in
  Py.for_each snapshots
    (fun snapshot frames =>
       pixels ← render_frame h width height snapshot;
       mret (frames ++ [pixels]))
    [].


(** ** The net force on a contact, in closed form

    What the first loop of [step] leaves in [forces[k]], written as a sum
    over the contact values [cs] in the order in which the loop adds: the
    reactions to the pairs (0, k), ..., (k - 1, k) are subtracted first, then
    the forces of the pairs (k, k + 1), ..., (k, n - 1) are added. *)

Definition force_between `{Libm} (cs : list Contact.t) (i j : nat) : float * float :=
  match EvolutionSimulation.pair_force (cs !!! i) (cs !!! j) with
  | Ok f => f
  | Raise _ => (0, 0)
  end.

Definition net_force `{Libm} (cs : list Contact.t) (k : nat) : float * float :=
  foldl (fun acc j => vadd acc (force_between cs k j))
        (foldl (fun acc i => vsub acc (force_between cs i k)) (0, 0) (seq 0 k))
        (seq (S k) (length cs - S k)).

(** No pair of contacts makes a division of [pair_force] raise. *)
Definition row_ok `{Libm} (cs : list Contact.t) (i : nat) (js : list nat) : bool :=
  forallb (fun j => is_ok (EvolutionSimulation.pair_force (cs !!! i) (cs !!! j))) js.

Definition pairs_ok `{Libm} (cs : list Contact.t) : bool :=
  forallb (fun i => row_ok cs i (seq (S i) (length cs - S i))) (seq 0 (length cs)).

(** The two assignments of the inner loop, the inner loop and the whole
    first loop on lists whose indices are known to be in range. *)
Definition accumulated (i j : nat) (f : float * float) (forces : list (float * float))
  : list (float * float) :=
  let forces' := <[i := vadd (forces !!! i) f]> forces in
  <[j := vsub (forces' !!! j) f]> forces'.

Definition row_forces `{Libm} (cs : list Contact.t) (i : nat) (js : list nat)
    (forces : list (float * float)) : list (float * float) :=
  foldl (fun F j => accumulated i j (force_between cs i j) F) forces js.

Definition rows_forces `{Libm} (cs : list Contact.t) (rows : list nat)
    (forces : list (float * float)) : list (float * float) :=
  foldl (fun F i => row_forces cs i (seq (S i) (length cs - S i)) F) forces rows.

(** ** The second loop of [step] on a heap, and [step] on contact values *)

(** The heap left by the second loop when every index of [forces] read is
    in range. *)
Definition integrate_heap (self : EvolutionSimulation.t) (dt : float)
    (forces : list (float * float)) (ics : list (nat * loc)) (h : heap) : heap :=
  foldl (fun h ic => <[ic.2 := EvolutionSimulation.integrate self dt (forces !!! ic.1)
                                 (deref h ic.2)]> h) h ics.

(** The forces of [step] from the values of the contacts alone. *)
Definition forces_of `{Libm} (cs : list Contact.t) : res (list (float * float)) :=
  if pairs_ok cs then Ok (net_force cs <$> seq 0 (length cs))
  else Raise ZeroDivisionError.

(** The engine after a step that did not raise. *)
Definition advance (self : EvolutionSimulation.t) (dt : float) : EvolutionSimulation.t :=
  EvolutionSimulation.mk (EvolutionSimulation._contacts self)
    (EvolutionSimulation._width self) (EvolutionSimulation._height self)
    (EvolutionSimulation._damping self) (EvolutionSimulation._time self + dt).

(** The sum of the speeds of a list of contact values. *)
Definition speeds `{Libm} (cs : list Contact.t) : float :=
  float_sum ((fun c => hypot (Contact.vx c) (Contact.vy c)) <$> cs).

(** ** Positions and bounds *)

(** [0 <= v <= max_value] *)
Definition within (v max_value : float) : Prop :=
  (0 <=? v) = true /\ (v <=? max_value) = true.

(** [v] is neither below 0 nor above [max_value]: the two comparisons of
    [_apply_bounds] both fail. *)
Definition not_outside (v max_value : float) : Prop :=
  (v <? 0) = false /\ (max_value <? v) = false.

(** All contacts of an engine are objects of the heap. *)
Definition live (h : heap) (locs : list loc) : Prop :=
  Forall (fun l => l < length h) locs.

(** ** Stand-ins for the library code, to run the definitions

    [hypot] by the textbook formula, [sin] by a Taylor polynomial and the
    sum from the left; a linear congruential generator for
    [random.Random]. *)

Definition textbook_libm : Libm := {|
  hypot a b := sqrt (a * a + b * b);
  sin a := a - a * a * a / 6 + a * a * a * a * a / 120;
  float_sum l := foldl PrimFloat.add 0 l;
|}.

Definition lcg_random : Random := {|
  rng_state := Z;
  rng_seed s := s;
  rng_random g :=
    let g' := ((g * 1103515245 + 12345) mod 2147483648)%Z in
    (of_uint63 (Uint63.of_Z g') / 2147483648, g');
|}.

(** Any number of [step] calls on the same engine, with the time steps
    [dts]; the snapshots are collected until a call raises. *)
Fixpoint step_calls `{Libm} (dts : list float) (simulation : EvolutionSimulation.t)
  : M (list Snapshot.t * EvolutionSimulation.t) :=
  match dts with
  | [] => mret ([], simulation)
  | dt :: dts' =>
      '(snapshot, simulation') ← EvolutionSimulation.step simulation dt;
      '(snapshots, simulation'') ← step_calls dts' simulation';
      mret (snapshot :: snapshots, simulation'')
  end.

(** A sample that fits the signed 16-bit frames of the audio file. *)
Definition int16_sample (s : Z) : Prop := (-32767 <= s <= 32767)%Z.

(** ** Frames: what a rendered frame shows *)

(** A [width] x [height] grid: [height] rows of [width] pixels. *)
Definition grid_of_size (width height : Z) (pixels : grid) : Prop :=
  Z.of_nat (length pixels) = height /\
  Forall (fun row => Z.of_nat (length row) = width) pixels.

(** The pixel in column [px] of row [py]. *)
Definition get_pixel (pixels : grid) (px py : Z) : color :=
  (pixels !!! Z.to_nat py) !!! Z.to_nat px.

(** The three pixels of the mark of a contact whose target pixel is
    [(x, y)]: the target and its neighbours at offsets -1 and +1 on both
    axes, each clamped to the frame. *)
Definition marks (width height x y : Z) : list (Z * Z) :=
  [(x, y);
   (neighbour x (-1) width, neighbour y (-1) height);
   (neighbour x 1 width, neighbour y 1 height)].

(** The colour of pixel [(px, py)] after the marks [items], each a target
    pixel and a colour, were drawn in order on a pixel of colour [c0]: the
    colour of the last mark that covers the pixel. *)
Definition painted (width height : Z) (items : list (Z * Z * color)) (c0 : color)
    (px py : Z) : color :=
  foldl (fun acc item =>
           if decide ((px, py) ∈ marks width height item.1.1 item.1.2)
           then item.2 else acc)
        c0 items.

(** The target pixel and the colour of a contact, as [draw_contact]
    computes them. *)
Definition mark_of (width height : Z) (contact : Contact.t) : res (Z * Z * color) :=
  x ← pixel_coord (Contact.x contact) width;
  y ← pixel_coord (Contact.y contact) height;
  c ← _color_for_contact contact;
  mret (x, y, c).

(** Spec's words: [round(v)], the nearest integer, ties to the even one. *)
Definition round_nearest (f : float) : res Z :=
  match Prim2SF f with
  | S754_nan => Raise ValueError
  | S754_infinity _ => Raise OverflowError
  | S754_zero _ => Ok 0%Z
  | S754_finite s m e =>
      let q := Z.shiftl (Zpos m) e in
      let r := (Zpos m - Z.shiftl q (- e))%Z in
      let half := Z.shiftl 1 (- e - 1) in
      let up :=
        if (e >=? 0)%Z then false
        else if (r <? half)%Z then false
        else if (half <? r)%Z then true
        else Z.odd q in
      Ok (cond_Zopp s (if up then q + 1 else q)%Z)
  end.

(** Spec's words: [clamp(round(v * (width - 1)), 0, width - 1)]. *)
Definition rounded_pixel_coord (v : float) (width : Z) : res Z :=
  w ← Py.float_of_int (width - 1);
  i ← round_nearest (v * w);
  mret (Z.min (width - 1) (Z.max 0 i)).

(** ** A run on contact values

    The factory, [step] and the loop of [run_simulation] as functions of the
    values of the contacts, without the heap; [simulate] is the pipeline of
    [main] and [observe] what can be read from the snapshots it returns. *)

Definition draw_values `{Random} (identifier : Z) (rng : rng_state) : Contact.t * rng_state :=
  let '(x, rng) := rng_random rng in
  let '(y, rng) := rng_random rng in
  let '(vx, rng) := rng_uniform (-0.05) 0.05 rng in
  let '(vy, rng) := rng_uniform (-0.05) 0.05 rng in
  let '(affinity, rng) := rng_uniform 0.4 1.0 rng in
  (Contact.mk identifier x y vx vy affinity, rng).

Fixpoint create_values_loop `{Random} (ids : list Z) (rng : rng_state) : list Contact.t :=
  match ids with
  | [] => []
  | identifier :: ids' =>
      let '(c, rng') := draw_values identifier rng in
      c :: create_values_loop ids' rng'
  end.

Definition create_values `{Random} (count seed : Z) : list Contact.t :=
  create_values_loop (Py.range count) (rng_seed seed).

Definition step_values `{Libm} (self : EvolutionSimulation.t) (dt : float)
    (cs : list Contact.t) : res (list Contact.t * float) :=
  forces ← forces_of cs;
  let cs' := zip_with (EvolutionSimulation.integrate self dt) forces cs in
  mret (cs', speeds cs').

(** The times and energies of the snapshots, and the final contacts. *)
Fixpoint run_values `{Libm} (r : list Z) (dt : float) (self : EvolutionSimulation.t)
    (cs : list Contact.t) (acc : list (float * float))
  : res (list (float * float) * list Contact.t) :=
  match r with
  | [] => mret (acc, cs)
  | _ :: r' =>
      '(cs', energy) ← step_values self dt cs;
      run_values r' dt (advance self dt) cs'
        (acc ++ [(EvolutionSimulation._time self + dt, energy)])
  end.

(** [run_simulation] on the values of its input contacts: what the
    snapshots show once the run is over. *)
Definition run_simulation_values `{Libm} (steps : Z) (dt : float) (cs : list Contact.t)
    (bounds : float * float) (damping : float)
  : res (list (float * list Contact.t * float)) :=
  match run_values (Py.range steps) dt
          (EvolutionSimulation.mk [] bounds.1 bounds.2 damping 0) cs [] with
  | Ok (acc, cs') => Ok ((fun te : float * float => (te.1, cs', te.2)) <$> acc)
  | Raise e => Raise e
  end.

Definition simulate_values `{Libm} `{Random} (count seed steps : Z) (dt : float)
  : res (list (float * list Contact.t * float)) :=
  run_simulation_values steps dt (create_values count seed) (1, 1) 0.98.

(** [create_contacts(count, seed)] followed by [run_simulation] with the
    default bounds and damping, as [main] calls them. *)
Definition simulate `{Libm} `{Random} (count seed steps : Z) (dt : float)
  : M (list Snapshot.t) :=
  contacts ← create_contacts count seed;
  run_simulation steps dt contacts (1, 1) 0.98.

(** The snapshot sequence as a reader sees it once the run is over: the
    time, the contact fields and the energy of each snapshot. *)
Definition observe (r : res (list Snapshot.t) * heap)
  : res (list (float * list Contact.t * float)) :=
  match r.1 with
  | Ok snapshots => Ok (Snapshot.view r.2 <$> snapshots)
  | Raise e => Raise e
  end.

(** ** Further specification-side definitions *)

(** The time of an engine after [k] steps of [dt] from time [t0]: [dt] is
    added [k] times, each sum rounded. *)
Definition time_after (dt t0 : float) (k : nat) : float :=
  Nat.iter k (fun t => t + dt) t0.

(** ** The command line program *)

(** The arguments that [main] reads; the two output paths of [parse_args]
    name files and have no part in what is computed. *)
Module Args.
Record t := mk {
  steps : Z;
  dt : float;
  contacts : Z;
  seed : Z;
}.

(** The defaults of [parse_args]. *)
Definition default : t := mk 60 0.05 8 42.
End Args.

(** [main] without the printing: the number of snapshots, what is written
    to the audio file and the frames. *)
Definition main `{Libm} `{Random} (args : Args.t) : M (nat * wav * list grid) :=
  contacts ← create_contacts (Args.contacts args) (Args.seed args);
  snapshots ← run_simulation (Args.steps args) (Args.dt args) contacts (1, 1) 0.98;
  audio ← reading (fun h => generate_audio h snapshots 44100 0.1);
  frames ← reading (fun h => generate_visual_frames h snapshots (512, 512)%Z);
  mret (length snapshots, audio, frames).

(** Spec-side decoding of the frames of the audio file: a signed 16-bit
    integer from its two bytes, low byte first. *)
Definition unpack_h (lo hi : Z) : Z :=
  let u := (lo + 256 * hi)%Z in
  if (u <? 32768)%Z then u else (u - 65536)%Z.

Fixpoint unpack_samples (bytes : list Z) : list Z :=
  match bytes with
  | lo :: hi :: rest => unpack_h lo hi :: unpack_samples rest
  | _ => []
  end.

(** Two contacts that differ at most in identifier and velocity. *)
Definition same_place (c c' : Contact.t) : Prop :=
  Contact.x c = Contact.x c' /\ Contact.y c = Contact.y c' /\
  Contact.affinity c = Contact.affinity c'.

(** [m * 2 ^ e >= 2 ^ (- c)] for a mantissa [m], without fractions. *)
Definition at_least_pow2 (c m e : Z) : Prop :=
  (1 <= m)%Z /\ (e < - c -> 2 ^ (- c - e) <= m)%Z.

(** A float that is NaN, plus infinity or a finite number not below
    [2 ^ (- c)]. *)
Definition at_least (c : Z) (d : float) : Prop :=
  match Prim2SF d with
  | S754_nan => True
  | S754_infinity false => True
  | S754_finite false m e => at_least_pow2 c (Z.pos m) e
  | _ => False
  end.

(** What the force loop needs of [math.hypot]: no result compares below
    zero (a NaN does not). *)
Definition hypot_not_negative (L : Libm) : Prop :=
  forall a b : float, (@hypot L a b <? 0) = false.

(** A colour whose three channels are in 0..255, the maximum that the
    header of a frame file announces. *)
Definition eight_bit (c : color) : Prop :=
  (0 <= c.1.1 <= 255 /\ 0 <= c.1.2 <= 255 /\ 0 <= c.2 <= 255)%Z.

(** A contact inside the unit square whose affinity is not negative. *)
Definition in_unit_square (c : Contact.t) : Prop :=
  within (Contact.x c) 1 /\ within (Contact.y c) 1 /\ (Contact.affinity c <? 0) = false.
(** * Properties *)

(** ** Comparisons of binary64 numbers

    The comparisons of [PrimFloat] are specified on [spec_float]; a NaN
    compares false with everything. *)

Ltac float_cmp :=
  rewrite ?FloatAxioms.ltb_spec, ?FloatAxioms.leb_spec, ?FloatAxioms.eqb_spec in *;
  unfold SFltb, SFleb, SFeqb, SFcompare in *.

(** Nothing above a non-negative number is negative. *)
Lemma above_nonneg_not_neg (m p : float) :
  (0 <=? m) = true -> (m <? p) = true -> (p <? 0) = false.
Proof.
  float_cmp.
  change (Prim2SF 0) with (S754_zero false).
  destruct (Prim2SF m) as [sm|sm| |sm mm em], (Prim2SF p) as [sp|sp| |sp mp ep];
    try destruct sm; try destruct sp; simpl; congruence.
Qed.

Lemma ltb_irrefl (a : float) : (a <? a) = false.
Proof.
  float_cmp.
  destruct (Prim2SF a) as [s|s| |s m e]; try destruct s; simpl; try reflexivity.
  - rewrite Z.compare_refl, Pos.compare_cont_refl. reflexivity.
  - rewrite Z.compare_refl, Pos.compare_cont_refl. reflexivity.
Qed.

Lemma pos_not_neg (a : float) : (0 <? a) = true -> (a <? 0) = false.
Proof.
  float_cmp.
  change (Prim2SF 0) with (S754_zero false).
  destruct (Prim2SF a) as [s|s| |s m e]; try destruct s; simpl; congruence.
Qed.

(** ** Boundary reflection *)

Section apply_bounds.
Import EvolutionSimulation.

Lemma apply_bounds_below (position velocity max_value : float) :
  (position <? 0) = true ->
  _apply_bounds position velocity max_value = (0, abs velocity).
Proof. unfold _apply_bounds. intros ->. reflexivity. Qed.

Lemma apply_bounds_above (position velocity max_value : float) :
  (position <? 0) = false -> (max_value <? position) = true ->
  _apply_bounds position velocity max_value = (max_value, - abs velocity).
Proof. unfold _apply_bounds. intros -> ->. reflexivity. Qed.

Lemma apply_bounds_inside (position velocity max_value : float) :
  (position <? 0) = false -> (max_value <? position) = false ->
  _apply_bounds position velocity max_value = (position, velocity).
Proof. unfold _apply_bounds. intros -> ->. reflexivity. Qed.

(** The fields of a contact after the second loop of [step]: each axis is
    integrated and reflected on its own. *)
Lemma integrate_axes (self : t) (dt : float) (f : float * float) (c : Contact.t) :
  let vx1 := (Contact.vx c + fst f * dt) * _damping self in
  let vy1 := (Contact.vy c + snd f * dt) * _damping self in
  let c' := integrate self dt f c in
  (Contact.x c', Contact.vx c') = _apply_bounds (Contact.x c + vx1 * dt) vx1 (_width self) /\
  (Contact.y c', Contact.vy c') = _apply_bounds (Contact.y c + vy1 * dt) vy1 (_height self) /\
  Contact.identifier c' = Contact.identifier c /\
  Contact.affinity c' = Contact.affinity c.
Proof.
  destruct f as [fx fy], c as [i cx cy cvx cvy a]. unfold integrate. simpl.
  destruct (_apply_bounds (cx + _) _ _) as [px pvx].
  destruct (_apply_bounds (cy + _) _ _) as [py pvy].
  simpl. auto.
Qed.

End apply_bounds.

(** C5: boundary reflection acts on each axis on its own.  A position below
    0 becomes 0 with the absolute velocity; otherwise a position above the
    maximum becomes the maximum with the negated absolute velocity (with a
    maximum that is not negative, "otherwise" adds nothing: a position above
    it is never below 0); in the remaining case position and velocity are
    returned as they are.  [step] applies this to (x, vx) with the width and
    to (y, vy) with the height, and x = -0.01, vx = -0.3 ends as x = 0,
    vx = 0.3. *)
Theorem apply_bounds_reflection (position velocity max_value : float) :
  ((position <? 0) = true ->
     EvolutionSimulation._apply_bounds position velocity max_value = (0, abs velocity)) /\
  ((position <? 0) = false -> (max_value <? position) = true ->
     EvolutionSimulation._apply_bounds position velocity max_value
       = (max_value, - abs velocity)) /\
  ((0 <=? max_value) = true -> (max_value <? position) = true ->
     EvolutionSimulation._apply_bounds position velocity max_value
       = (max_value, - abs velocity)) /\
  ((position <? 0) = false -> (max_value <? position) = false ->
     EvolutionSimulation._apply_bounds position velocity max_value = (position, velocity)) /\
  (forall self dt f c,
     let vx1 := (Contact.vx c + fst f * dt) * EvolutionSimulation._damping self in
     let vy1 := (Contact.vy c + snd f * dt) * EvolutionSimulation._damping self in
     let c' := EvolutionSimulation.integrate self dt f c in
     (Contact.x c', Contact.vx c')
       = EvolutionSimulation._apply_bounds (Contact.x c + vx1 * dt) vx1
           (EvolutionSimulation._width self) /\
     (Contact.y c', Contact.vy c')
       = EvolutionSimulation._apply_bounds (Contact.y c + vy1 * dt) vy1
           (EvolutionSimulation._height self)) /\
  EvolutionSimulation._apply_bounds (-0.01) (-0.3) max_value = (0, 0.3).
Proof.
  repeat split.
  - apply apply_bounds_below.
  - apply apply_bounds_above.
  - intros Hm Hp. apply apply_bounds_above; [|exact Hp].
    exact (above_nonneg_not_neg _ _ Hm Hp).
  - apply apply_bounds_inside.
  - apply integrate_axes.
  - apply integrate_axes.
Qed.

Lemma apply_bounds_reflection_witness :
  EvolutionSimulation._apply_bounds (-0.5) 2 1 = (0, 2) /\
  EvolutionSimulation._apply_bounds 1.5 2 1 = (1, -2) /\
  EvolutionSimulation._apply_bounds 0.25 (-2) 1 = (0.25, -2).
Proof.
  split; [|split].
  - apply (proj1 (apply_bounds_reflection (-0.5) 2 1)). reflexivity.
  - apply (proj1 (proj2 (proj2 (apply_bounds_reflection 1.5 2 1)))); reflexivity.
  - apply (proj1 (proj2 (proj2 (proj2 (apply_bounds_reflection 0.25 (-2) 1)))));
      reflexivity.
Defined.

(** ** Loops *)

Lemma M_bind_eq {A B} (m : M A) (f : A -> M B) (h : heap) :
  (m ≫= f) h =
  match m h with
  | (Ok a, h') => f a h'
  | (Raise e, h') => (Raise e, h')
  end.
Proof. reflexivity. Qed.

Lemma res_bind_eq {A B} (m : res A) (f : A -> res B) :
  (m ≫= f) = match m with Ok a => f a | Raise e => Raise e end.
Proof. reflexivity. Qed.

(** An invariant of the loop state holds when the loop ends normally. *)
Lemma for_each_inv {A S} (P : S -> Prop) (body : A -> S -> res S) (xs : list A) :
  (forall x s s', x ∈ xs -> P s -> body x s = Ok s' -> P s') ->
  forall s s', P s -> Py.for_each xs body s = Ok s' -> P s'.
Proof.
  induction xs as [|x xs IH]; intros Hbody s s' Hs; simpl.
  - intros [= <-]. exact Hs.
  - destruct (body x s) as [s1|e] eqn:E; [|discriminate].
    apply IH.
    + intros y t t' Hy. apply Hbody. by right.
    + eapply Hbody; [by left|exact Hs|exact E].
Qed.

(** A loop whose body never raises under the invariant ends normally. *)
Lemma for_each_ok {A S} (P : S -> Prop) (body : A -> S -> res S) (xs : list A) :
  (forall x s, x ∈ xs -> P s -> exists s', body x s = Ok s' /\ P s') ->
  forall s, P s -> exists s', Py.for_each xs body s = Ok s' /\ P s'.
Proof.
  induction xs as [|x xs IH]; intros Hbody s Hs; simpl.
  - eauto.
  - destruct (Hbody x s) as (s1 & -> & Hs1); [by left|exact Hs|].
    apply IH; [|exact Hs1]. intros y t Hy. apply Hbody. by right.
Qed.

Lemma for_each_app {A S} (body : A -> S -> res S) (xs ys : list A) (s : S) :
  Py.for_each (xs ++ ys) body s =
  match Py.for_each xs body s with
  | Ok s' => Py.for_each ys body s'
  | Raise e => Raise e
  end.
Proof.
  revert s. induction xs as [|x xs IH]; intros s; simpl; [reflexivity|].
  destruct (body x s); [apply IH|reflexivity].
Qed.

(** ** [enumerate] *)

Lemma enumerate_lookup {A} (l : list A) (i : nat) (p : nat * A) :
  Py.enumerate l !! i = Some p <-> p.1 = i /\ l !! i = Some p.2.
Proof.
  unfold Py.enumerate. destruct p as [j a]. simpl.
  rewrite lookup_zip_with_Some. split.
  - intros (x & y & [= <- <-] & Hx & Hy).
    apply lookup_seq in Hx as [-> _]. auto.
  - intros [-> Ha]. exists i, a. repeat split; [|exact Ha].
    apply lookup_seq. split; [reflexivity|]. by apply lookup_lt_Some in Ha.
Qed.

Lemma enumerate_elem {A} (l : list A) (i : nat) (a : A) :
  (i, a) ∈ Py.enumerate l <-> l !! i = Some a.
Proof.
  rewrite list_elem_of_lookup. split.
  - intros [k Hk]. apply enumerate_lookup in Hk as [<- Hk]. exact Hk.
  - intros Ha. exists i. by apply enumerate_lookup.
Qed.

Lemma enumerate_snd {A} (l : list A) : (Py.enumerate l).*2 = l.
Proof. unfold Py.enumerate. apply snd_zip. by rewrite length_seq. Qed.

Lemma enumerate_length {A} (l : list A) : length (Py.enumerate l) = length l.
Proof. by rewrite <- (enumerate_snd l) at 2; rewrite length_fmap. Qed.

(** ** The force loop *)

Lemma getitem_lt {A} `{Inhabited A} (l : list A) (i : nat) :
  i < length l -> Py.getitem l i = Ok (l !!! i).
Proof.
  intros Hi. unfold Py.getitem.
  by rewrite (list_lookup_lookup_total_lt l i Hi).
Qed.

Lemma setitem_lt {A} (l : list A) (i : nat) (v : A) :
  i < length l -> Py.setitem l i v = Ok (<[i := v]> l).
Proof. intros Hi. unfold Py.setitem. by rewrite decide_True. Qed.

Lemma accumulated_length i j f forces :
  length (accumulated i j f forces) = length forces.
Proof. unfold accumulated. by rewrite !length_insert. Qed.

Lemma accumulate_spec i j f forces :
  i < length forces -> j < length forces ->
  EvolutionSimulation.accumulate i j f forces = Ok (accumulated i j f forces).
Proof.
  intros Hi Hj. unfold EvolutionSimulation.accumulate, accumulated.
  rewrite (getitem_lt _ _ Hi). rewrite res_bind_eq.
  rewrite (setitem_lt _ _ _ Hi). rewrite res_bind_eq.
  rewrite getitem_lt by (by rewrite length_insert). rewrite res_bind_eq.
  rewrite setitem_lt by (by rewrite length_insert). reflexivity.
Qed.

Section forces.
Context `{Libm}.

(** [pair_force] raises nothing but [ZeroDivisionError]. *)
Lemma pair_force_raise c o e :
  EvolutionSimulation.pair_force c o = Raise e -> e = ZeroDivisionError.
Proof.
  unfold EvolutionSimulation.pair_force, Py.truediv.
  unfold mbind, res_bind, mret, res_ret.
  set (d := (hypot _ _ + _)%float).
  destruct (d =? 0)%float; [congruence|].
  destruct (d * d =? 0)%float; congruence.
Qed.

Lemma row_forces_length cs i js forces :
  length (row_forces cs i js forces) = length forces.
Proof.
  revert forces. induction js as [|j js IH]; intros forces; simpl; [done|].
  unfold row_forces in *. simpl. rewrite IH. apply accumulated_length.
Qed.

Lemma rows_forces_length cs rows forces :
  length (rows_forces cs rows forces) = length forces.
Proof.
  revert forces. induction rows as [|i rows IH]; intros forces; simpl; [done|].
  unfold rows_forces in *. simpl. rewrite IH. apply row_forces_length.
Qed.

(** The inner loop of [step] for the contact at index [i]. *)
Lemma inner_loop_spec h locs i contact js forces :
  let cs := deref h <$> locs in
  locs !! i = Some contact ->
  length forces = length locs ->
  Forall (fun j => j < length locs) js ->
  Py.for_each js (EvolutionSimulation.force_body h locs i contact) forces =
  if row_ok cs i js then Ok (row_forces cs i js forces) else Raise ZeroDivisionError.
Proof.
  intros cs Hi. revert forces.
  induction js as [|j js IH]; intros forces Hlen Hjs; simpl; [reflexivity|].
  apply Forall_cons in Hjs as [Hj Hjs].
  pose proof (lookup_lt_Some _ _ _ Hi) as Hi'.
  assert (Hci : cs !!! i = deref h contact).
  { unfold cs. apply list_lookup_total_correct.
    by rewrite list_lookup_fmap, Hi. }
  assert (Hcj : cs !!! j = deref h (locs !!! j)).
  { unfold cs. apply list_lookup_total_correct.
    by rewrite list_lookup_fmap, (list_lookup_lookup_total_lt locs j Hj). }
  change (row_ok cs i (j :: js))
    with (is_ok (EvolutionSimulation.pair_force (cs !!! i) (cs !!! j)) && row_ok cs i js).
  change (row_forces cs i (j :: js) forces)
    with (row_forces cs i js (accumulated i j (force_between cs i j) forces)).
  unfold EvolutionSimulation.force_body at 1.
  rewrite (getitem_lt _ _ Hj), res_bind_eq.
  unfold force_between. rewrite <- Hci, <- Hcj.
  destruct (EvolutionSimulation.pair_force _ _) as [f|e] eqn:Ef; rewrite res_bind_eq; simpl.
  - rewrite accumulate_spec by lia.
    apply IH; [by rewrite accumulated_length|exact Hjs].
  - by rewrite (pair_force_raise _ _ _ Ef).
Qed.

(** The first loop of [step], as a loop over the rows that remain. *)
Lemma outer_loop_spec h locs rows forces :
  let cs := deref h <$> locs in
  length forces = length locs ->
  Forall (fun i => i < length locs) rows ->
  Py.for_each ((fun i => (i, locs !!! i)) <$> rows)
    (fun '(i, contact) forces =>
       Py.for_each (Py.range2 (i + 1) (length locs))
         (EvolutionSimulation.force_body h locs i contact) forces)
    forces =
  if forallb (fun i => row_ok cs i (seq (S i) (length cs - S i))) rows
  then Ok (rows_forces cs rows forces) else Raise ZeroDivisionError.
Proof.
  intros cs. revert forces.
  assert (Hn : length cs = length locs) by (unfold cs; by rewrite length_fmap).
  induction rows as [|i rows IH]; intros forces Hlen His; simpl; [reflexivity|].
  apply Forall_cons in His as [Hi His].
  rewrite inner_loop_spec; [|by apply list_lookup_lookup_total_lt|exact Hlen|].
  - unfold Py.range2. rewrite Hn. replace (i + 1)%nat with (S i) by lia.
    fold cs. destruct (row_ok cs i _); simpl; [|reflexivity].
    rewrite IH; [|by rewrite row_forces_length|exact His].
    unfold rows_forces. simpl. rewrite Hn. reflexivity.
  - unfold Py.range2. apply Forall_forall. intros j Hj.
    apply elem_of_seq in Hj. lia.
Qed.

Lemma enumerate_as_fmap {A} `{Inhabited A} (l : list A) :
  Py.enumerate l = (fun i => (i, l !!! i)) <$> seq 0 (length l).
Proof.
  apply list_eq. intros i.
  destruct (decide (i < length l)) as [Hi|Hi].
  - rewrite list_lookup_fmap, lookup_seq_lt by done. simpl.
    apply enumerate_lookup. simpl. split; [done|].
    by apply list_lookup_lookup_total_lt.
  - rewrite !lookup_ge_None_2; [done| |].
    + rewrite length_fmap, length_seq. lia.
    + rewrite enumerate_length. lia.
Qed.

Lemma compute_forces_rows h locs :
  let cs := deref h <$> locs in
  EvolutionSimulation.compute_forces h locs =
  if pairs_ok cs
  then Ok (rows_forces cs (seq 0 (length cs)) (replicate (length cs) (0, 0)%float))
  else Raise ZeroDivisionError.
Proof.
  intros cs. unfold EvolutionSimulation.compute_forces.
  assert (Hn : length cs = length locs) by (unfold cs; by rewrite length_fmap).
  rewrite enumerate_as_fmap, outer_loop_spec.
  - fold cs. unfold pairs_ok. by rewrite Hn.
  - by rewrite length_replicate.
  - apply Forall_forall. intros i Hi. apply elem_of_seq in Hi. lia.
Qed.

End forces.

(** ** The net force in closed form *)

Lemma accumulated_lookup i j f forces k :
  i <> j -> i < length forces -> j < length forces ->
  accumulated i j f forces !!! k =
  if decide (k = i) then vadd (forces !!! i) f
  else if decide (k = j) then vsub (forces !!! j) f
  else forces !!! k.
Proof.
  intros Hij Hi Hj. unfold accumulated.
  rewrite (list_lookup_total_insert_ne forces i j) by done.
  destruct (decide (k = i)) as [->|Hki].
  - rewrite list_lookup_total_insert_ne by done.
    by rewrite list_lookup_total_insert_eq.
  - destruct (decide (k = j)) as [->|Hkj].
    + rewrite list_lookup_total_insert_eq by (by rewrite length_insert). done.
    + by rewrite !list_lookup_total_insert_ne.
Qed.

Section net_force.
Context `{Libm}.

Lemma row_forces_lookup cs i js forces k :
  i ∉ js -> NoDup js -> i < length forces ->
  Forall (fun j => j < length forces) js ->
  row_forces cs i js forces !!! k =
  if decide (k = i) then foldl (fun acc j => vadd acc (force_between cs i j)) (forces !!! i) js
  else if decide (k ∈ js) then vsub (forces !!! k) (force_between cs i k)
  else forces !!! k.
Proof.
  revert forces. induction js as [|j js IH]; intros forces Hi Hnd Hlen Hjs.
  - unfold row_forces. cbn [foldl].
    destruct (decide (k = i)) as [->|]; [done|].
    destruct (decide (k ∈ [])) as [Hk|Hk]; [by apply elem_of_nil in Hk|done].
  - apply not_elem_of_cons in Hi as [Hij Hi].
    apply NoDup_cons in Hnd as [Hj Hnd].
    apply Forall_cons in Hjs as [Hjlen Hjs].
    change (row_forces cs i (j :: js) forces)
      with (row_forces cs i js (accumulated i j (force_between cs i j) forces)).
    rewrite IH; [|done|done|by rewrite accumulated_length|
                 by rewrite accumulated_length].
    rewrite !accumulated_lookup by done.
    destruct (decide (k = i)) as [->|Hki].
    { rewrite decide_True by done. reflexivity. }
    destruct (decide (k ∈ js)) as [Hk|Hk].
    + rewrite decide_False by (intros ->; done).
      rewrite decide_True; [done|by right].
    + destruct (decide (k = j)) as [->|Hkj].
      * rewrite decide_True; [done|by left].
      * rewrite decide_False; [done|].
        intros [?|?]%elem_of_cons; done.
Qed.

Lemma rows_forces_snoc cs rows i forces :
  rows_forces cs (rows ++ [i]) forces
  = row_forces cs i (seq (S i) (length cs - S i)) (rows_forces cs rows forces).
Proof. unfold rows_forces. by rewrite foldl_app. Qed.

Lemma rows_forces_lookup cs m k :
  m <= length cs -> k < length cs ->
  rows_forces cs (seq 0 m) (replicate (length cs) (0, 0)) !!! k =
  if decide (k < m) then net_force cs k
  else foldl (fun acc i => vsub acc (force_between cs i k)) (0, 0) (seq 0 m).
Proof.
  intros Hm Hk. induction m as [|m IH].
  - destruct (decide (k < 0)%nat); [lia|].
    unfold rows_forces. cbn [seq foldl].
    by rewrite lookup_total_replicate_2.
  - rewrite seq_S, rows_forces_snoc. cbn [Nat.add].
    rewrite row_forces_lookup.
    + specialize (IH ltac:(lia)).
      destruct (decide (k = m)) as [->|Hkm].
      * rewrite IH, decide_False by lia. rewrite decide_True by lia.
        reflexivity.
      * destruct (decide (k ∈ seq (S m) (length cs - S m))) as [Hin|Hin].
        -- apply elem_of_seq in Hin. rewrite IH, !decide_False by lia.
           rewrite foldl_app. reflexivity.
        -- rewrite elem_of_seq in Hin. rewrite IH.
           rewrite !decide_True by lia. reflexivity.
    + rewrite elem_of_seq. lia.
    + apply NoDup_seq.
    + rewrite rows_forces_length, length_replicate. lia.
    + apply Forall_forall. intros j Hj%elem_of_seq.
      rewrite rows_forces_length, length_replicate. lia.
Qed.

Lemma rows_forces_closed cs :
  rows_forces cs (seq 0 (length cs)) (replicate (length cs) (0, 0))
  = net_force cs <$> seq 0 (length cs).
Proof.
  apply list_eq_same_length with (length cs).
  - by rewrite length_fmap, length_seq.
  - by rewrite rows_forces_length, length_replicate.
  - intros k a b Hk Ha Hb.
    apply list_lookup_total_correct in Ha.
    rewrite rows_forces_lookup in Ha by lia.
    rewrite decide_True in Ha by lia.
    rewrite list_lookup_fmap, lookup_seq_lt in Hb by lia.
    simpl in Hb. congruence.
Qed.

(** The first loop of [step] in closed form. *)
Lemma compute_forces_closed h locs :
  let cs := deref h <$> locs in
  EvolutionSimulation.compute_forces h locs =
  if pairs_ok cs then Ok (net_force cs <$> seq 0 (length cs))
  else Raise ZeroDivisionError.
Proof.
  intros cs. rewrite compute_forces_rows. fold cs.
  by rewrite rows_forces_closed.
Qed.

Lemma compute_forces_length h locs forces :
  EvolutionSimulation.compute_forces h locs = Ok forces -> length forces = length locs.
Proof.
  rewrite compute_forces_closed. destruct (pairs_ok _); [|discriminate].
  intros [= <-]. by rewrite length_fmap, length_seq, length_fmap.
Qed.

Lemma pairs_ok_spec cs :
  pairs_ok cs = true <->
  forall i j, i < j < length cs ->
    is_ok (EvolutionSimulation.pair_force (cs !!! i) (cs !!! j)) = true.
Proof.
  unfold pairs_ok, row_ok. rewrite forallb_forall. split.
  - intros Hall i j Hij.
    specialize (Hall i). rewrite forallb_forall in Hall.
    apply Hall.
    + apply list_elem_of_In, elem_of_seq. lia.
    + apply list_elem_of_In, elem_of_seq. lia.
  - intros Hall i Hi%list_elem_of_In%elem_of_seq.
    apply forallb_forall. intros j Hj%list_elem_of_In%elem_of_seq.
    apply Hall. lia.
Qed.

End net_force.

(** ** The integration loop and [step] *)

Lemma integrate_loop_spec self dt forces ics h :
  Forall (fun ic : nat * loc => ic.1 < length forces) ics ->
  for_each_m ics (EvolutionSimulation.integrate_body self dt forces) h
  = (Ok tt, integrate_heap self dt forces ics h).
Proof.
  revert h. induction ics as [|[i l] ics IH]; intros h Hall; [reflexivity|].
  apply Forall_cons in Hall as [Hi Hall]. simpl in Hi.
  cbn [for_each_m]. rewrite M_bind_eq.
  unfold EvolutionSimulation.integrate_body at 1.
  rewrite M_bind_eq. unfold reading at 1. rewrite (getitem_lt _ _ Hi).
  rewrite M_bind_eq. unfold get_obj at 1, set_obj at 1.
  rewrite IH by done. reflexivity.
Qed.

Lemma integrate_heap_length self dt forces ics h :
  length (integrate_heap self dt forces ics h) = length h.
Proof.
  revert h. induction ics as [|ic ics IH]; intros h; [done|].
  change (integrate_heap self dt forces (ic :: ics) h)
    with (integrate_heap self dt forces ics
            (<[ic.2 := EvolutionSimulation.integrate self dt (forces !!! ic.1)
                         (deref h ic.2)]> h)).
  rewrite IH. apply length_insert.
Qed.

Lemma integrate_heap_cons self dt forces ic ics h :
  integrate_heap self dt forces (ic :: ics) h
  = integrate_heap self dt forces ics
      (<[ic.2 := EvolutionSimulation.integrate self dt (forces !!! ic.1) (deref h ic.2)]> h).
Proof. reflexivity. Qed.

(** Objects that the loop does not visit keep their fields. *)
Lemma integrate_heap_frame self dt forces ics h l :
  l ∉ ics.*2 -> integrate_heap self dt forces ics h !! l = h !! l.
Proof.
  revert h. induction ics as [|ic ics IH]; intros h Hl; [done|].
  rewrite fmap_cons in Hl. apply not_elem_of_cons in Hl as [Hne Hl].
  rewrite integrate_heap_cons, IH by done.
  by apply list_lookup_insert_ne.
Qed.

(** Every object that the loop visits ends as the result of [integrate]. *)
Lemma integrate_heap_visited self dt forces ics h l :
  l ∈ ics.*2 -> l < length h ->
  exists f c, integrate_heap self dt forces ics h !! l
              = Some (EvolutionSimulation.integrate self dt f c).
Proof.
  revert h. induction ics as [|ic ics IH]; intros h Hl Hlt.
  - by apply elem_of_nil in Hl.
  - rewrite integrate_heap_cons.
    destruct (decide (l ∈ ics.*2)) as [Hin|Hin].
    + apply IH; [done|by rewrite length_insert].
    + rewrite fmap_cons in Hl. apply elem_of_cons in Hl as [->|Hl]; [|done].
      rewrite integrate_heap_frame by done.
      eexists _, _. by apply list_lookup_insert_eq.
Qed.

(** When no object is visited twice, each is integrated once with the
    force of its index. *)
Lemma integrate_heap_nodup self dt forces ics h i l :
  NoDup ics.*2 -> (i, l) ∈ ics -> l < length h ->
  integrate_heap self dt forces ics h !! l
  = Some (EvolutionSimulation.integrate self dt (forces !!! i) (deref h l)).
Proof.
  revert h. induction ics as [|ic ics IH]; intros h Hnd Hin Hlt.
  - by apply elem_of_nil in Hin.
  - rewrite fmap_cons in Hnd. apply NoDup_cons in Hnd as [Hnot Hnd].
    rewrite integrate_heap_cons.
    apply elem_of_cons in Hin as [<-|Hin].
    + simpl in *. rewrite integrate_heap_frame by done.
      by apply list_lookup_insert_eq.
    + assert (l <> ic.2) as Hne.
      { intros ->. apply Hnot. apply list_elem_of_fmap. by exists (i, ic.2). }
      rewrite IH; [|done|done|by rewrite length_insert].
      unfold deref. by rewrite list_lookup_total_insert_ne.
Qed.

Section step.
Context `{Libm}.
Import EvolutionSimulation.

Lemma step_eq self dt h :
  step self dt h =
  match compute_forces h (_contacts self) with
  | Ok forces =>
      let h' := integrate_heap self dt forces (Py.enumerate (_contacts self)) h in
      (Ok (Snapshot.mk (_time self + dt) (_contacts self) (total_speed h' (_contacts self)),
           advance self dt), h')
  | Raise e => (Raise e, h)
  end.
Proof.
  unfold step. rewrite M_bind_eq. unfold reading at 1.
  destruct (compute_forces h (_contacts self)) as [forces|e] eqn:Ef; [|reflexivity].
  rewrite M_bind_eq, integrate_loop_spec; [reflexivity|].
  apply Forall_forall. intros [i l] Hil%enumerate_elem. simpl.
  rewrite (compute_forces_length _ _ _ Ef). by apply lookup_lt_Some in Hil.
Qed.

End step.

(** ** Positions after a step *)

Lemma SFcompare_antisym a b :
  SFcompare a b = CompOpp <$> SFcompare b a.
Proof.
  assert (Hm : forall ma mb,
             Pos.compare_cont Eq ma mb = CompOpp (Pos.compare_cont Eq mb ma)).
  { intros ma mb. by rewrite (Pos.compare_cont_antisym mb ma Eq). }
  destruct a as [sa|sa| |sa ma ea], b as [sb|sb| |sb mb eb];
    try destruct sa; try destruct sb; try reflexivity; simpl;
    rewrite (Z.compare_antisym ea eb);
    destruct (ea ?= eb)%Z; simpl; try reflexivity;
    rewrite (Hm ma mb); by destruct (Pos.compare_cont Eq mb ma).
Qed.

Lemma not_nan_spec v : is_nan v = false -> Prim2SF v <> S754_nan.
Proof.
  unfold is_nan. rewrite FloatAxioms.eqb_spec. intros Hv Hn. rewrite Hn in Hv. discriminate.
Qed.

(** On numbers, "not above" is "at most". *)
Lemma leb_of_not_ltb a b :
  is_nan a = false -> is_nan b = false -> (b <? a) = false -> (a <=? b) = true.
Proof.
  intros Ha%not_nan_spec Hb%not_nan_spec. rewrite FloatAxioms.ltb_spec, FloatAxioms.leb_spec.
  unfold SFltb, SFleb. rewrite (SFcompare_antisym (Prim2SF a)).
  destruct (SFcompare (Prim2SF b) (Prim2SF a)) as [[]|] eqn:E; simpl; try done.
  exfalso. destruct (Prim2SF a), (Prim2SF b); simpl in E; congruence.
Qed.

Lemma pos_not_nan a : (0 <? a) = true -> is_nan a = false.
Proof.
  unfold is_nan. rewrite FloatAxioms.ltb_spec, FloatAxioms.eqb_spec. unfold SFltb, SFeqb.
  rewrite (SFcompare_antisym (Prim2SF a) (Prim2SF a)).
  destruct (Prim2SF a) as [s|s| |s m e]; simpl; try done; destruct s; simpl; try done;
    intros _; by rewrite Z.compare_refl, Pos.compare_cont_refl.
Qed.

Lemma not_outside_within v max_value :
  (0 <? max_value) = true -> is_nan v = false ->
  not_outside v max_value -> within v max_value.
Proof.
  intros Hm Hv [Hlo Hhi]. split.
  - by apply leb_of_not_ltb.
  - apply leb_of_not_ltb; [done| |done]. by apply pos_not_nan.
Qed.

Lemma apply_bounds_not_outside position velocity max_value :
  (0 <? max_value) = true ->
  not_outside (EvolutionSimulation._apply_bounds position velocity max_value).1 max_value.
Proof.
  intros Hm. unfold EvolutionSimulation._apply_bounds, not_outside.
  destruct (position <? 0) eqn:Hlo; simpl.
  - split; [reflexivity|by apply pos_not_neg].
  - destruct (max_value <? position) eqn:Hhi; simpl.
    + split; [by apply pos_not_neg|apply ltb_irrefl].
    + done.
Qed.

Lemma integrate_not_outside self dt f c :
  (0 <? EvolutionSimulation._width self) = true ->
  (0 <? EvolutionSimulation._height self) = true ->
  let c' := EvolutionSimulation.integrate self dt f c in
  not_outside (Contact.x c') (EvolutionSimulation._width self) /\
  not_outside (Contact.y c') (EvolutionSimulation._height self).
Proof.
  intros Hw Hh c'.
  destruct (integrate_axes self dt f c) as (Hx & Hy & _).
  fold c' in Hx, Hy. split.
  - replace (Contact.x c') with ((Contact.x c', Contact.vx c').1) by done.
    rewrite Hx. by apply apply_bounds_not_outside.
  - replace (Contact.y c') with ((Contact.y c', Contact.vy c').1) by done.
    rewrite Hy. by apply apply_bounds_not_outside.
Qed.

Section step_facts.
Context `{Libm}.
Import EvolutionSimulation.

(** A step that raises leaves the heap as it was; any step keeps the size
    of the heap and the fields of the objects outside the engine. *)
Lemma step_frame self dt h :
  length (step self dt h).2 = length h /\
  (forall l, l ∉ _contacts self -> (step self dt h).2 !! l = h !! l) /\
  (forall e, (step self dt h).1 = Raise e -> (step self dt h).2 = h).
Proof.
  rewrite step_eq. destruct (compute_forces h (_contacts self)) as [forces|e]; simpl.
  - split; [apply integrate_heap_length|]. split; [|discriminate].
    intros l Hl. apply integrate_heap_frame. by rewrite enumerate_snd.
  - done.
Qed.

Lemma step_ok_inv self dt h snap self' h' :
  step self dt h = (Ok (snap, self'), h') ->
  exists forces,
    compute_forces h (_contacts self) = Ok forces /\
    h' = integrate_heap self dt forces (Py.enumerate (_contacts self)) h /\
    snap = Snapshot.mk (_time self + dt) (_contacts self) (total_speed h' (_contacts self)) /\
    self' = advance self dt.
Proof.
  rewrite step_eq. destruct (compute_forces h (_contacts self)) as [forces|e]; [|discriminate].
  simpl. intros [= <- <- <-]. by exists forces.
Qed.

End step_facts.

(** C2, as the code has it: a step that returns keeps the contacts of the
    engine (and so their number), and every position it leaves that is a
    number lies within the bounds, 0 <= x <= width and 0 <= y <= height.  A
    position can also end as NaN, which no comparison of [_apply_bounds]
    catches. *)
Theorem step_keeps_count_and_bounds `{Libm} (self : EvolutionSimulation.t) (dt : float)
    (h : heap) (snap : Snapshot.t) (self' : EvolutionSimulation.t) (h' : heap) :
  (0 <? EvolutionSimulation._width self) = true ->
  (0 <? EvolutionSimulation._height self) = true ->
  live h (EvolutionSimulation._contacts self) ->
  EvolutionSimulation.step self dt h = (Ok (snap, self'), h') ->
  EvolutionSimulation._contacts self' = EvolutionSimulation._contacts self /\
  Snapshot.contacts snap = EvolutionSimulation._contacts self /\
  length h' = length h /\
  Forall (fun l =>
            (is_nan (Contact.x (deref h' l)) = false ->
             within (Contact.x (deref h' l)) (EvolutionSimulation._width self)) /\
            (is_nan (Contact.y (deref h' l)) = false ->
             within (Contact.y (deref h' l)) (EvolutionSimulation._height self)))
         (EvolutionSimulation._contacts self').
Proof.
  intros Hw Hh Hlive Hstep.
  apply step_ok_inv in Hstep as (forces & Hf & -> & -> & ->). simpl.
  repeat split; [apply integrate_heap_length|].
  apply Forall_forall. intros l Hl.
  destruct (integrate_heap_visited self dt forces
              (Py.enumerate (EvolutionSimulation._contacts self)) h l) as (f & c & Hc).
  { by rewrite enumerate_snd. }
  { unfold live in Hlive. rewrite Forall_forall in Hlive. by apply Hlive. }
  unfold deref. rewrite (list_lookup_total_correct _ _ _ Hc).
  destruct (integrate_not_outside self dt f c Hw Hh) as [Hx Hy].
  split; intros Hnan; by apply not_outside_within.
Qed.

Lemma step_keeps_count_and_bounds_witness :
  let self := EvolutionSimulation.mk [0; 1]%nat 1 1 0.98 0 in
  let h := [Contact.mk 0 0.5 0.5 0.01 0 0.5; Contact.mk 1 0.6 0.5 0.01 0 0.7] in
  exists snap self' h',
    @EvolutionSimulation.step textbook_libm self 0.05 h = (Ok (snap, self'), h') /\
    EvolutionSimulation._contacts self' = [0; 1]%nat /\
    Snapshot.contacts snap = [0; 1]%nat /\
    length h' = 2%nat /\
    Forall (fun l =>
              (is_nan (Contact.x (deref h' l)) = false -> within (Contact.x (deref h' l)) 1) /\
              (is_nan (Contact.y (deref h' l)) = false -> within (Contact.y (deref h' l)) 1))
           (EvolutionSimulation._contacts self').
Proof.
  intros self h. eexists _, _, _. split; [cbv; reflexivity|].
  apply (@step_keeps_count_and_bounds textbook_libm self 0.05 h).
  - reflexivity.
  - reflexivity.
  - repeat constructor.
  - cbv. reflexivity.
Defined.

(** C2 as stated fails at dt = inf, a positive float: with one contact the
    force is 0.0, [0.0 * inf] is NaN, and the NaN position passes both
    comparisons of [_apply_bounds]. *)
Lemma step_nan_position_counterexample :
  let self := EvolutionSimulation.mk [0%nat] 1 1 0.98 0 in
  let h := [Contact.mk 0 0.5 0.5 0.01 0.01 0.5] in
  (0 <? EvolutionSimulation._width self) = true /\
  (0 <? EvolutionSimulation._height self) = true /\
  (0 <? infinity) = true /\
  live h (EvolutionSimulation._contacts self) /\
  exists snap self' h',
    @EvolutionSimulation.step textbook_libm self infinity h = (Ok (snap, self'), h') /\
    ~ within (Contact.x (deref h' 0%nat)) (EvolutionSimulation._width self).
Proof.
  intros self h. repeat split; [repeat constructor|].
  eexists _, _, _. split; [cbv; reflexivity|].
  intros [Hlo _]. vm_compute in Hlo. discriminate.
Qed.

Section snapshot_alias.
Context `{Libm}.

(** ** The snapshots of an engine share its contacts *)

(** The tuple of a snapshot holds the references of the engine, not
    copies: read after a later step, a snapshot shows the contacts as that
    step left them. *)
Lemma step_snapshot_aliases self dt h snap self' h' :
  EvolutionSimulation.step self dt h = (Ok (snap, self'), h') ->
  Snapshot.contacts snap = EvolutionSimulation._contacts self' /\
  forall h'', (Snapshot.view h'' snap).1.2
              = deref h'' <$> EvolutionSimulation._contacts self'.
Proof.
  intros (forces & _ & _ & -> & ->)%step_ok_inv. by split.
Qed.

End snapshot_alias.

(** C1 fails on the code: with one contact at x = 0.5 moving at vx = 0.01,
    the snapshot returned by the first [step(0.05)] shows x = 0.50049 when
    it is returned, and x = 0.5009702 once [step(0.05)] has been called
    again; its time and energy stay as they were. *)
Theorem snapshot_mutated_by_next_step `{Libm} :
  let h0 := [Contact.mk 0 0.5 0.5 0.01 0 0.5] in
  exists sim h1 s1 sim1 h2 s2 sim2 h3,
    EvolutionSimulation.init [0%nat] (1, 1) 0.98 h0 = (Ok sim, h1) /\
    EvolutionSimulation.step sim 0.05 h1 = (Ok (s1, sim1), h2) /\
    EvolutionSimulation.step sim1 0.05 h2 = (Ok (s2, sim2), h3) /\
    Contact.x <$> (Snapshot.view h2 s1).1.2 = [0.50048999999999999] /\
    Contact.x <$> (Snapshot.view h3 s1).1.2 = [0.50097020000000003] /\
    (0.50048999999999999 =? 0.50097020000000003) = false /\
    (Snapshot.view h3 s1).1.1 = (Snapshot.view h2 s1).1.1 /\
    (Snapshot.view h3 s1).2 = (Snapshot.view h2 s1).2.
Proof.
  intros h0. eexists _, _, _, _, _, _, _, _.
  split; [cbv; reflexivity|].
  split; [cbv; reflexivity|].
  split; [cbv; reflexivity|].
  repeat split.
Qed.

(** ** The constructor and the frame of a run *)

Lemma deref_app_l (h k : heap) (l : loc) : l < length h -> deref (h ++ k) l = deref h l.
Proof. intros Hl. unfold deref. by apply lookup_total_app_l. Qed.

Lemma copy_contacts_spec (contacts : list loc) (h : heap) :
  exists h',
    EvolutionSimulation.copy_contacts contacts h
      = (Ok (seq (length h) (length contacts)), h') /\
    length h' = (length h + length contacts)%nat /\
    h `prefix_of` h' /\
    (live h contacts -> h' = h ++ (deref h <$> contacts)).
Proof.
  revert h. induction contacts as [|c contacts IH]; intros h.
  - exists h. simpl. repeat split; [lia|done|]. intros _. by rewrite app_nil_r.
  - destruct (IH (h ++ [deref h c])) as (h' & Hcopy & Hlen & Hpre & Hval).
    exists h'. cbn [EvolutionSimulation.copy_contacts].
    rewrite M_bind_eq. unfold get_obj at 1. rewrite M_bind_eq.
    unfold new_obj at 1, alloc. rewrite M_bind_eq, Hcopy.
    rewrite length_app in *. simpl in *.
    replace (length h + 1)%nat with (S (length h)) by lia.
    repeat split.
    + lia.
    + etrans; [|exact Hpre]. by apply prefix_app_r.
    + intros Hlive. apply Forall_cons in Hlive as [Hc Hlive].
      rewrite Hval.
      * rewrite <- app_assoc. simpl. do 2 f_equal.
        apply Forall_fmap_ext_1. eapply Forall_impl; [exact Hlive|].
        intros l Hl. by apply deref_app_l.
      * eapply Forall_impl; [exact Hlive|]. intros l Hl. simpl in *.
        rewrite length_app. simpl. lia.
Qed.

Lemma init_spec (contacts : list loc) (bounds : float * float) (damping : float) (h : heap) :
  exists h',
    EvolutionSimulation.init contacts bounds damping h
      = (Ok (EvolutionSimulation.mk (seq (length h) (length contacts))
               bounds.1 bounds.2 damping 0), h') /\
    length h' = (length h + length contacts)%nat /\
    h `prefix_of` h' /\
    (live h contacts -> h' = h ++ (deref h <$> contacts)).
Proof.
  destruct (copy_contacts_spec contacts h) as (h' & Hcopy & Hrest).
  exists h'. split; [|exact Hrest].
  unfold EvolutionSimulation.init. by rewrite M_bind_eq, Hcopy.
Qed.

(** Two heaps of the same size that agree below [base]. *)
Lemma prefix_of_agree (h0 h h' : heap) :
  length h' = length h ->
  (forall l, l < length h0 -> h' !! l = h !! l) ->
  h0 `prefix_of` h -> h0 `prefix_of` h'.
Proof.
  intros Hlen Hagree [k ->].
  exists (drop (length h0) h'). rewrite <- (take_drop (length h0) h') at 1. f_equal.
  apply list_eq. intros l. destruct (decide (l < length h0)) as [Hl|Hl].
  - rewrite lookup_take_lt, Hagree by done. by rewrite lookup_app_l.
  - rewrite lookup_take_ge by lia. symmetry. apply lookup_ge_None_2. lia.
Qed.

Section frame.
Context `{Libm}.
Import EvolutionSimulation.

Lemma step_prefix h0 self dt h :
  Forall (fun l => length h0 <= l) (_contacts self) ->
  h0 `prefix_of` h -> h0 `prefix_of` (step self dt h).2.
Proof.
  intros Hfresh Hpre. destruct (step_frame self dt h) as (Hlen & Hout & _).
  apply (prefix_of_agree h0 h); [done| |done].
  intros l Hl. apply Hout. intros Hin.
  rewrite Forall_forall in Hfresh. specialize (Hfresh l Hin). lia.
Qed.

Lemma step_contacts self dt h snap self' h' :
  step self dt h = (Ok (snap, self'), h') -> _contacts self' = _contacts self.
Proof. by intros (forces & _ & _ & _ & ->)%step_ok_inv. Qed.

Lemma step_calls_prefix h0 dts self h :
  Forall (fun l => length h0 <= l) (_contacts self) ->
  h0 `prefix_of` h -> h0 `prefix_of` (step_calls dts self h).2.
Proof.
  revert self h. induction dts as [|dt dts IH]; intros self h Hfresh Hpre; [done|].
  cbn [step_calls]. rewrite M_bind_eq.
  pose proof (step_prefix h0 self dt h Hfresh Hpre) as Hstep.
  destruct (step self dt h) as [[[snap self']|e] h'] eqn:Es; [|done].
  rewrite M_bind_eq. simpl in Hstep.
  assert (Hfresh' : Forall (fun l => length h0 <= l) (_contacts self')).
  { by rewrite (step_contacts _ _ _ _ _ _ Es). }
  specialize (IH self' h' Hfresh' Hstep).
  by destruct (step_calls dts self' h') as [[[snaps self'']|e] h''].
Qed.

Lemma run_loop_prefix h0 r dt self snaps h :
  Forall (fun l => length h0 <= l) (_contacts self) ->
  h0 `prefix_of` h -> h0 `prefix_of` (run_loop r dt self snaps h).2.
Proof.
  revert self snaps h. induction r as [|z r IH]; intros self snaps h Hfresh Hpre; [done|].
  cbn [run_loop]. rewrite M_bind_eq.
  pose proof (step_prefix h0 self dt h Hfresh Hpre) as Hstep.
  destruct (step self dt h) as [[[snap self']|e] h'] eqn:Es; [|done].
  simpl in Hstep. apply IH; [|done].
  by rewrite (step_contacts _ _ _ _ _ _ Es).
Qed.

End frame.

(** [run_simulation] only adds objects to the heap. *)
Lemma constructor_frame `{Libm} (steps : Z) (dt : float) (contacts : list loc)
    (bounds : float * float) (damping : float) (h : heap) :
  h `prefix_of` (run_simulation steps dt contacts bounds damping h).2.
Proof.
  destruct (init_spec contacts bounds damping h) as (h1 & Hinit & Hlen & Hpre & _).
  unfold run_simulation. rewrite M_bind_eq, Hinit.
  apply run_loop_prefix; [|done]. simpl.
  apply Forall_forall. intros l Hl%elem_of_seq. lia.
Qed.

(** C9: the constructor copies the input contacts into new objects with the
    same field values, and however many times [step] is then called, with
    whatever time steps, every object that existed before the constructor
    ran, the caller's contacts among them, keeps its fields: the old heap is
    a prefix of the new one.  The same holds for [run_simulation]. *)
Theorem constructor_copies_contacts `{Libm} (contacts : list loc) (bounds : float * float)
    (damping : float) (h : heap) :
  (exists sim h1,
     EvolutionSimulation.init contacts bounds damping h = (Ok sim, h1) /\
     Forall (fun l => length h <= l < length h1) (EvolutionSimulation._contacts sim) /\
     (live h contacts ->
      deref h1 <$> EvolutionSimulation._contacts sim = deref h <$> contacts) /\
     forall dts, h `prefix_of` (step_calls dts sim h1).2) /\
  (forall steps dt, h `prefix_of` (run_simulation steps dt contacts bounds damping h).2).
Proof.
  destruct (init_spec contacts bounds damping h) as (h1 & Hinit & Hlen & Hpre & Hval).
  assert (Hfresh : Forall (fun l => length h <= l < length h1)
                     (seq (length h) (length contacts))).
  { apply Forall_forall. intros l Hl%elem_of_seq. lia. }
  split.
  - eexists _, h1. split; [exact Hinit|]. simpl. split; [exact Hfresh|]. split.
    + intros Hlive. rewrite (Hval Hlive).
      apply list_eq. intros i. rewrite !list_lookup_fmap.
      destruct (decide (i < length contacts)) as [Hi|Hi].
      * rewrite lookup_seq_lt by done. simpl.
        destruct (contacts !! i) as [c|] eqn:Ec; [|by apply lookup_ge_None in Ec; lia].
        simpl. f_equal. unfold deref. rewrite lookup_total_app_r by lia.
        replace (length h + i - length h)%nat with i by lia.
        apply list_lookup_total_correct. by rewrite list_lookup_fmap, Ec.
      * rewrite lookup_seq_ge by lia. by rewrite lookup_ge_None_2 by lia.
    + intros dts. apply step_calls_prefix; [|done]. simpl.
      eapply Forall_impl; [exact Hfresh|]. simpl. lia.
  - intros steps dt. unfold run_simulation. rewrite M_bind_eq, Hinit.
    apply run_loop_prefix; [|done]. simpl.
    eapply Forall_impl; [exact Hfresh|]. simpl. lia.
Qed.

Lemma constructor_copies_contacts_witness :
  let h := [Contact.mk 0 0.5 0.5 0.01 0 0.5; Contact.mk 1 0.6 0.5 0.01 0 0.7] in
  (exists sim h1,
     EvolutionSimulation.init [0; 1]%nat (1, 1) 0.98 h = (Ok sim, h1) /\
     deref h1 <$> EvolutionSimulation._contacts sim = deref h <$> [0; 1]%nat) /\
  h `prefix_of` (@run_simulation textbook_libm 3 0.05 [0; 1]%nat (1, 1) 0.98 h).2.
Proof.
  intros h.
  destruct (@constructor_copies_contacts textbook_libm [0; 1]%nat (1, 1) 0.98 h)
    as [(sim & h1 & Hinit & _ & Hval & _) Hrun].
  split.
  - exists sim, h1. split; [exact Hinit|]. apply Hval. repeat constructor.
  - apply Hrun.
Defined.

(** ** Inputs are not validated *)

Lemma range_neg (n : Z) : (n <= 0)%Z -> Py.range n = [].
Proof. intros Hn. unfold Py.range. by replace (Z.to_nat n) with 0%nat by lia. Qed.

Lemma step_outcome `{Libm} (self : EvolutionSimulation.t) (dt : float) (h : heap) :
  let cs := deref h <$> EvolutionSimulation._contacts self in
  (pairs_ok cs = true ->
   exists snap self' h',
     EvolutionSimulation.step self dt h = (Ok (snap, self'), h') /\
     EvolutionSimulation._time self' = EvolutionSimulation._time self + dt /\
     Snapshot.time snap = EvolutionSimulation._time self + dt) /\
  (pairs_ok cs = false ->
   EvolutionSimulation.step self dt h = (Raise ZeroDivisionError, h)).
Proof.
  intros cs. rewrite step_eq, compute_forces_closed. fold cs.
  split; intros ->; [|reflexivity].
  eexists _, _, _. split; [reflexivity|]. by split.
Qed.

(** C3, as the code has it: no input is validated and nothing raises an
    error for a bad argument.  A negative [count] yields the empty list and
    creates nothing; a negative [steps] yields the empty list after the
    engine was built and without any call of [step]; [step] treats every
    [dt], negative or zero too, alike: when no division of the force
    loop raises, it returns and adds [dt] to the time, and otherwise it
    raises [ZeroDivisionError] and leaves the heap as it was. *)
Theorem inputs_not_validated `{Libm} `{Random} :
  (forall count seed h, (count < 0)%Z -> create_contacts count seed h = (Ok [], h)) /\
  (forall steps dt contacts bounds damping h, (steps < 0)%Z ->
     exists sim h1,
       EvolutionSimulation.init contacts bounds damping h = (Ok sim, h1) /\
       run_simulation steps dt contacts bounds damping h = (Ok [], h1)) /\
  (forall self dt h,
     let cs := deref h <$> EvolutionSimulation._contacts self in
     (pairs_ok cs = true ->
      exists snap self' h',
        EvolutionSimulation.step self dt h = (Ok (snap, self'), h') /\
        EvolutionSimulation._time self' = EvolutionSimulation._time self + dt /\
        Snapshot.time snap = EvolutionSimulation._time self + dt) /\
     (pairs_ok cs = false ->
      EvolutionSimulation.step self dt h = (Raise ZeroDivisionError, h))).
Proof.
  split; [|split].
  - intros count seed h Hc. unfold create_contacts.
    by rewrite range_neg by lia.
  - intros steps dt contacts bounds damping h Hs.
    destruct (init_spec contacts bounds damping h) as (h1 & Hinit & _).
    eexists _, h1. split; [exact Hinit|].
    unfold run_simulation. rewrite M_bind_eq, Hinit.
    by rewrite range_neg by lia.
  - intros self dt h. apply step_outcome.
Qed.

Lemma inputs_not_validated_witness :
  @create_contacts lcg_random (-1) 42 [] = (Ok [], []) /\
  (exists sim h1,
     EvolutionSimulation.init [] (1, 1) 0.98 [] = (Ok sim, h1) /\
     @run_simulation textbook_libm (-1) 0.05 [] (1, 1) 0.98 [] = (Ok [], h1)) /\
  exists snap self' h',
    @EvolutionSimulation.step textbook_libm
      (EvolutionSimulation.mk [0%nat] 1 1 0.98 0) (-0.05)
      [Contact.mk 0 0.5 0.5 0.01 0 0.5] = (Ok (snap, self'), h') /\
    EvolutionSimulation._time self' = 0 + -0.05 /\
    Snapshot.time snap = 0 + -0.05.
Proof.
  destruct (@inputs_not_validated textbook_libm lcg_random) as (Hc & Hr & Hs).
  split; [|split].
  - apply Hc. lia.
  - apply Hr. lia.
  - apply (Hs (EvolutionSimulation.mk [0%nat] 1 1 0.98 0)). reflexivity.
Defined.

(** C3 as stated fails: none of the three calls raises. *)
Lemma invalid_input_counterexample :
  is_ok (@create_contacts lcg_random (-1) 42 []).1 = true /\
  is_ok (@run_simulation textbook_libm (-1) 0.05 [] (1, 1) 0.98 []).1 = true /\
  is_ok (@EvolutionSimulation.step textbook_libm
           (EvolutionSimulation.mk [0%nat] 1 1 0.98 0) (-0.05)
           [Contact.mk 0 0.5 0.5 0.01 0 0.5]).1 = true /\
  is_ok (@EvolutionSimulation.step textbook_libm
           (EvolutionSimulation.mk [0%nat] 1 1 0.98 0) 0
           [Contact.mk 0 0.5 0.5 0.01 0 0.5]).1 = true.
Proof. repeat split. Qed.

(** ** The audio renderer: how many samples *)

(** A loop that appends one element per iteration. *)
Lemma append_loop_length {A B} (f : A -> res B) (xs : list A) (acc r : list B) :
  Py.for_each xs (fun x acc => b ← f x; mret (acc ++ [b])) acc = Ok r ->
  length r = (length acc + length xs)%nat.
Proof.
  revert acc. induction xs as [|x xs IH]; intros acc; simpl.
  - intros [= <-]. lia.
  - rewrite res_bind_eq. destruct (f x) as [b|e]; [|discriminate].
    intros Hr%IH. rewrite length_app in Hr. simpl in *. lia.
Qed.

Lemma append_loop_Forall {A B} (P : B -> Prop) (f : A -> res B) (xs : list A)
    (acc r : list B) :
  (forall x b, f x = Ok b -> P b) -> Forall P acc ->
  Py.for_each xs (fun x acc => b ← f x; mret (acc ++ [b])) acc = Ok r ->
  Forall P r.
Proof.
  intros Hf. revert acc. induction xs as [|x xs IH]; intros acc Hacc; simpl.
  - by intros [= <-].
  - rewrite res_bind_eq. destruct (f x) as [b|e] eqn:Ef; [|discriminate].
    apply IH. apply Forall_app. split; [done|]. repeat constructor. by eapply Hf.
Qed.

Lemma range_length (n : Z) : length (Py.range n) = Z.to_nat n.
Proof. unfold Py.range. by rewrite length_fmap, length_seq. Qed.

Section audio_count.
Context `{Libm}.

Lemma audio_loop_length h snapshots rate dur n acc samples :
  step_samples rate dur = Ok n ->
  Py.for_each snapshots
    (fun snapshot samples =>
       n ← step_samples rate dur;
       Py.for_each (Py.range n)
         (fun sample_index samples =>
            s ← sample h snapshot rate sample_index;
            mret (samples ++ [s]))
         samples)
    acc = Ok samples ->
  length samples = (length acc + length snapshots * Z.to_nat n)%nat.
Proof.
  intros Hn. revert acc. induction snapshots as [|snapshot snapshots IH]; intros acc; simpl.
  - intros [= <-]. lia.
  - rewrite Hn, res_bind_eq.
    destruct (Py.for_each (Py.range n) _ acc) as [acc'|e] eqn:Einner; [|discriminate].
    apply append_loop_length in Einner. rewrite range_length in Einner.
    intros Hr. rewrite <- Hn in Hr. apply IH in Hr. lia.
Qed.

Lemma pack_samples_length samples acc bytes :
  Py.for_each samples (fun s bytes => b ← pack_h s; mret (bytes ++ b)) acc = Ok bytes ->
  length bytes = (length acc + 2 * length samples)%nat.
Proof.
  revert acc. induction samples as [|s samples IH]; intros acc; simpl.
  - intros [= <-]. lia.
  - rewrite res_bind_eq. unfold pack_h at 1.
    destruct (decide _); [|discriminate]. simpl.
    intros Hr%IH. rewrite length_app in Hr. simpl in Hr. lia.
Qed.

End audio_count.

Lemma step_samples_default : step_samples 44100 0.1 = Ok 4410%Z.
Proof. reflexivity. Qed.

(** C7 as stated fails: [int(sample_rate * step_duration)] can be negative,
    and the number of samples cannot.  With [sample_rate = 8] and
    [step_duration = -0.5] the product truncates to -4, [range(-4)] is
    empty, and two snapshots yield no sample at all, not 2 * -4. *)
Lemma audio_sample_count_counterexample :
  step_samples 8 (-0.5) = Ok (-4)%Z /\
  @audio_samples textbook_libm [Contact.mk 0 0.5 0.5 0.01 0 0.5]
    [Snapshot.mk 0.05 [0%nat] 0.01; Snapshot.mk 0.1 [0%nat] 0.01] 8 (-0.5) = Ok [] /\
  @generate_audio textbook_libm [Contact.mk 0 0.5 0.5 0.01 0 0.5]
    [Snapshot.mk 0.05 [0%nat] 0.01; Snapshot.mk 0.1 [0%nat] 0.01] 8 (-0.5)
    = Ok (mk_wav 1 2 8 []) /\
  ~ (forall (h : heap) (snapshots : list Snapshot.t) (sample_rate : Z)
       (step_duration : float) (samples : list Z) (n : Z),
       @audio_samples textbook_libm h snapshots sample_rate step_duration = Ok samples ->
       step_samples sample_rate step_duration = Ok n ->
       Z.of_nat (length samples) = (Z.of_nat (length snapshots) * n)%Z).
Proof.
  split; [reflexivity|]. split; [reflexivity|]. split; [reflexivity|].
  intros Hclaim.
  specialize (Hclaim [Contact.mk 0 0.5 0.5 0.01 0 0.5]
                [Snapshot.mk 0.05 [0%nat] 0.01; Snapshot.mk 0.1 [0%nat] 0.01]
                8%Z (-0.5) [] (-4)%Z eq_refl eq_refl).
  discriminate Hclaim.
Qed.

(** C7, as the code has it: for S snapshots, [generate_audio] builds exactly
    S * max(0, int(sample_rate * step_duration)) samples, none when the
    truncated product is negative, and hands two bytes per sample to the
    writer; with the defaults 44100 and 0.1 that is S * 4410 samples. *)
Theorem audio_sample_count `{Libm} (h : heap) (snapshots : list Snapshot.t)
    (sample_rate : Z) (step_duration : float) :
  (forall samples n,
     audio_samples h snapshots sample_rate step_duration = Ok samples ->
     step_samples sample_rate step_duration = Ok n ->
     Z.of_nat (length samples) = (Z.of_nat (length snapshots) * Z.max 0 n)%Z) /\
  (forall w n,
     generate_audio h snapshots sample_rate step_duration = Ok w ->
     step_samples sample_rate step_duration = Ok n ->
     Z.of_nat (length (frames w)) = (2 * (Z.of_nat (length snapshots) * Z.max 0 n))%Z) /\
  (forall samples,
     audio_samples h snapshots 44100 0.1 = Ok samples ->
     length samples = (length snapshots * 4410)%nat).
Proof.
  split; [|split].
  - intros samples n Hs Hn.
    apply (audio_loop_length _ _ _ _ _ _ _ Hn) in Hs. simpl in Hs. lia.
  - intros w n Hw Hn. unfold generate_audio in Hw.
    rewrite res_bind_eq in Hw.
    destruct (audio_samples _ _ _ _) as [samples|e] eqn:Hs; [|discriminate].
    rewrite res_bind_eq in Hw.
    destruct (pack_samples samples) as [bytes|e] eqn:Hb; [|discriminate].
    injection Hw as <-. simpl.
    apply (audio_loop_length _ _ _ _ _ _ _ Hn) in Hs.
    apply pack_samples_length in Hb. simpl in *. lia.
  - intros samples Hs.
    apply (audio_loop_length _ _ _ _ _ _ _ step_samples_default) in Hs.
    simpl in Hs. lia.
Qed.

Lemma audio_sample_count_witness :
  let h := [Contact.mk 0 0.5 0.5 0.01 0 0.5] in
  let snapshots := [Snapshot.mk 0.05 [0%nat] 0.01; Snapshot.mk 0.1 [0%nat] 0.01] in
  (exists samples,
     @audio_samples textbook_libm h snapshots 8 0.5 = Ok samples /\
     Z.of_nat (length samples) = (2 * Z.max 0 4)%Z) /\
  (exists samples,
     @audio_samples textbook_libm h snapshots 8 (-0.5) = Ok samples /\
     Z.of_nat (length samples) = (2 * Z.max 0 (-4))%Z) /\
  (exists w,
     @generate_audio textbook_libm h snapshots 8 0.5 = Ok w /\
     Z.of_nat (length (frames w)) = (2 * (2 * Z.max 0 4))%Z) /\
  (exists samples,
     @audio_samples textbook_libm h [Snapshot.mk 0.05 [] 0.01] 44100 0.1 = Ok samples /\
     length samples = (1 * 4410)%nat).
Proof.
  intros h snapshots. split; [|split; [|split]].
  - eexists. split; [vm_compute; reflexivity|].
    apply (proj1 (@audio_sample_count textbook_libm h snapshots 8 0.5));
      [vm_compute; reflexivity|reflexivity].
  - eexists. split; [vm_compute; reflexivity|].
    apply (proj1 (@audio_sample_count textbook_libm h snapshots 8 (-0.5)));
      [vm_compute; reflexivity|reflexivity].
  - eexists. split; [vm_compute; reflexivity|].
    apply (proj1 (proj2 (@audio_sample_count textbook_libm h snapshots 8 0.5)));
      [vm_compute; reflexivity|reflexivity].
  - eexists. split; [vm_compute; reflexivity|].
    apply (proj2 (proj2 (@audio_sample_count textbook_libm h
                           [Snapshot.mk 0.05 [] 0.01] 44100 0.1))).
    vm_compute. reflexivity.
Defined.

(** ** Rounding in [spec_float]: what is needed of a product *)

Section rounding.
Local Open Scope Z_scope.

Lemma digits2_pos_size (p : positive) : digits2_pos p = Pos.size p.
Proof. induction p as [p IH|p IH|]; simpl; by rewrite ?IH. Qed.

Lemma Zdigits2_lower (m : Z) : (0 < m)%Z -> (2 ^ (Zdigits2 m - 1) <= m)%Z.
Proof.
  destruct m as [|p|p]; try lia. intros _. simpl.
  rewrite digits2_pos_size.
  pose proof (Pos.size_le p) as Hle.
  assert (Hp : (Z.pos (2 ^ Pos.size p) <= Z.pos p~0)%Z) by lia.
  rewrite Pos2Z.inj_pow in Hp.
  replace (Z.pos (Pos.size p)) with (Z.pos (Pos.size p) - 1 + 1)%Z in Hp by lia.
  rewrite Z.pow_add_r in Hp by lia. lia.
Qed.

Lemma Zdigits2_upper (p : positive) : (Z.pos p < 2 ^ Z.pos (digits2_pos p))%Z.
Proof.
  rewrite digits2_pos_size. pose proof (Pos.size_gt p) as Hgt.
  rewrite <- Pos2Z.inj_pow. lia.
Qed.

(** A number below [2 ^ k] has at most [k] digits. *)
Lemma Zdigits2_le (m k : Z) : (0 <= m < 2 ^ k)%Z -> (0 <= k)%Z -> (Zdigits2 m <= k)%Z.
Proof.
  intros [Hm Hlt] Hk. destruct (decide (m = 0)) as [->|Hne]; [simpl; lia|].
  pose proof (Zdigits2_lower m ltac:(lia)) as Hlow.
  destruct (Z.le_gt_cases (Zdigits2 m) k) as [|Hgt]; [done|].
  exfalso. assert (2 ^ k <= 2 ^ (Zdigits2 m - 1))%Z; [|lia].
  apply Z.pow_le_mono_r; lia.
Qed.

Lemma shr_1_m (mrs : shr_record) :
  (0 <= shr_m mrs)%Z -> shr_m (shr_1 mrs) = (shr_m mrs / 2)%Z.
Proof.
  destruct mrs as [m r s]. simpl. intros Hm.
  destruct m as [|[p|p|]|p]; simpl; try lia.
  - reflexivity.
  - rewrite Pos2Z.inj_xI. apply Z.div_unique with 1; lia.
  - rewrite Pos2Z.inj_xO. apply Z.div_unique with 0; lia.
  - reflexivity.
Qed.

Lemma iter_shr_1_m (p : positive) (mrs : shr_record) :
  (0 <= shr_m mrs)%Z ->
  shr_m (SpecFloat.iter_pos shr_1 p mrs) = (shr_m mrs / 2 ^ Z.pos p)%Z.
Proof.
  revert mrs. induction p as [p IH|p IH|]; intros mrs Hm; simpl.
  - assert (H1 : (0 <= shr_m (shr_1 mrs))%Z).
    { rewrite shr_1_m by done. apply Z.div_pos; lia. }
    assert (H2 : (0 <= shr_m (SpecFloat.iter_pos shr_1 p (shr_1 mrs)))%Z).
    { rewrite IH by done. apply Z.div_pos; lia. }
    rewrite IH, IH, shr_1_m by done.
    rewrite !Z.div_div by lia. f_equal.
    rewrite Pos2Z.inj_xI, Z.pow_add_r, <- Z.pow_twice_r by lia. lia.
  - assert (H2 : (0 <= shr_m (SpecFloat.iter_pos shr_1 p mrs))%Z).
    { rewrite IH by done. apply Z.div_pos; lia. }
    rewrite IH, IH by done.
    rewrite !Z.div_div by lia. f_equal.
    rewrite Pos2Z.inj_xO, <- Z.pow_twice_r. lia.
  - by apply shr_1_m.
Qed.

(** The first component and the exponent of [shr_fexp]: the mantissa is
    divided by a power of two and the exponent grows by as much. *)
Lemma shr_fexp_spec (m e : Z) (l : location) :
  (0 <= m)%Z ->
  let k := Z.max 0 (fexp prec emax (Zdigits2 m + e) - e) in
  shr_m (shr_fexp prec emax m e l).1 = (m / 2 ^ k)%Z /\
  (shr_fexp prec emax m e l).2 = (e + k)%Z.
Proof.
  intros Hm k. unfold shr_fexp, shr. subst k.
  assert (Hrec : shr_m (shr_record_of_loc m l) = m).
  { by destruct l as [|[]]. }
  destruct (fexp prec emax (Zdigits2 m + e) - e)%Z as [|p|p] eqn:En; simpl.
  - rewrite Hrec, Z.div_1_r. split; [done|lia].
  - rewrite iter_shr_1_m by (by rewrite Hrec). rewrite Hrec.
    replace (Z.max 0 (Z.pos p)) with (Z.pos p) by lia. done.
  - rewrite Hrec. replace (Z.max 0 (Z.neg p)) with 0%Z by lia.
    rewrite Z.div_1_r. split; [done|lia].
Qed.

Lemma round_nearest_even_bounds (m : Z) (l : location) :
  (m <= round_nearest_even m l <= m + 1)%Z.
Proof.
  destruct l as [|[]]; simpl; try lia. destruct (Z.even m); lia.
Qed.

Lemma fexp_le (d bound : Z) :
  d <= bound + 53 -> -1074 <= bound -> fexp prec emax d <= bound.
Proof. unfold fexp, SpecFloat.emin, prec, emax. lia. Qed.

Lemma pow2_split (a b : Z) : 0 <= a -> 0 <= b -> 2 ^ (a + b) = 2 ^ a * 2 ^ b.
Proof. intros. by apply Z.pow_add_r. Qed.

(** Rounding a positive number below 32767 whose exponent is at most -38:
    the result is zero or a finite number, of the same sign, whose integer
    part is at most 32767. *)
Lemma binary_round_aux_bound (s : bool) (P E : Z) :
  0 < P -> E <= -38 -> P < 32767 * 2 ^ (- E) ->
  match binary_round_aux prec emax s P E loc_Exact with
  | S754_zero s' => s' = s
  | S754_finite s' m e => s' = s /\ Z.shiftl (Z.pos m) e <= 32767
  | _ => False
  end.
Proof.
  intros HP HE Hbound. unfold binary_round_aux.
  destruct (shr_fexp_spec P E loc_Exact ltac:(lia)) as [Hm1 He1].
  destruct (shr_fexp prec emax P E loc_Exact) as [mrs1 e1]. simpl in Hm1, He1.
  set (k := Z.max 0 (fexp prec emax (Zdigits2 P + E) - E)) in *.
  set (m2 := round_nearest_even (shr_m mrs1) (loc_of_shr_record mrs1)).
  assert (Hpow15 : forall x, 0 <= x -> 32767 * 2 ^ x < 2 ^ (15 + x)).
  { intros x Hx. rewrite pow2_split by lia. change (2 ^ 15) with 32768.
    pose proof (Z.pow_pos_nonneg 2 x ltac:(lia) Hx). lia. }
  (* the exponent after the first shift *)
  assert (Hd1 : Zdigits2 P <= 15 - E).
  { apply Zdigits2_le; [|lia]. split; [lia|].
    replace (15 - E) with (15 + - E) by lia. specialize (Hpow15 (- E)). lia. }
  assert (Hk : 0 <= k) by (unfold k; lia).
  assert (He1' : e1 <= -38).
  { rewrite He1. unfold k.
    pose proof (fexp_le (Zdigits2 P + E) (-38) ltac:(lia) ltac:(lia)). lia. }
  (* the mantissa after the first shift and the rounding *)
  assert (Hm1' : 0 <= shr_m mrs1 < 32767 * 2 ^ (- e1)).
  { rewrite Hm1. split; [apply Z.div_pos; lia|].
    apply Z.div_lt_upper_bound; [lia|].
    replace (- E) with (k + - e1) in Hbound by lia.
    rewrite pow2_split in Hbound by lia. lia. }
  pose proof (round_nearest_even_bounds (shr_m mrs1) (loc_of_shr_record mrs1)) as Hm2.
  fold m2 in Hm2.
  assert (Hm2' : 0 <= m2 <= 32767 * 2 ^ (- e1)) by lia.
  (* the second shift *)
  destruct (shr_fexp_spec m2 e1 loc_Exact ltac:(lia)) as [Hm3 He3].
  destruct (shr_fexp prec emax m2 e1 loc_Exact) as [mrs3 e3]. simpl in Hm3, He3.
  set (k' := Z.max 0 (fexp prec emax (Zdigits2 m2 + e1) - e1)) in *.
  assert (Hd2 : Zdigits2 m2 <= 15 - e1).
  { apply Zdigits2_le; [|lia]. split; [lia|].
    replace (15 - e1) with (15 + - e1) by lia. specialize (Hpow15 (- e1)). lia. }
  assert (Hk' : 0 <= k') by (unfold k'; lia).
  assert (He3' : e3 <= -38).
  { rewrite He3. unfold k'.
    pose proof (fexp_le (Zdigits2 m2 + e1) (-38) ltac:(lia) ltac:(lia)). lia. }
  destruct (shr_m mrs3) as [|m3|m3] eqn:Em3.
  - reflexivity.
  - assert (Hle : (e3 <=? emax - prec) = true).
    { apply Z.leb_le. unfold emax, prec. lia. }
    rewrite Hle. split; [reflexivity|].
    rewrite Z.shiftl_div_pow2 by lia. rewrite Hm3.
    rewrite Z.div_div by lia.
    rewrite <- pow2_split by lia.
    replace (k' + - e3) with (- e1) by lia.
    apply Z.div_le_upper_bound; lia.
  - exfalso. assert (0 <= m2 / 2 ^ k') by (apply Z.div_pos; lia). lia.
Qed.

End rounding.

(** ** Quantization *)

Lemma clamp_cases (v : float) :
  let c := Py.max (-1) (Py.min 1 v) in
  c = 1 \/ c = -1 \/ (c = v /\ (-1 <? v) = true /\ (v <? 1) = true).
Proof.
  unfold Py.max, Py.min. destruct (v <? 1) eqn:E1.
  - destruct (-1 <? v) eqn:E2; auto.
  - left. reflexivity.
Qed.

Section quantize.
Local Open Scope Z_scope.

Lemma SFltb_finite_pos (m1 m2 : positive) (e1 e2 : Z) :
  SFltb (S754_finite false m1 e1) (S754_finite false m2 e2) = true ->
  e1 < e2 \/ (e1 = e2 /\ Z.pos m1 < Z.pos m2).
Proof.
  unfold SFltb, SFcompare.
  destruct (Z.compare_spec e1 e2) as [He|He|He]; [|by left|discriminate].
  change (Pos.compare_cont Eq m1 m2) with (Pos.compare m1 m2).
  destruct (Pos.compare_spec m1 m2) as [Hm|Hm|Hm]; try discriminate. by right.
Qed.

Lemma SFltb_finite_neg (m1 m2 : positive) (e1 e2 : Z) :
  SFltb (S754_finite true m1 e1) (S754_finite true m2 e2) = true ->
  e2 < e1 \/ (e1 = e2 /\ Z.pos m2 < Z.pos m1).
Proof.
  unfold SFltb, SFcompare.
  destruct (Z.compare_spec e1 e2) as [He|He|He]; [|discriminate|by left].
  change (Pos.compare_cont Eq m1 m2) with (Pos.compare m1 m2).
  destruct (Pos.compare_spec m1 m2) as [Hm|Hm|Hm]; try discriminate. by right.
Qed.

(** A finite binary64 number strictly between -1 and 1, as a mantissa and
    an exponent. *)
Lemma inside_unit_finite (s : bool) (m : positive) (e : Z) :
  valid_binary (S754_finite s m e) = true ->
  SFltb (S754_finite s m e) (Prim2SF 1%float) = true ->
  SFltb (Prim2SF (-1)%float) (S754_finite s m e) = true ->
  e <= -52 /\ Z.pos m < 2 ^ (- e).
Proof.
  intros Hvalid Hlt1 Hgt1.
  change (Prim2SF 1%float) with (S754_finite false 4503599627370496 (-52)) in Hlt1.
  change (Prim2SF (-1)%float) with (S754_finite true 4503599627370496 (-52)) in Hgt1.
  assert (Hm : Z.pos m < 2 ^ 53).
  { simpl in Hvalid. unfold bounded, canonical_mantissa in Hvalid.
    apply andb_prop in Hvalid as [Hc _]. apply Z.eqb_eq in Hc.
    unfold fexp, SpecFloat.emin, prec, emax in Hc.
    pose proof (Zdigits2_upper m) as Hup.
    assert (Z.pos (digits2_pos m) <= 53) as Hd by lia.
    eapply Z.lt_le_trans; [exact Hup|]. apply Z.pow_le_mono_r; lia. }
  assert (Hcases : e <= -53 \/ (e = -52 /\ Z.pos m < 2 ^ 52)).
  { destruct s.
    - apply SFltb_finite_neg in Hgt1 as [He|[He Hlt]]; [left; lia|right].
      split; [lia|exact Hlt].
    - apply SFltb_finite_pos in Hlt1 as [He|[He Hlt]]; [left; lia|right].
      split; [lia|exact Hlt]. }
  destruct Hcases as [He|[-> Hm52]].
  - split; [lia|]. eapply Z.lt_le_trans; [exact Hm|].
    apply Z.pow_le_mono_r; lia.
  - split; [lia|]. exact Hm52.
Qed.

(** The product of a number strictly between -1 and 1 with 32767
    truncates to an integer of absolute value at most 32767. *)
Lemma scaled_inside_unit (v : float) :
  (-1 <? v)%float = true -> (v <? 1)%float = true ->
  exists n, Py.int_of_float (v * 32767)%float = Ok n /\ -32767 <= n <= 32767.
Proof.
  intros Hgt Hlt. rewrite FloatAxioms.ltb_spec in Hgt, Hlt.
  unfold Py.int_of_float. rewrite mul_spec.
  change (Prim2SF 32767%float) with (S754_finite false 9006924376834048 (-38)).
  pose proof (Prim2SF_valid v) as Hvalid.
  destruct (Prim2SF v) as [s|s| |s m e] eqn:Ev.
  - exists 0. simpl. split; [reflexivity|lia].
  - destruct s; discriminate.
  - discriminate.
  - destruct (inside_unit_finite s m e Hvalid Hlt Hgt) as [He Hm].
    unfold SF64mul, SFmul.
    pose proof (binary_round_aux_bound (xorb s false)
                  (Z.pos (m * 9006924376834048)) (e + -38)) as Hround.
    destruct (binary_round_aux prec emax (xorb s false)
                (Z.pos (m * 9006924376834048)) (e + -38) loc_Exact) as [s'|s'| |s' m' e'].
    + exists 0. split; [reflexivity|lia].
    + exfalso. apply Hround; [lia|lia|].
      rewrite Pos2Z.inj_mul. replace (- (e + -38)) with (38 + - e) by lia.
      rewrite pow2_split by lia.
      change (Z.pos 9006924376834048) with (32767 * 2 ^ 38).
      pose proof (Z.pow_pos_nonneg 2 38 ltac:(lia) ltac:(lia)). nia.
    + exfalso. apply Hround; [lia|lia|].
      rewrite Pos2Z.inj_mul. replace (- (e + -38)) with (38 + - e) by lia.
      rewrite pow2_split by lia.
      change (Z.pos 9006924376834048) with (32767 * 2 ^ 38).
      pose proof (Z.pow_pos_nonneg 2 38 ltac:(lia) ltac:(lia)). nia.
    + destruct Hround as [_ Hle]; [lia|lia| |].
      { rewrite Pos2Z.inj_mul. replace (- (e + -38)) with (38 + - e) by lia.
        rewrite pow2_split by lia.
        change (Z.pos 9006924376834048) with (32767 * 2 ^ 38).
        pose proof (Z.pow_pos_nonneg 2 38 ltac:(lia) ltac:(lia)). nia. }
      eexists. split; [reflexivity|].
      assert (0 <= Z.shiftl (Z.pos m') e') by (apply Z.shiftl_nonneg; lia).
      destruct s'; simpl; lia.
Qed.

End quantize.

(** Every value is quantized to a signed 16-bit sample, NaN and the
    infinities included. *)
Lemma quantize_range (v : float) :
  exists n, quantize v = Ok n /\ (-32767 <= n <= 32767)%Z.
Proof.
  unfold quantize.
  destruct (clamp_cases v) as [->|[->|(-> & Hgt & Hlt)]].
  - exists 32767%Z. split; [reflexivity|lia].
  - exists (-32767)%Z. split; [reflexivity|lia].
  - by apply scaled_inside_unit.
Qed.

Section audio_range.
Context `{Libm}.

Lemma sample_range h snapshot rate i s :
  sample h snapshot rate i = Ok s -> int16_sample s.
Proof.
  unfold sample. rewrite res_bind_eq.
  destruct (Py.int_truediv i rate) as [t|]; [|discriminate].
  rewrite res_bind_eq. destruct (Py.for_each _ _ _) as [value|]; [|discriminate].
  rewrite res_bind_eq. destruct (Py.float_of_int _) as [n|]; [|discriminate].
  rewrite res_bind_eq. destruct (Py.truediv value n) as [value'|]; [|discriminate].
  intros Hq. destruct (quantize_range (value' * Py.min 1 (0.4 + Snapshot.energy snapshot)))
    as (s' & Hs' & Hrange).
  rewrite Hq in Hs'. by injection Hs' as ->.
Qed.

Lemma audio_samples_range h snapshots rate dur samples :
  audio_samples h snapshots rate dur = Ok samples -> Forall int16_sample samples.
Proof.
  unfold audio_samples.
  apply (for_each_inv (Forall int16_sample)); [|constructor].
  intros snapshot acc acc' _ Hacc. rewrite res_bind_eq.
  destruct (step_samples rate dur) as [n|]; [|discriminate].
  apply append_loop_Forall; [|done].
  intros i s. apply sample_range.
Qed.

Lemma pack_samples_ok samples :
  Forall int16_sample samples -> exists bytes, pack_samples samples = Ok bytes.
Proof.
  intros Hall. unfold pack_samples.
  destruct (for_each_ok (fun _ => True)
              (fun s bytes => b ← pack_h s; mret (bytes ++ b)) samples) with (s := @nil Z)
    as (bytes & Hb & _); [|done|by exists bytes].
  intros s acc Hs _. rewrite Forall_forall in Hall. specialize (Hall s Hs).
  unfold int16_sample in Hall. unfold pack_h. rewrite decide_True by lia.
  eexists. split; [reflexivity|done].
Qed.

End audio_range.



(** ** Pairwise forces *)

(** Subtracting a binary64 number is adding its opposite, bit for bit. *)
Lemma sub_add_opp (a b : float) : a - b = a + - b.
Proof.
  apply Prim2SF_inj. rewrite sub_spec, add_spec, opp_spec.
  unfold SF64sub, SF64add, SFsub, SFadd.
  destruct (Prim2SF a) as [sa|sa| |sa ma ea], (Prim2SF b) as [sb|sb| |sb mb eb];
    simpl; try reflexivity;
    try (destruct sa, sb; reflexivity); try (destruct sb; reflexivity).
Qed.

Lemma vsub_vadd_vneg (a f : float * float) : vsub a f = vadd a (vneg f).
Proof. unfold vsub, vadd, vneg. simpl. by rewrite !sub_add_opp. Qed.

Section pair_force.
Context `{Libm}.
Import EvolutionSimulation.

Lemma pair_force_eq (contact other : Contact.t) :
  let dx := Contact.x other - Contact.x contact in
  let dy := Contact.y other - Contact.y contact in
  let distance := hypot dx dy + 1e-6 in
  let affinity := (Contact.affinity contact + Contact.affinity other) * 0.5 in
  let influence :=
    if distance <? 0.2 then affinity / (distance * distance) * -1.5
    else affinity / (distance * distance) in
  pair_force contact other =
  if (distance =? 0) || (distance * distance =? 0) then Raise ZeroDivisionError
  else Ok (dx / distance * influence, dy / distance * influence).
Proof.
  intros dx dy distance affinity influence.
  unfold pair_force, Py.truediv, mbind, res_bind, mret, res_ret.
  fold dx dy. fold distance. fold affinity.
  destruct (distance =? 0); [reflexivity|].
  destruct (distance * distance =? 0); reflexivity.
Qed.

Lemma force_between_ok cs i j :
  pairs_ok cs = true -> (i < j < length cs)%nat ->
  pair_force (cs !!! i) (cs !!! j) = Ok (force_between cs i j).
Proof.
  intros Hok Hij. apply pairs_ok_spec with (i := i) (j := j) in Hok; [|done].
  unfold force_between. by destruct (pair_force _ _).
Qed.

End pair_force.

Lemma foldl_pointwise {A B} (f g : A -> B -> A) (l : list B) (a : A) :
  (forall acc b, f acc b = g acc b) -> foldl f a l = foldl g a l.
Proof.
  intros Hfg. revert a. induction l as [|b l IH]; intros a; simpl; [done|].
  by rewrite Hfg, IH.
Qed.

(** C4: the force of a pair is the unit direction from [contact] to
    [other] times affinity / distance^2, where the distance is
    [hypot(dx, dy) + 1e-6] and the affinity the mean of the two, times -1.5
    exactly when the distance is below 0.2 (a zero divisor raises); the two
    assignments add it to [forces[i]] and add its negation to [forces[j]]
    and touch nothing else; and the loop over all pairs, started from a
    list of zero pairs as long as the contacts, leaves in [forces[k]] the
    sum [net_force] of these contributions. *)
Theorem pairwise_forces `{Libm} :
  (forall contact other,
     let dx := Contact.x other - Contact.x contact in
     let dy := Contact.y other - Contact.y contact in
     let distance := hypot dx dy + 1e-6 in
     let affinity := (Contact.affinity contact + Contact.affinity other) * 0.5 in
     let influence :=
       if distance <? 0.2 then affinity / (distance * distance) * -1.5
       else affinity / (distance * distance) in
     EvolutionSimulation.pair_force contact other =
     if (distance =? 0) || (distance * distance =? 0) then Raise ZeroDivisionError
     else Ok (dx / distance * influence, dy / distance * influence)) /\
  (forall i j f forces,
     i <> j -> (i < length forces)%nat -> (j < length forces)%nat ->
     exists forces',
       EvolutionSimulation.accumulate i j f forces = Ok forces' /\
       length forces' = length forces /\
       forces' !!! i = vadd (forces !!! i) f /\
       forces' !!! j = vadd (forces !!! j) (vneg f) /\
       forall k, k <> i -> k <> j -> forces' !!! k = forces !!! k) /\
  (forall h locs,
     let cs := deref h <$> locs in
     EvolutionSimulation.compute_forces h locs =
     if pairs_ok cs then Ok (net_force cs <$> seq 0 (length locs))
     else Raise ZeroDivisionError) /\
  (forall cs i j,
     pairs_ok cs = true -> (i < j < length cs)%nat ->
     EvolutionSimulation.pair_force (cs !!! i) (cs !!! j) = Ok (force_between cs i j)) /\
  (forall cs k,
     net_force cs k =
     foldl (fun acc j => vadd acc (force_between cs k j))
       (foldl (fun acc i => vadd acc (vneg (force_between cs i k))) (0, 0) (seq 0 k))
       (seq (S k) (length cs - S k))).
Proof.
  split; [|split; [|split; [|split]]].
  - apply pair_force_eq.
  - intros i j f forces Hij Hi Hj.
    exists (accumulated i j f forces).
    split; [by apply accumulate_spec|].
    split; [apply accumulated_length|].
    rewrite <- vsub_vadd_vneg.
    split; [|split].
    + rewrite accumulated_lookup by done. by rewrite decide_True.
    + rewrite accumulated_lookup by done.
      rewrite decide_False by done. by rewrite decide_True.
    + intros k Hki Hkj. rewrite accumulated_lookup by done.
      by rewrite !decide_False.
  - intros h locs cs. rewrite compute_forces_closed. fold cs.
    replace (length cs) with (length locs); [done|].
    unfold cs. by rewrite length_fmap.
  - intros cs i j Hok Hij. by apply force_between_ok.
  - intros cs k. unfold net_force. f_equal.
    apply foldl_pointwise. intros acc i. apply vsub_vadd_vneg.
Qed.

Lemma pairwise_forces_witness :
  let cs := [Contact.mk 0 0.5 0.5 0.01 0 0.5; Contact.mk 1 0.6 0.5 0.01 0 0.7;
             Contact.mk 2 0.5 0.9 0 0.01 0.9] in
  (exists forces',
     EvolutionSimulation.accumulate 0 2 (1, 2) [(0, 0); (0, 0); (0, 0)] = Ok forces' /\
     forces' !!! 0%nat = vadd (0, 0) (1, 2) /\
     forces' !!! 2%nat = vadd (0, 0) (vneg (1, 2))) /\
  @EvolutionSimulation.pair_force textbook_libm (cs !!! 0%nat) (cs !!! 2%nat)
    = Ok (@force_between textbook_libm cs 0 2).
Proof.
  intros cs.
  destruct (@pairwise_forces textbook_libm) as (_ & Hacc & _ & Hpair & _).
  split.
  - destruct (Hacc 0%nat 2%nat (1, 2) [(0, 0); (0, 0); (0, 0)])
      as (forces' & Hf & _ & Hi & Hj & _); [done|simpl; lia|simpl; lia|].
    exists forces'. by repeat split.
  - apply Hpair; [vm_compute; reflexivity|simpl; lia].
Defined.

(** ** The visual renderer *)

(** C8 as stated fails: the code truncates where the claim rounds.  For
    x = 0.875 in a frame 3 pixels wide, x * 2 = 1.75: [int] gives column 1,
    rounding gives column 2. *)
Lemma pixel_rounding_counterexample :
  pixel_coord 0.875 3 = Ok 1%Z /\
  rounded_pixel_coord 0.875 3 = Ok 2%Z /\
  round_nearest 1.75 = Ok 2%Z /\ round_nearest 2.5 = Ok 2%Z /\
  round_nearest (-0.5) = Ok 0%Z /\ round_nearest 3.5 = Ok 4%Z /\
  exists pixels,
    render_frame [Contact.mk 0 0.875 0.875 0 0 0.5] 3 3 (Snapshot.mk 0 [0%nat] 0)
      = Ok pixels /\
    get_pixel pixels 0 0 = (167, 230, 230)%Z /\
    (0, 0)%Z ∉ marks 3 3 2 2.
Proof.
  repeat split.
  eexists. split; [vm_compute; reflexivity|]. split; [reflexivity|].
  vm_compute. intros Hin. repeat (apply elem_of_cons in Hin as [Hin|Hin]; [discriminate|]).
  by apply elem_of_nil in Hin.
Qed.

Section frames.
Local Open Scope Z_scope.

Lemma set_pixel_spec (width height : Z) (pixels : grid) (x y : Z) (c : color) :
  grid_of_size width height pixels -> 0 <= x < width -> 0 <= y < height ->
  exists pixels',
    set_pixel pixels y x c = Ok pixels' /\
    grid_of_size width height pixels' /\
    forall px py, 0 <= px -> 0 <= py ->
      get_pixel pixels' px py
      = if decide ((px, py) = (x, y)) then c else get_pixel pixels px py.
Proof.
  intros [Hh Hw] Hx Hy.
  assert (HY : (Z.to_nat y < length pixels)%nat) by lia.
  assert (Hrow : Z.of_nat (length (pixels !!! Z.to_nat y)) = width).
  { rewrite Forall_lookup_total in Hw. by apply Hw. }
  exists (<[Z.to_nat y := <[Z.to_nat x := c]> (pixels !!! Z.to_nat y)]> pixels).
  split; [|split].
  - unfold set_pixel. destruct (decide (y < 0)) as [?|_]; [lia|]. cbv zeta.
    rewrite decide_True by lia. unfold Py.setitem_int. cbv zeta.
    rewrite decide_True by lia. reflexivity.
  - split; [by rewrite length_insert|].
    apply Forall_insert; [done|]. by rewrite length_insert.
  - intros px py Hpx Hpy. unfold get_pixel.
    rewrite list_lookup_total_insert.
    destruct (decide (Z.to_nat y = Z.to_nat py /\ (Z.to_nat y < length pixels)%nat))
      as [[Hyy _]|Hne].
    + assert (py = y) as -> by lia.
      rewrite list_lookup_total_insert.
      destruct (decide (Z.to_nat x = Z.to_nat px
                        /\ (Z.to_nat x < length (pixels !!! Z.to_nat y))%nat))
        as [[Hxx _]|Hne].
      * assert (px = x) as -> by lia. by rewrite decide_True.
      * rewrite decide_False; [done|]. intros [= ->]. apply Hne. lia.
    + rewrite decide_False; [done|]. intros [= _ ->]. apply Hne. lia.
Qed.

Lemma pixel_coord_range (v : float) (width x : Z) :
  1 <= width -> pixel_coord v width = Ok x -> 0 <= x < width.
Proof.
  intros Hw. unfold pixel_coord. rewrite res_bind_eq.
  destruct (Py.float_of_int (width - 1)) as [w|]; [|discriminate].
  rewrite res_bind_eq. destruct (Py.int_of_float _) as [i|]; [|discriminate].
  intros [= <-]. lia.
Qed.

Lemma neighbour_range (x offset width : Z) :
  1 <= width -> 0 <= neighbour x offset width < width.
Proof. unfold neighbour. lia. Qed.

Lemma draw_contact_mark_of (width height : Z) (contact : Contact.t) (pixels : grid) :
  draw_contact width height contact pixels =
  match mark_of width height contact with
  | Ok (x, y, c) =>
      match set_pixel pixels y x c with
      | Ok pixels1 =>
          match set_pixel pixels1 (neighbour y (-1) height) (neighbour x (-1) width) c with
          | Ok pixels2 =>
              set_pixel pixels2 (neighbour y 1 height) (neighbour x 1 width) c
          | Raise e => Raise e
          end
      | Raise e => Raise e
      end
  | Raise e => Raise e
  end.
Proof.
  unfold draw_contact, mark_of. rewrite !res_bind_eq.
  destruct (pixel_coord (Contact.x contact) width) as [x|]; [|reflexivity].
  rewrite !res_bind_eq.
  destruct (pixel_coord (Contact.y contact) height) as [y|]; [|reflexivity].
  rewrite !res_bind_eq.
  destruct (_color_for_contact contact) as [c|]; [|reflexivity].
  rewrite !res_bind_eq. cbn [mret res_ret].
  destruct (set_pixel pixels y x c) as [pixels1|]; [|reflexivity].
  cbn [Py.for_each].
  destruct (set_pixel pixels1 _ _ c) as [pixels2|]; [|reflexivity].
  by destruct (set_pixel pixels2 _ _ c).
Qed.

(** One contact: its three pixels take its colour, the others keep theirs. *)
Lemma draw_contact_spec (width height : Z) (contact : Contact.t) (pixels : grid)
    (x y : Z) (c : color) :
  1 <= width -> 1 <= height -> grid_of_size width height pixels ->
  mark_of width height contact = Ok (x, y, c) ->
  exists pixels',
    draw_contact width height contact pixels = Ok pixels' /\
    grid_of_size width height pixels' /\
    forall px py, 0 <= px -> 0 <= py ->
      get_pixel pixels' px py
      = if decide ((px, py) ∈ marks width height x y) then c else get_pixel pixels px py.
Proof.
  intros Hw Hh Hgrid Hmark.
  assert (Hxy : 0 <= x < width /\ 0 <= y < height).
  { unfold mark_of in Hmark. rewrite res_bind_eq in Hmark.
    destruct (pixel_coord (Contact.x contact) width) as [x'|] eqn:Ex; [|discriminate].
    rewrite res_bind_eq in Hmark.
    destruct (pixel_coord (Contact.y contact) height) as [y'|] eqn:Ey; [|discriminate].
    rewrite res_bind_eq in Hmark.
    destruct (_color_for_contact contact) as [c'|]; [|discriminate].
    injection Hmark as <- <- <-.
    split; by eapply pixel_coord_range. }
  destruct Hxy as [Hx Hy].
  rewrite draw_contact_mark_of, Hmark.
  destruct (set_pixel_spec width height pixels x y c Hgrid Hx Hy)
    as (pixels1 & -> & Hgrid1 & Hget1).
  destruct (set_pixel_spec width height pixels1
              (neighbour x (-1) width) (neighbour y (-1) height) c Hgrid1
              (neighbour_range _ _ _ Hw) (neighbour_range _ _ _ Hh))
    as (pixels2 & -> & Hgrid2 & Hget2).
  destruct (set_pixel_spec width height pixels2
              (neighbour x 1 width) (neighbour y 1 height) c Hgrid2
              (neighbour_range _ _ _ Hw) (neighbour_range _ _ _ Hh))
    as (pixels3 & -> & Hgrid3 & Hget3).
  exists pixels3. split; [done|]. split; [done|].
  intros px py Hpx Hpy. rewrite Hget3, Hget2, Hget1 by done.
  unfold marks.
  destruct (decide ((px, py) = (neighbour x 1 width, neighbour y 1 height))) as [E3|N3].
  { rewrite decide_True; [done|]. rewrite E3. do 2 right. left. }
  destruct (decide ((px, py) = (neighbour x (-1) width, neighbour y (-1) height)))
    as [E2|N2].
  { rewrite decide_True; [done|]. rewrite E2. right. left. }
  destruct (decide ((px, py) = (x, y))) as [E1|N1].
  { rewrite decide_True; [done|]. rewrite E1. left. }
  rewrite decide_False; [done|].
  intros Hin. repeat (apply elem_of_cons in Hin as [Hin|Hin]; [done|]).
  by apply elem_of_nil in Hin.
Qed.

Lemma range_lookup (n : Z) (i : nat) :
  (i < Z.to_nat n)%nat -> Py.range n !! i = Some (Z.of_nat i).
Proof.
  intros Hi. unfold Py.range. by rewrite list_lookup_fmap, lookup_seq_lt.
Qed.

Lemma blank_size (width height : Z) :
  0 <= width -> 0 <= height -> grid_of_size width height (blank width height).
Proof.
  intros Hw Hh. unfold grid_of_size, blank. split.
  - rewrite length_fmap, range_length. lia.
  - apply Forall_fmap, Forall_forall. intros z _. simpl.
    rewrite length_fmap, range_length. lia.
Qed.

Lemma blank_pixel (width height px py : Z) :
  0 <= px < width -> 0 <= py < height ->
  get_pixel (blank width height) px py = background.
Proof.
  intros Hpx Hpy. unfold get_pixel, blank.
  erewrite (list_lookup_total_correct _ (Z.to_nat py)).
  2:{ rewrite list_lookup_fmap, range_lookup by lia. reflexivity. }
  apply list_lookup_total_correct.
  by rewrite list_lookup_fmap, range_lookup by lia.
Qed.

(** The loop over the contacts of a snapshot, from any grid. *)
Lemma render_loop (h : heap) (width height : Z) (contacts : list loc)
    (items : list (Z * Z * color)) (g0 : grid) :
  1 <= width -> 1 <= height -> grid_of_size width height g0 ->
  Forall2 (fun l item => mark_of width height (deref h l) = Ok item) contacts items ->
  exists g,
    Py.for_each contacts (fun l pixels => draw_contact width height (deref h l) pixels) g0
      = Ok g /\
    grid_of_size width height g /\
    forall px py, 0 <= px -> 0 <= py ->
      get_pixel g px py = painted width height items (get_pixel g0 px py) px py.
Proof.
  intros Hw Hh Hgrid Hall. revert g0 Hgrid.
  induction Hall as [|l [[x y] c] contacts items Hmark Hall IH]; intros g0 Hgrid.
  - exists g0. split; [reflexivity|]. split; [exact Hgrid|]. done.
  - destruct (draw_contact_spec width height (deref h l) g0 x y c Hw Hh Hgrid Hmark)
      as (g1 & Hdraw & Hgrid1 & Hget1).
    destruct (IH g1 Hgrid1) as (g & Hloop & Hgridg & Hget).
    exists g. cbn [Py.for_each]. rewrite Hdraw. split; [exact Hloop|].
    split; [exact Hgridg|].
    intros px py Hpx Hpy. rewrite Hget, Hget1 by done. reflexivity.
Qed.

(** A frame that is rendered has a mark for each of its contacts. *)
Lemma render_loop_marks (h : heap) (width height : Z) (contacts : list loc) (g0 g : grid) :
  Py.for_each contacts (fun l pixels => draw_contact width height (deref h l) pixels) g0
    = Ok g ->
  exists items,
    Forall2 (fun l item => mark_of width height (deref h l) = Ok item) contacts items.
Proof.
  revert g0. induction contacts as [|l contacts IH]; intros g0; cbn [Py.for_each].
  - intros _. exists []. constructor.
  - destruct (draw_contact width height (deref h l) g0) as [g1|] eqn:Hdraw; [|discriminate].
    intros (items & Hitems)%IH.
    rewrite draw_contact_mark_of in Hdraw.
    destruct (mark_of width height (deref h l)) as [item|] eqn:Hmark; [|discriminate].
    exists (item :: items). by constructor.
Qed.

End frames.

(** C8, as the code has it: the target pixel of a contact is
    [clamp(int(x * (width - 1)), 0, width - 1)], with [int] truncating
    toward zero where the claim rounds, and likewise for y.  A frame renders
    exactly when the target pixel and the colour of each contact can be
    computed; every pixel of the frame then has the colour of the last
    contact, in the order of the snapshot, whose target pixel or one of its
    two neighbours at offsets (-1, -1) and (+1, +1), clamped to the frame,
    is that pixel, and the background colour when there is none. *)
Theorem frame_marks (h : heap) (width height : Z) (snapshot : Snapshot.t) :
  (1 <= width)%Z -> (1 <= height)%Z ->
  (forall v,
     pixel_coord v width =
     w ← Py.float_of_int (width - 1);
     i ← Py.int_of_float (v * w);
     mret (Z.min (width - 1) (Z.max 0 i))) /\
  (forall items,
     Forall2 (fun l item => mark_of width height (deref h l) = Ok item)
       (Snapshot.contacts snapshot) items ->
     exists pixels, render_frame h width height snapshot = Ok pixels) /\
  (forall pixels,
     render_frame h width height snapshot = Ok pixels ->
     exists items,
       Forall2 (fun l item => mark_of width height (deref h l) = Ok item)
         (Snapshot.contacts snapshot) items /\
       grid_of_size width height pixels /\
       forall px py, (0 <= px < width)%Z -> (0 <= py < height)%Z ->
         get_pixel pixels px py = painted width height items background px py).
Proof.
  intros Hw Hh. split; [reflexivity|].
  assert (Hblank : grid_of_size width height (blank width height)).
  { apply blank_size; lia. }
  split.
  - intros items Hitems.
    destruct (render_loop h width height _ items _ Hw Hh Hblank Hitems) as (g & Hg & _).
    by exists g.
  - intros pixels Hrender. unfold render_frame in Hrender.
    destruct (render_loop_marks _ _ _ _ _ _ Hrender) as [items Hitems].
    exists items. split; [exact Hitems|].
    destruct (render_loop h width height _ items _ Hw Hh Hblank Hitems)
      as (g & Hg & Hgrid & Hget).
    rewrite Hrender in Hg. injection Hg as <-.
    split; [exact Hgrid|].
    intros px py Hpx Hpy. rewrite Hget by lia. by rewrite blank_pixel.
Qed.

Lemma frame_marks_witness :
  let h := [Contact.mk 0 0.875 0.875 0 0 0.5; Contact.mk 1 0.5 0.2 0 0 0.9] in
  let snapshot := Snapshot.mk 0 [0; 1]%nat 0 in
  exists pixels items,
    render_frame h 3 3 snapshot = Ok pixels /\
    items = [(1, 1, (167, 230, 230)); (1, 0, (237, 157, 99))]%Z /\
    forall px py, (0 <= px < 3)%Z -> (0 <= py < 3)%Z ->
      get_pixel pixels px py = painted 3 3 items background px py.
Proof.
  intros h snapshot.
  destruct (frame_marks h 3 3 snapshot ltac:(lia) ltac:(lia)) as (_ & _ & Hpaint).
  eexists _, _. split; [vm_compute; reflexivity|]. split; [reflexivity|].
  intros px py Hpx Hpy.
  edestruct Hpaint as (items & Hitems & _ & Hget); [vm_compute; reflexivity|].
  rewrite Hget by done.
  apply Forall2_cons_inv_l in Hitems as (i1 & items1 & Hi1 & Hitems & ->).
  apply Forall2_cons_inv_l in Hitems as (i2 & items2 & Hi2 & Hitems & ->).
  apply Forall2_nil_inv_l in Hitems as ->.
  vm_compute in Hi1, Hi2. by injection Hi1 as <-; injection Hi2 as <-.
Defined.

(** ** A run depends on its arguments only *)

Lemma deref_seq (pre cs : heap) : deref (pre ++ cs) <$> seq (length pre) (length cs) = cs.
Proof.
  apply list_eq. intros i. rewrite list_lookup_fmap.
  destruct (decide (i < length cs)%nat) as [Hi|Hi].
  - rewrite lookup_seq_lt by done. simpl. unfold deref.
    rewrite lookup_total_app_r by lia.
    replace (length pre + i - length pre)%nat with i by lia.
    symmetry. by apply list_lookup_lookup_total_lt.
  - rewrite lookup_seq_ge by lia. simpl. symmetry. apply lookup_ge_None_2. lia.
Qed.

Section refinement.
Context `{Libm}.
Import EvolutionSimulation.

Lemma total_speed_speeds h locs : total_speed h locs = speeds (deref h <$> locs).
Proof. unfold total_speed, speeds. by rewrite <- list_fmap_compose. Qed.

(** The heap after the second loop of [step] when the contacts of the
    engine are the objects above [pre]. *)
Lemma integrate_heap_values self dt forces (pre cs : heap) :
  length forces = length cs ->
  integrate_heap self dt forces (Py.enumerate (seq (length pre) (length cs))) (pre ++ cs)
  = pre ++ zip_with (integrate self dt) forces cs.
Proof.
  intros Hlen. set (locs := seq (length pre) (length cs)).
  apply list_eq. intros l.
  destruct (decide (l < length pre)%nat) as [Hl|Hl].
  - rewrite integrate_heap_frame.
    + by rewrite !lookup_app_l.
    + rewrite enumerate_snd. unfold locs. rewrite elem_of_seq. lia.
  - destruct (decide (l < length pre + length cs)%nat) as [Hl'|Hl'].
    + set (i := (l - length pre)%nat).
      assert (Hil : locs !! i = Some l).
      { unfold locs. rewrite lookup_seq_lt by lia. f_equal. lia. }
      rewrite (integrate_heap_nodup self dt forces _ _ i l).
      * rewrite lookup_app_r by lia. fold i.
        rewrite lookup_zip_with.
        rewrite (list_lookup_lookup_total_lt forces i) by lia.
        rewrite (list_lookup_lookup_total_lt cs i) by lia. simpl.
        do 2 f_equal. unfold deref. rewrite lookup_total_app_r by lia. done.
      * rewrite enumerate_snd. apply NoDup_seq.
      * by apply enumerate_elem.
      * rewrite length_app. lia.
    + rewrite !lookup_ge_None_2; [done| |].
      * rewrite length_app, length_zip_with. lia.
      * rewrite integrate_heap_length, length_app. lia.
Qed.

Lemma step_values_refines self dt (pre cs : heap) :
  _contacts self = seq (length pre) (length cs) ->
  step self dt (pre ++ cs) =
  match step_values self dt cs with
  | Ok (cs', energy) =>
      (Ok (Snapshot.mk (_time self + dt) (_contacts self) energy, advance self dt),
       pre ++ cs')
  | Raise e => (Raise e, pre ++ cs)
  end.
Proof.
  intros Hlocs. rewrite step_eq, compute_forces_closed, Hlocs, deref_seq.
  unfold step_values, forces_of. destruct (pairs_ok cs); [|reflexivity].
  rewrite res_bind_eq. cbn [mret res_ret]. cbv zeta.
  rewrite integrate_heap_values by (by rewrite length_fmap, length_seq).
  rewrite total_speed_speeds.
  set (cs' := zip_with _ _ cs).
  assert (Hlen : length cs' = length cs).
  { unfold cs'. rewrite length_zip_with, length_fmap, length_seq. lia. }
  rewrite <- Hlen, deref_seq. reflexivity.
Qed.

Lemma step_values_length self dt cs cs' energy :
  step_values self dt cs = Ok (cs', energy) -> length cs' = length cs.
Proof.
  unfold step_values, forces_of. destruct (pairs_ok cs); [|discriminate].
  rewrite res_bind_eq. intros [= <- _].
  rewrite length_zip_with, length_fmap, length_seq. lia.
Qed.

(** The snapshots collected so far, against their times and energies. *)
Lemma views_of_snapshots (pre cs : heap) (snapshots : list Snapshot.t)
    (acc : list (float * float)) :
  Forall2 (fun s te => Snapshot.time s = te.1 /\ Snapshot.energy s = te.2 /\
                       Snapshot.contacts s = seq (length pre) (length cs))
          snapshots acc ->
  Snapshot.view (pre ++ cs) <$> snapshots
  = (fun te : float * float => (te.1, cs, te.2)) <$> acc.
Proof.
  induction 1 as [|s te snapshots acc (Ht & He & Hc) _ IH]; [done|].
  rewrite !fmap_cons, IH. f_equal.
  unfold Snapshot.view. by rewrite Ht, He, Hc, deref_seq.
Qed.

Lemma run_loop_refines r dt self (pre cs : heap) snapshots acc :
  _contacts self = seq (length pre) (length cs) ->
  Forall2 (fun s te => Snapshot.time s = te.1 /\ Snapshot.energy s = te.2 /\
                       Snapshot.contacts s = seq (length pre) (length cs))
          snapshots acc ->
  observe (run_loop r dt self snapshots (pre ++ cs)) =
  match run_values r dt self cs acc with
  | Ok (acc', cs') => Ok ((fun te : float * float => (te.1, cs', te.2)) <$> acc')
  | Raise e => Raise e
  end.
Proof.
  revert self cs snapshots acc.
  induction r as [|z r IH]; intros self cs snapshots acc Hlocs Hsnaps.
  - cbn [run_loop run_values]. unfold observe. cbn.
    f_equal. by apply views_of_snapshots.
  - cbn [run_loop run_values]. rewrite M_bind_eq, step_values_refines by done.
    rewrite res_bind_eq.
    destruct (step_values self dt cs) as [[cs' energy]|e] eqn:Estep; [|reflexivity].
    pose proof (step_values_length _ _ _ _ _ Estep) as Hlen.
    apply IH.
    + simpl. by rewrite Hlen.
    + rewrite Hlen. apply Forall2_app.
      * exact Hsnaps.
      * repeat constructor. simpl. exact Hlocs.
Qed.

(** The run on values reads the bounds, the damping and the time of the
    engine, not its references. *)
Lemma integrate_params self self' dt f c :
  _width self = _width self' -> _height self = _height self' ->
  _damping self = _damping self' ->
  integrate self dt f c = integrate self' dt f c.
Proof. unfold integrate. by intros -> -> ->. Qed.

Lemma run_values_params r dt self self' cs acc :
  _width self = _width self' -> _height self = _height self' ->
  _damping self = _damping self' -> _time self = _time self' ->
  run_values r dt self cs acc = run_values r dt self' cs acc.
Proof.
  revert self self' cs acc.
  induction r as [|z r IH]; intros self self' cs acc Hw Hh Hd Ht; [done|].
  cbn [run_values]. unfold step_values.
  destruct (forces_of cs) as [forces|e]; [|reflexivity].
  rewrite !res_bind_eq. cbn [mret res_ret]. cbv zeta.
  assert (Hz : zip_with (integrate self dt) forces cs
               = zip_with (integrate self' dt) forces cs).
  { apply zip_with_ext; [|done|done]. intros f c. by apply integrate_params. }
  rewrite Hz, Ht. apply IH; simpl; by rewrite ?Ht.
Qed.

End refinement.

Section create.
Context `{Random}.

Lemma create_body_values identifier rng contacts h :
  create_body identifier (rng, contacts) h =
  (Ok ((draw_values identifier rng).2, contacts ++ [length h]),
   h ++ [(draw_values identifier rng).1]).
Proof.
  unfold create_body, draw_values.
  destruct (rng_random rng) as [x rng1].
  destruct (rng_random rng1) as [y rng2].
  destruct (rng_uniform (-0.05) 0.05 rng2) as [vx rng3].
  destruct (rng_uniform (-0.05) 0.05 rng3) as [vy rng4].
  destruct (rng_uniform 0.4 1.0 rng4) as [a rng5].
  reflexivity.
Qed.

Lemma create_loop_values ids rng contacts h :
  exists rng',
    create_loop ids (rng, contacts) h =
    (Ok (rng', contacts ++ seq (length h) (length (create_values_loop ids rng))),
     h ++ create_values_loop ids rng).
Proof.
  revert rng contacts h. induction ids as [|identifier ids IH]; intros rng contacts h.
  - exists rng. simpl. by rewrite !app_nil_r.
  - cbn [create_loop create_values_loop]. rewrite M_bind_eq, create_body_values.
    destruct (draw_values identifier rng) as [c rng1]. simpl.
    destruct (IH rng1 (contacts ++ [length h]) (h ++ [c])) as (rng' & ->).
    exists rng'. rewrite length_app, <- !app_assoc. simpl.
    replace (length h + 1)%nat with (S (length h)) by lia. reflexivity.
Qed.

Lemma create_contacts_values count seed h :
  create_contacts count seed h =
  (Ok (seq (length h) (length (create_values count seed))), h ++ create_values count seed).
Proof.
  unfold create_contacts. rewrite M_bind_eq.
  destruct (create_loop_values (Py.range count) (rng_seed seed) [] h) as (rng' & ->).
  reflexivity.
Qed.

End create.

(** [run_simulation] shows what the run on the values of its input
    contacts computes, whatever else the heap holds. *)
Lemma run_simulation_refines `{Libm} (steps : Z) (dt : float) (contacts : list loc)
    (bounds : float * float) (damping : float) (h : heap) :
  live h contacts ->
  observe (run_simulation steps dt contacts bounds damping h)
  = run_simulation_values steps dt (deref h <$> contacts) bounds damping.
Proof.
  intros Hlive. unfold run_simulation. rewrite M_bind_eq.
  destruct (init_spec contacts bounds damping h) as (h1 & -> & _ & _ & Hval).
  rewrite (Hval Hlive). set (cs := deref h <$> contacts).
  replace (length contacts) with (length cs) by (unfold cs; by rewrite length_fmap).
  rewrite (run_loop_refines _ _ _ h cs [] []); [|done|constructor].
  unfold run_simulation_values.
  erewrite run_values_params; [reflexivity|done..].
Qed.

(** The pipeline of [main] shows what the run on values computes, whatever
    the heap it starts from. *)
Lemma simulate_refines `{Libm} `{Random} (count seed steps : Z) (dt : float) (h : heap) :
  observe (simulate count seed steps dt h) = simulate_values count seed steps dt.
Proof.
  unfold simulate. rewrite M_bind_eq, create_contacts_values.
  set (cs := create_values count seed).
  rewrite run_simulation_refines.
  - unfold simulate_values. fold cs. by rewrite deref_seq.
  - apply Forall_forall. intros l Hl%elem_of_seq. rewrite length_app. lia.
Qed.

(** C6: two runs of [create_contacts] and [run_simulation] with the same
    seed, steps, dt and contact count show the same snapshot sequence, bit
    for bit: the same times, contact fields and energies in the same order,
    or the same exception.  The second run starts from another heap than
    the first (the objects of the first run exist), which changes nothing;
    and running [run_simulation] a second time on the same contact list
    shows the same sequence too, since the first run left the list as it
    was. *)
Theorem simulation_deterministic `{Libm} `{Random} (count seed steps : Z) (dt : float)
    (h1 h2 : heap) :
  observe (simulate count seed steps dt h1) = observe (simulate count seed steps dt h2) /\
  observe (simulate count seed steps dt (simulate count seed steps dt h1).2)
  = observe (simulate count seed steps dt h1) /\
  (forall contacts bounds damping,
     live h1 contacts ->
     observe (run_simulation steps dt contacts bounds damping
                (run_simulation steps dt contacts bounds damping h1).2)
     = observe (run_simulation steps dt contacts bounds damping h1)).
Proof.
  split; [by rewrite !simulate_refines|].
  split; [by rewrite !simulate_refines|].
  intros contacts bounds damping Hlive.
  destruct (constructor_frame steps dt contacts bounds damping h1) as [k Hk].
  assert (Hlive' : live (run_simulation steps dt contacts bounds damping h1).2 contacts).
  { rewrite Hk. eapply Forall_impl; [exact Hlive|].
    intros l Hl. simpl in *. rewrite length_app. lia. }
  rewrite !run_simulation_refines by done. f_equal.
  rewrite Hk. apply Forall_fmap_ext_1.
  eapply Forall_impl; [exact Hlive|]. intros l Hl. by apply deref_app_l.
Qed.

Lemma simulation_deterministic_witness :
  let h := [Contact.mk 0 0.5 0.5 0.01 0 0.5; Contact.mk 1 0.6 0.5 0.01 0 0.7] in
  observe (@run_simulation textbook_libm 3 0.05 [0; 1]%nat (1, 1) 0.98
             (@run_simulation textbook_libm 3 0.05 [0; 1]%nat (1, 1) 0.98 h).2)
  = observe (@run_simulation textbook_libm 3 0.05 [0; 1]%nat (1, 1) 0.98 h).
Proof.
  intros h.
  apply (proj2 (proj2 (@simulation_deterministic textbook_libm lcg_random 3 42 3 0.05 h h))).
  repeat constructor.
Defined.

(** * Further properties of the code *)

(** ** Reflection keeps the speed and turns the velocity inward *)

Lemma abs_abs (v : float) : abs (abs v) = abs v.
Proof.
  apply Prim2SF_inj. rewrite !abs_spec. by destruct (Prim2SF v).
Qed.

Lemma abs_opp (v : float) : abs (- v) = abs v.
Proof.
  apply Prim2SF_inj. rewrite !abs_spec, opp_spec. by destruct (Prim2SF v).
Qed.

Lemma abs_not_neg (v : float) : (abs v <? 0) = false.
Proof.
  rewrite FloatAxioms.ltb_spec, abs_spec.
  change (Prim2SF 0) with (S754_zero false).
  by destruct (Prim2SF v).
Qed.

Lemma opp_abs_not_pos (v : float) : (0 <? - abs v) = false.
Proof.
  rewrite FloatAxioms.ltb_spec, opp_spec, abs_spec.
  change (Prim2SF 0) with (S754_zero false).
  by destruct (Prim2SF v).
Qed.

(** X1: [_apply_bounds] never changes the speed, only the sign of the
    velocity: the velocity returned has the absolute value of the one
    given.  After a clamp to 0 it is not negative and after a clamp to the
    maximum it is not positive, so the contact does not leave again at once;
    and when the maximum is not negative, applying the bounds a second time
    changes nothing. *)
Theorem apply_bounds_speed (position velocity max_value : float) :
  let r := EvolutionSimulation._apply_bounds position velocity max_value in
  abs r.2 = abs velocity /\
  ((position <? 0) = true -> r.1 = 0 /\ (r.2 <? 0) = false) /\
  ((position <? 0) = false -> (max_value <? position) = true ->
     r.1 = max_value /\ (0 <? r.2) = false) /\
  ((max_value <? 0) = false ->
     EvolutionSimulation._apply_bounds r.1 r.2 max_value = r).
Proof.
  unfold EvolutionSimulation._apply_bounds.
  destruct (position <? 0) eqn:Hlo; simpl.
  - split; [apply abs_abs|]. split; [intros _; split; [done|apply abs_not_neg]|].
    split; [done|]. intros Hm. change (0 <? 0) with false. by rewrite Hm.
  - destruct (max_value <? position) eqn:Hhi; simpl.
    + split; [by rewrite abs_opp, abs_abs|]. split; [done|].
      split; [intros _ _; split; [done|apply opp_abs_not_pos]|].
      intros Hm. by rewrite Hm, ltb_irrefl.
    + split; [done|]. split; [done|]. split; [done|].
      intros _. by rewrite Hlo, Hhi.
Qed.

Lemma apply_bounds_speed_witness :
  let r := EvolutionSimulation._apply_bounds (-0.01) (-0.3) 1 in
  (r.1 = 0 /\ (r.2 <? 0) = false) /\
  EvolutionSimulation._apply_bounds r.1 r.2 1 = r /\
  let r' := EvolutionSimulation._apply_bounds 1.5 0.3 1 in
  r'.1 = 1 /\ (0 <? r'.2) = false.
Proof.
  split; [|split].
  - apply (proj1 (proj2 (apply_bounds_speed (-0.01) (-0.3) 1))). reflexivity.
  - apply (proj2 (proj2 (proj2 (apply_bounds_speed (-0.01) (-0.3) 1)))). reflexivity.
  - apply (proj1 (proj2 (proj2 (apply_bounds_speed 1.5 0.3 1)))); reflexivity.
Defined.

(** ** The snapshots of a run *)

Section run_facts.
Context `{Libm}.
Import EvolutionSimulation.

Lemma run_loop_snapshots r dt self snaps0 h snaps h' :
  run_loop r dt self snaps0 h = (Ok snaps, h') ->
  exists new,
    snaps = snaps0 ++ new /\ length new = length r /\
    forall k s, new !! k = Some s ->
      Snapshot.time s = time_after dt (_time self) (S k) /\
      Snapshot.contacts s = _contacts self.
Proof.
  revert self snaps0 h. induction r as [|z r IH]; intros self snaps0 h.
  - cbn [run_loop]. intros [= <- <-]. exists []. rewrite app_nil_r.
    split; [done|]. split; [done|]. intros k s Hk. by rewrite lookup_nil in Hk.
  - cbn [run_loop]. rewrite M_bind_eq.
    destruct (step self dt h) as [[[snap self']|e] h1] eqn:Estep; [|discriminate].
    intros (new & -> & Hlen & Hnew)%IH.
    apply step_ok_inv in Estep as (forces & _ & _ & -> & ->).
    exists (Snapshot.mk (_time self + dt) (_contacts self)
              (total_speed h1 (_contacts self)) :: new).
    split; [by rewrite <- app_assoc|]. split; [simpl; by rewrite Hlen|].
    intros [|k] s Hk; simpl in Hk.
    + injection Hk as <-. by split.
    + destruct (Hnew k s Hk) as [Ht Hc]. split; [|exact Hc].
      rewrite Ht. unfold time_after. simpl. f_equal.
      exact (eq_sym (Nat.iter_succ_r k (fun t => t + dt) (_time self))).
Qed.

Lemma deref_insert (h : heap) (l0 l : loc) (c : Contact.t) :
  deref (<[l0 := c]> h) l
  = if decide (l0 = l /\ (l0 < length h)%nat) then c else deref h l.
Proof. unfold deref. apply list_lookup_total_insert. Qed.

(** No step changes the identifier or the affinity of any object. *)
Lemma integrate_heap_labels self dt forces ics h l :
  Contact.identifier (deref (integrate_heap self dt forces ics h) l)
    = Contact.identifier (deref h l) /\
  Contact.affinity (deref (integrate_heap self dt forces ics h) l)
    = Contact.affinity (deref h l).
Proof.
  revert h. induction ics as [|ic ics IH]; intros h; [done|].
  rewrite integrate_heap_cons.
  destruct (IH (<[ic.2 := integrate self dt (forces !!! ic.1) (deref h ic.2)]> h))
    as [-> ->].
  rewrite !deref_insert.
  destruct (decide (ic.2 = l /\ (ic.2 < length h)%nat)) as [[<- _]|_]; [|done].
  destruct (integrate_axes self dt (forces !!! ic.1) (deref h ic.2)) as (_ & _ & Hi & Ha).
  by split.
Qed.

Lemma step_labels self dt h l :
  Contact.identifier (deref (step self dt h).2 l) = Contact.identifier (deref h l) /\
  Contact.affinity (deref (step self dt h).2 l) = Contact.affinity (deref h l).
Proof.
  rewrite step_eq. destruct (compute_forces h (_contacts self)) as [forces|e]; [|done].
  simpl. apply integrate_heap_labels.
Qed.

Lemma run_loop_labels r dt self snaps0 h l :
  Contact.identifier (deref (run_loop r dt self snaps0 h).2 l)
    = Contact.identifier (deref h l) /\
  Contact.affinity (deref (run_loop r dt self snaps0 h).2 l)
    = Contact.affinity (deref h l).
Proof.
  revert self snaps0 h. induction r as [|z r IH]; intros self snaps0 h; [done|].
  cbn [run_loop]. rewrite M_bind_eq.
  pose proof (step_labels self dt h l) as Hstep.
  destruct (step self dt h) as [[[snap self']|e] h1]; [|exact Hstep].
  simpl in Hstep. destruct (IH self' (snaps0 ++ [snap]) h1) as [-> ->].
  exact Hstep.
Qed.

End run_facts.

Lemma run_loop_snapshots_run `{Libm} (steps : Z) (dt : float) (contacts : list loc)
    (bounds : float * float) (damping : float) (h h' : heap)
    (snapshots : list Snapshot.t) :
  run_simulation steps dt contacts bounds damping h = (Ok snapshots, h') ->
  length snapshots = Z.to_nat steps /\
  forall k s, snapshots !! k = Some s ->
    Snapshot.contacts s = seq (length h) (length contacts).
Proof.
  unfold run_simulation. rewrite M_bind_eq.
  destruct (init_spec contacts bounds damping h) as (h1 & -> & _).
  intros (new & -> & Hlen & Hnew)%run_loop_snapshots.
  rewrite range_length in Hlen. simpl. split; [exact Hlen|].
  intros k s Hk. by destruct (Hnew k s Hk).
Qed.

(** X2: a run that returns has one snapshot per step, [steps] of them (none
    for a negative [steps]); the time of the k-th snapshot (from 0) is [dt]
    added k + 1 times to 0.0, each sum rounded (not (k + 1) * dt); and every
    snapshot holds the same tuple of references, those of the engine's own
    contacts. *)
Theorem run_simulation_snapshots `{Libm} (steps : Z) (dt : float) (contacts : list loc)
    (bounds : float * float) (damping : float) (h h' : heap)
    (snapshots : list Snapshot.t) :
  run_simulation steps dt contacts bounds damping h = (Ok snapshots, h') ->
  length snapshots = Z.to_nat steps /\
  forall k s, snapshots !! k = Some s ->
    Snapshot.time s = time_after dt 0 (S k) /\
    Snapshot.contacts s = seq (length h) (length contacts).
Proof.
  unfold run_simulation. rewrite M_bind_eq.
  destruct (init_spec contacts bounds damping h) as (h1 & -> & _).
  intros (new & -> & Hlen & Hnew)%run_loop_snapshots.
  rewrite range_length in Hlen. simpl. split; [exact Hlen|].
  intros k s Hk. by apply Hnew.
Qed.

Lemma run_simulation_snapshots_witness :
  let h := [Contact.mk 0 0.5 0.5 0.01 0 0.5] in
  exists snapshots h',
    @run_simulation textbook_libm 3 0.1 [0%nat] (1, 1) 0.98 h = (Ok snapshots, h') /\
    length snapshots = 3%nat /\
    Snapshot.time <$> snapshots = [0.1; 0.2; 0.30000000000000004] /\
    Snapshot.contacts <$> snapshots = [[1%nat]; [1%nat]; [1%nat]].
Proof.
  intros h. eexists _, _. split; [vm_compute; reflexivity|].
  split; [|split; reflexivity].
  refine (proj1 (@run_simulation_snapshots textbook_libm 3 0.1 [0%nat] (1, 1) 0.98
                   h _ _ _)).
  vm_compute. reflexivity.
Defined.

(** ** Frames of a run *)

Lemma frames_loop (h : heap) (width height : Z) (snapshots : list Snapshot.t)
    (acc frames : list grid) :
  Py.for_each snapshots
    (fun snapshot frames =>
       pixels ← render_frame h width height snapshot;
       mret (frames ++ [pixels]))
    acc = Ok frames ->
  exists new,
    frames = acc ++ new /\
    Forall2 (fun s f => render_frame h width height s = Ok f) snapshots new.
Proof.
  revert acc. induction snapshots as [|s snapshots IH]; intros acc; cbn [Py.for_each].
  - intros [= <-]. exists []. by rewrite app_nil_r.
  - rewrite res_bind_eq.
    destruct (render_frame h width height s) as [f|] eqn:Ef; [|discriminate].
    intros (new & -> & Hnew)%IH. exists (f :: new).
    split; [by rewrite <- app_assoc|]. by constructor.
Qed.

Lemma generate_visual_frames_each (h : heap) (snapshots : list Snapshot.t)
    (width height : Z) (frames : list grid) :
  generate_visual_frames h snapshots (width, height) = Ok frames ->
  Forall2 (fun s f => render_frame h width height s = Ok f) snapshots frames.
Proof.
  unfold generate_visual_frames. by intros (new & -> & Hnew)%frames_loop.
Qed.

(** A frame is drawn from the references of the snapshot and the heap. *)
Lemma render_frame_contacts (h : heap) (width height : Z) (s s' : Snapshot.t) :
  Snapshot.contacts s = Snapshot.contacts s' ->
  render_frame h width height s = render_frame h width height s'.
Proof. unfold render_frame. by intros ->. Qed.

Lemma frames_same_contacts (h : heap) (width height : Z) (locs : list loc)
    (snapshots : list Snapshot.t) (frames : list grid) :
  Forall2 (fun s f => render_frame h width height s = Ok f) snapshots frames ->
  (forall k s, snapshots !! k = Some s -> Snapshot.contacts s = locs) ->
  forall f f', f ∈ frames -> f' ∈ frames -> f = f'.
Proof.
  intros Hframes Hsnaps.
  assert (Hall : forall f, f ∈ frames ->
            render_frame h width height (Snapshot.mk 0 locs 0) = Ok f).
  { intros f [k Hk]%list_elem_of_lookup.
    destruct (Forall2_lookup_r _ _ _ _ _ Hframes Hk) as (s & Hs & Hrender).
    rewrite <- Hrender. apply render_frame_contacts. simpl. symmetry.
    by apply (Hsnaps k s). }
  intros f f' Hf%Hall Hf'%Hall. congruence.
Qed.

(** X3: the frames rendered from the snapshots that [run_simulation]
    returned are all the same picture: every snapshot holds the engine's own
    contacts, which are read when the frame is drawn, after the last step. *)
Theorem frames_of_run_identical `{Libm} (steps : Z) (dt : float) (contacts : list loc)
    (bounds : float * float) (damping : float) (h h' : heap)
    (snapshots : list Snapshot.t) (size : Z * Z) (frames : list grid) :
  run_simulation steps dt contacts bounds damping h = (Ok snapshots, h') ->
  generate_visual_frames h' snapshots size = Ok frames ->
  length frames = Z.to_nat steps /\
  forall f f', f ∈ frames -> f' ∈ frames -> f = f'.
Proof.
  intros Hrun Hframes. destruct size as [width height].
  apply generate_visual_frames_each in Hframes.
  destruct (run_loop_snapshots_run _ _ _ _ _ _ _ _ Hrun) as [Hlen Hsnaps].
  split; [by rewrite <- (Forall2_length _ _ _ Hframes)|].
  by eapply frames_same_contacts.
Qed.

Lemma frames_of_run_identical_witness :
  let h := [Contact.mk 0 0.5 0.5 0.01 0 0.5; Contact.mk 1 0.6 0.5 0.01 0 0.7] in
  exists snapshots h' frames,
    @run_simulation textbook_libm 2 0.05 [0; 1]%nat (1, 1) 0.98 h = (Ok snapshots, h') /\
    generate_visual_frames h' snapshots (4, 4)%Z = Ok frames /\
    length frames = 2%nat /\
    forall f f', f ∈ frames -> f' ∈ frames -> f = f'.
Proof.
  intros h. eexists _, _, _.
  split; [vm_compute; reflexivity|]. split; [vm_compute; reflexivity|].
  unshelve eapply (@frames_of_run_identical textbook_libm 2 0.05 [0; 1]%nat (1, 1) 0.98 h
                     _ _ (4, 4)%Z _ _ _);
    [| |vm_compute; reflexivity|vm_compute; reflexivity].
Defined.

(** X4: a run never changes which contact is which: every snapshot lists
    the contacts in the order of the input list, each with the identifier
    and the affinity of the input contact, however many steps were made. *)
Theorem run_keeps_labels `{Libm} (steps : Z) (dt : float) (contacts : list loc)
    (bounds : float * float) (damping : float) (h h' : heap)
    (snapshots : list Snapshot.t) :
  live h contacts ->
  run_simulation steps dt contacts bounds damping h = (Ok snapshots, h') ->
  forall s, s ∈ snapshots ->
    Contact.identifier <$> (Snapshot.view h' s).1.2
      = Contact.identifier <$> (deref h <$> contacts) /\
    Contact.affinity <$> (Snapshot.view h' s).1.2
      = Contact.affinity <$> (deref h <$> contacts).
Proof.
  intros Hlive Hrun s [k Hk]%list_elem_of_lookup.
  destruct (run_loop_snapshots_run _ _ _ _ _ _ _ _ Hrun) as [_ Hsnaps].
  unfold Snapshot.view. simpl. rewrite (Hsnaps k s Hk).
  unfold run_simulation in Hrun. rewrite M_bind_eq in Hrun.
  destruct (init_spec contacts bounds damping h) as (h1 & Hinit & _ & _ & Hval).
  rewrite Hinit in Hrun. apply (f_equal snd) in Hrun. simpl in Hrun. subst h'.
  rewrite (Hval Hlive). set (cs := deref h <$> contacts).
  replace (length contacts) with (length cs) by (unfold cs; by rewrite length_fmap).
  split.
  - transitivity (Contact.identifier <$> (deref (h ++ cs) <$> seq (length h) (length cs))).
    + rewrite <- !list_fmap_compose. apply list_fmap_ext. intros i l _. simpl.
      apply run_loop_labels.
    + by rewrite deref_seq.
  - transitivity (Contact.affinity <$> (deref (h ++ cs) <$> seq (length h) (length cs))).
    + rewrite <- !list_fmap_compose. apply list_fmap_ext. intros i l _. simpl.
      apply run_loop_labels.
    + by rewrite deref_seq.
Qed.

Lemma run_keeps_labels_witness :
  let h := [Contact.mk 7 0.5 0.5 0.01 0 0.5; Contact.mk 3 0.6 0.5 0.01 0 0.7] in
  exists snapshots h',
    @run_simulation textbook_libm 2 0.05 [0; 1]%nat (1, 1) 0.98 h = (Ok snapshots, h') /\
    forall s, s ∈ snapshots ->
      Contact.identifier <$> (Snapshot.view h' s).1.2 = [7; 3]%Z /\
      Contact.affinity <$> (Snapshot.view h' s).1.2 = [0.5; 0.7].
Proof.
  intros h. eexists _, _. split; [vm_compute; reflexivity|].
  apply (@run_keeps_labels textbook_libm 2 0.05 [0; 1]%nat (1, 1) 0.98 h).
  - repeat constructor.
  - vm_compute. reflexivity.
Defined.

(** ** The contact factory *)

Section factory.
Context `{Random}.

Lemma create_values_loop_identifiers ids rng :
  Contact.identifier <$> create_values_loop ids rng = ids.
Proof.
  revert rng. induction ids as [|identifier ids IH]; intros rng; [done|].
  cbn [create_values_loop].
  assert (Hid : Contact.identifier (draw_values identifier rng).1 = identifier).
  { unfold draw_values.
    destruct (rng_random rng) as [x rng1].
    destruct (rng_random rng1) as [y rng2].
    destruct (rng_uniform (-0.05) 0.05 rng2) as [vx rng3].
    destruct (rng_uniform (-0.05) 0.05 rng3) as [vy rng4].
    by destruct (rng_uniform 0.4 1.0 rng4) as [a rng5]. }
  destruct (draw_values identifier rng) as [c rng']. simpl in *.
  by rewrite Hid, IH.
Qed.

Lemma create_values_length count seed :
  length (create_values count seed) = Z.to_nat count.
Proof.
  rewrite <- (length_fmap Contact.identifier). unfold create_values.
  by rewrite create_values_loop_identifiers, range_length.
Qed.

(** X5: [create_contacts] never raises; it creates [count] new contacts (none
    for a negative count) after the objects that exist, which it leaves as
    they are, returns their references in creation order, all distinct, and
    numbers them 0, 1, ..., count - 1. *)
Theorem create_contacts_fresh (count seed : Z) (h : heap) :
  exists locs new,
    create_contacts count seed h = (Ok locs, h ++ new) /\
    locs = seq (length h) (Z.to_nat count) /\
    length new = Z.to_nat count /\
    NoDup locs /\
    deref (h ++ new) <$> locs = new /\
    Contact.identifier <$> new = Py.range count.
Proof.
  exists (seq (length h) (Z.to_nat count)), (create_values count seed).
  rewrite create_contacts_values, create_values_length.
  split; [done|]. split; [done|]. split; [done|]. split; [apply NoDup_seq|].
  split.
  - rewrite <- (create_values_length count seed). apply deref_seq.
  - apply create_values_loop_identifiers.
Qed.

End factory.

(** ** Saturation and sign of a quantized sample *)

Section quantize_sign.
Local Open Scope Z_scope.

(** The product with 32767 of a number strictly between -1 and 1 keeps the
    sign of the number. *)
Lemma scaled_inside_unit_sign (v : float) :
  (-1 <? v)%float = true -> (v <? 1)%float = true ->
  exists n, Py.int_of_float (v * 32767)%float = Ok n /\
    ((v <? 0)%float = false -> 0 <= n) /\ ((0 <? v)%float = false -> n <= 0).
Proof.
  intros Hgt Hlt. rewrite !FloatAxioms.ltb_spec in *.
  unfold Py.int_of_float. rewrite mul_spec.
  change (Prim2SF 32767%float) with (S754_finite false 9006924376834048 (-38)).
  change (Prim2SF 0%float) with (S754_zero false).
  pose proof (Prim2SF_valid v) as Hvalid.
  destruct (Prim2SF v) as [s|s| |s m e] eqn:Ev.
  - exists 0. simpl. split; [reflexivity|lia].
  - destruct s; discriminate.
  - discriminate.
  - destruct (inside_unit_finite s m e Hvalid Hlt Hgt) as [He Hm].
    unfold SF64mul, SFmul.
    assert (Hbound : Z.pos (m * 9006924376834048) < 32767 * 2 ^ (- (e + -38))).
    { rewrite Pos2Z.inj_mul. replace (- (e + -38)) with (38 + - e) by lia.
      rewrite pow2_split by lia.
      change (Z.pos 9006924376834048) with (32767 * 2 ^ 38).
      pose proof (Z.pow_pos_nonneg 2 38 ltac:(lia) ltac:(lia)). nia. }
    pose proof (binary_round_aux_bound (xorb s false)
                  (Z.pos (m * 9006924376834048)) (e + -38)
                  ltac:(lia) ltac:(lia) Hbound) as Hround.
    destruct (binary_round_aux prec emax (xorb s false)
                (Z.pos (m * 9006924376834048)) (e + -38) loc_Exact)
      as [s'|s'| |s' m' e']; try done.
    + exists 0. split; [reflexivity|lia].
    + destruct Hround as [-> Hle].
      eexists. split; [reflexivity|].
      assert (0 <= Z.shiftl (Z.pos m') e') by (apply Z.shiftl_nonneg; lia).
      unfold SFltb, SFcompare. destruct s; simpl; split; intros; (lia || discriminate).
Qed.

End quantize_sign.

Lemma nonneg_above_minus_one (v : float) : (v <? 0) = false -> is_nan v = false -> (-1 <? v) = true.
Proof.
  intros Hv Hnan%not_nan_spec. rewrite FloatAxioms.ltb_spec in *.
  change (Prim2SF 0) with (S754_zero false) in Hv.
  change (Prim2SF (-1)) with (S754_finite true 4503599627370496 (-52)).
  destruct (Prim2SF v) as [s|s| |s m e]; try done; by destruct s.
Qed.

Lemma nonpos_below_one (v : float) : (0 <? v) = false -> is_nan v = false -> (v <? 1) = true.
Proof.
  intros Hv Hnan%not_nan_spec. rewrite FloatAxioms.ltb_spec in *.
  change (Prim2SF 0) with (S754_zero false) in Hv.
  change (Prim2SF 1) with (S754_finite false 4503599627370496 (-52)).
  destruct (Prim2SF v) as [s|s| |s m e]; try done; by destruct s.
Qed.

(** X6: quantization saturates: a value that is not below 1, NaN and
    +infinity among them, becomes 32767, and a value that is not above -1
    becomes -32767; a number that is not negative gives a sample that is not
    negative, and a number that is not positive a sample that is not
    positive. *)
Theorem quantize_saturates (v : float) :
  ((v <? 1) = false -> quantize v = Ok 32767%Z) /\
  ((v <? 1) = true -> (-1 <? v) = false -> quantize v = Ok (-32767)%Z) /\
  (is_nan v = false -> (v <? 0) = false ->
     exists n, quantize v = Ok n /\ (0 <= n)%Z) /\
  (is_nan v = false -> (0 <? v) = false ->
     exists n, quantize v = Ok n /\ (n <= 0)%Z).
Proof.
  unfold quantize, Py.max, Py.min.
  split; [by intros ->|]. split; [by intros -> ->|].
  split.
  - intros Hnan Hv. destruct (v <? 1) eqn:Hlt; [|by exists 32767%Z].
    rewrite (nonneg_above_minus_one v Hv Hnan).
    destruct (scaled_inside_unit_sign v (nonneg_above_minus_one v Hv Hnan) Hlt)
      as (n & Hn & Hpos & _).
    exists n. split; [exact Hn|by apply Hpos].
  - intros Hnan Hv. rewrite (nonpos_below_one v Hv Hnan).
    destruct (-1 <? v) eqn:Hgt; [|by exists (-32767)%Z].
    destruct (scaled_inside_unit_sign v Hgt (nonpos_below_one v Hv Hnan))
      as (n & Hn & _ & Hneg).
    exists n. split; [exact Hn|by apply Hneg].
Qed.

Lemma quantize_saturates_witness :
  quantize nan = Ok 32767%Z /\ quantize infinity = Ok 32767%Z /\
  quantize 1.5 = Ok 32767%Z /\ quantize (-7) = Ok (-32767)%Z /\
  (exists n, quantize 0.25 = Ok n /\ (0 <= n)%Z) /\
  (exists n, quantize (-0.25) = Ok n /\ (n <= 0)%Z).
Proof.
  split; [|split; [|split; [|split; [|split]]]].
  - apply (proj1 (quantize_saturates nan)). reflexivity.
  - apply (proj1 (quantize_saturates infinity)). reflexivity.
  - apply (proj1 (quantize_saturates 1.5)). reflexivity.
  - apply (proj1 (proj2 (quantize_saturates (-7)))); reflexivity.
  - apply (proj1 (proj2 (proj2 (quantize_saturates 0.25)))); reflexivity.
  - apply (proj2 (proj2 (proj2 (quantize_saturates (-0.25))))); reflexivity.
Defined.

(** ** Engines with fewer than two contacts *)

(** X7: with fewer than two contacts there is no pair, so [step] cannot
    raise: an engine without contacts only advances its time and leaves the
    heap as it is, and a lone contact is integrated with the zero force,
    that is under damping and reflection alone. *)
Theorem step_without_pairs `{Libm} (self : EvolutionSimulation.t) (dt : float) (h : heap) :
  (length (EvolutionSimulation._contacts self) <= 1)%nat ->
  exists snap h',
    EvolutionSimulation.step self dt h = (Ok (snap, advance self dt), h') /\
    Snapshot.time snap = EvolutionSimulation._time self + dt /\
    (EvolutionSimulation._contacts self = [] -> h' = h) /\
    (forall l, EvolutionSimulation._contacts self = [l] ->
       h' = <[l := EvolutionSimulation.integrate self dt (0, 0) (deref h l)]> h).
Proof.
  intros Hlen. rewrite step_eq, compute_forces_closed.
  destruct (EvolutionSimulation._contacts self) as [|l [|l' locs]] eqn:Hlocs;
    [| |simpl in Hlen; lia].
  - eexists _, _. split; [reflexivity|]. by repeat split.
  - eexists _, _. split; [reflexivity|]. split; [done|]. split; [done|].
    by intros l0 [= <-].
Qed.

Lemma step_without_pairs_witness :
  let self := EvolutionSimulation.mk [0%nat] 1 1 0.98 0 in
  let h := [Contact.mk 0 0.5 0.5 0.01 0 0.5] in
  exists snap h',
    @EvolutionSimulation.step textbook_libm self 0.05 h = (Ok (snap, advance self 0.05), h') /\
    h' = [Contact.mk 0 0.50049 0.5 0.0098 0 0.5].
Proof.
  intros self h.
  destruct (@step_without_pairs textbook_libm self 0.05 h) as (snap & h' & Hs & _ & _ & Hl).
  - simpl. lia.
  - exists snap, h'. split; [exact Hs|]. by rewrite (Hl 0%nat).
Defined.

(** ** Shape of the rendered frames *)

Section frame_shape.
Local Open Scope Z_scope.

Lemma render_frame_size (h : heap) (width height : Z) (s : Snapshot.t) (f : grid) :
  1 <= width -> 1 <= height ->
  render_frame h width height s = Ok f -> grid_of_size width height f.
Proof.
  intros Hw Hh Hrender. unfold render_frame in Hrender.
  destruct (render_loop_marks _ _ _ _ _ _ Hrender) as [items Hitems].
  destruct (render_loop h width height _ items (blank width height) Hw Hh
              (blank_size width height ltac:(lia) ltac:(lia)) Hitems)
    as (g & Hg & Hgrid & _).
  rewrite Hrender in Hg. by injection Hg as <-.
Qed.

(** The first assignment of [draw_contact] on a blank frame with an empty
    dimension. *)
Lemma set_pixel_blank_empty (width height x y : Z) (c : color) :
  width < 1 \/ height < 1 ->
  x = Z.min (width - 1) (Z.max 0 x) -> y = Z.min (height - 1) (Z.max 0 y) ->
  set_pixel (blank width height) y x c = Raise IndexError.
Proof.
  intros Hdim Hx Hy. unfold set_pixel.
  assert (Hrows : Z.of_nat (length (blank width height)) = Z.max 0 height).
  { unfold blank. rewrite length_fmap, range_length. lia. }
  rewrite Hrows. cbv zeta.
  destruct (decide (y < 0)) as [Hneg|Hpos].
  - rewrite decide_False by lia. reflexivity.
  - assert (1 <= height) by lia. assert (width < 1) by lia.
    rewrite decide_True by lia.
    assert (Hrow : blank width height !!! Z.to_nat y = []).
    { unfold blank. apply list_lookup_total_correct.
      rewrite list_lookup_fmap, range_lookup by lia. simpl.
      unfold Py.range. by replace (Z.to_nat width) with 0%nat by lia. }
    rewrite Hrow. unfold Py.setitem_int. simpl.
    rewrite decide_False by lia. rewrite decide_False by lia. reflexivity.
Qed.

End frame_shape.

(** X8: [generate_visual_frames] yields one frame per snapshot, in order;
    for a size of at least 1 x 1 every frame has [height] rows of [width]
    pixels and the frame of a snapshot without contacts is all background;
    with a width or a height below 1 the first contact whose pixel and
    colour can be computed makes the renderer raise [IndexError]. *)
Theorem generate_visual_frames_shape (h : heap) (snapshots : list Snapshot.t)
    (width height : Z) :
  (forall frames,
     generate_visual_frames h snapshots (width, height) = Ok frames ->
     length frames = length snapshots /\
     ((1 <= width)%Z -> (1 <= height)%Z -> Forall (grid_of_size width height) frames) /\
     (forall k s f, snapshots !! k = Some s -> frames !! k = Some f ->
        Snapshot.contacts s = [] -> f = blank width height)) /\
  (forall s l rest,
     (width < 1)%Z \/ (height < 1)%Z ->
     Snapshot.contacts s = l :: rest ->
     is_ok (mark_of width height (deref h l)) = true ->
     render_frame h width height s = Raise IndexError /\
     (s ∈ snapshots -> is_ok (generate_visual_frames h snapshots (width, height)) = false)).
Proof.
  split.
  - intros frames Hframes%generate_visual_frames_each.
    split; [symmetry; by eapply Forall2_length|]. split.
    + intros Hw Hh. apply Forall_forall. intros f [k Hk]%list_elem_of_lookup.
      destruct (Forall2_lookup_r _ _ _ _ _ Hframes Hk) as (s & _ & Hrender).
      by eapply render_frame_size.
    + intros k s f Hs Hf Hc.
      destruct (Forall2_lookup_l _ _ _ _ _ Hframes Hs) as (f' & Hf' & Hrender).
      rewrite Hf in Hf'. injection Hf' as <-.
      unfold render_frame in Hrender. rewrite Hc in Hrender. simpl in Hrender.
      by injection Hrender as <-.
  - intros s l rest Hdim Hc Hmark.
    assert (Hraise : render_frame h width height s = Raise IndexError).
    { unfold render_frame. rewrite Hc. cbn [Py.for_each].
      rewrite draw_contact_mark_of.
      destruct (mark_of width height (deref h l)) as [[[x y] c]|] eqn:Em; [|discriminate].
      rewrite set_pixel_blank_empty; [reflexivity|exact Hdim| |].
      - unfold mark_of in Em. rewrite res_bind_eq in Em.
        destruct (pixel_coord (Contact.x (deref h l)) width) as [x'|] eqn:Ex; [|discriminate].
        rewrite res_bind_eq in Em.
        destruct (pixel_coord (Contact.y (deref h l)) height) as [y'|]; [|discriminate].
        rewrite res_bind_eq in Em.
        destruct (_color_for_contact (deref h l)); [|discriminate].
        injection Em as <- <- <-.
        unfold pixel_coord in Ex. rewrite res_bind_eq in Ex.
        destruct (Py.float_of_int (width - 1)); [|discriminate].
        rewrite res_bind_eq in Ex. destruct (Py.int_of_float _); [|discriminate].
        injection Ex as <-. lia.
      - unfold mark_of in Em. rewrite res_bind_eq in Em.
        destruct (pixel_coord (Contact.x (deref h l)) width) as [x'|]; [|discriminate].
        rewrite res_bind_eq in Em.
        destruct (pixel_coord (Contact.y (deref h l)) height) as [y'|] eqn:Ey; [|discriminate].
        rewrite res_bind_eq in Em.
        destruct (_color_for_contact (deref h l)); [|discriminate].
        injection Em as <- <- <-.
        unfold pixel_coord in Ey. rewrite res_bind_eq in Ey.
        destruct (Py.float_of_int (height - 1)); [|discriminate].
        rewrite res_bind_eq in Ey. destruct (Py.int_of_float _); [|discriminate].
        injection Ey as <-. lia. }
    split; [exact Hraise|].
    intros Hin.
    destruct (generate_visual_frames h snapshots (width, height)) as [frames|] eqn:Eg;
      [|reflexivity].
    apply generate_visual_frames_each in Eg.
    apply list_elem_of_lookup in Hin as [k Hk].
    destruct (Forall2_lookup_l _ _ _ _ _ Eg Hk) as (f & _ & Hrender).
    rewrite Hraise in Hrender. discriminate.
Qed.

Lemma generate_visual_frames_shape_witness :
  let h := [Contact.mk 0 0.5 0.5 0.01 0 0.5] in
  (exists frames,
     generate_visual_frames h [Snapshot.mk 0 [0%nat] 0; Snapshot.mk 0 [] 0] (3, 2)%Z
       = Ok frames /\
     length frames = 2%nat /\
     Forall (grid_of_size 3 2) frames /\
     frames !! 1%nat = Some (blank 3 2)) /\
  render_frame h 0 4 (Snapshot.mk 0 [0%nat] 0) = Raise IndexError.
Proof.
  intros h. split.
  - destruct (generate_visual_frames_shape h
                [Snapshot.mk 0 [0%nat] 0; Snapshot.mk 0 [] 0] 3 2) as [Hshape _].
    eexists. split; [vm_compute; reflexivity|].
    edestruct Hshape as (Hlen & Hsize & Hblank); [vm_compute; reflexivity|].
    split; [exact Hlen|]. split; [apply Hsize; lia|]. reflexivity.
  - destruct (generate_visual_frames_shape h [] 0 4) as [_ Hraise].
    apply (Hraise (Snapshot.mk 0 [0%nat] 0) 0%nat []); [left; lia|reflexivity|reflexivity].
Defined.

(** ** The frames of the audio file *)

Section pack.
Local Open Scope Z_scope.

Lemma unpack_pack_h (n : Z) :
  -32768 <= n <= 32767 ->
  unpack_h (n mod 256) ((n / 256) mod 256) = n /\
  0 <= n mod 256 < 256 /\ 0 <= (n / 256) mod 256 < 256.
Proof.
  intros Hn. unfold unpack_h.
  pose proof (Z.div_mod n 256 ltac:(lia)) as Hdm.
  pose proof (Z.mod_pos_bound n 256 ltac:(lia)) as Hr.
  set (q := n / 256) in *. set (r := n mod 256) in *.
  pose proof (Z.div_mod q 256 ltac:(lia)) as Hdm'.
  pose proof (Z.mod_pos_bound q 256 ltac:(lia)) as Hr'.
  set (q' := q / 256) in *. set (r' := q mod 256) in *.
  assert (q' = 0 \/ q' = -1) as [Hq|Hq] by lia.
  - split; [|lia]. destruct (Z.ltb_spec (r + 256 * r') 32768); lia.
  - split; [|lia]. destruct (Z.ltb_spec (r + 256 * r') 32768); lia.
Qed.

Lemma pack_samples_loop (samples acc bytes : list Z) :
  Py.for_each samples (fun s bytes => b ← pack_h s; mret (bytes ++ b)) acc = Ok bytes ->
  exists new,
    bytes = acc ++ new /\ unpack_samples new = samples /\
    Forall (fun b => 0 <= b < 256) new /\
    Forall (fun s => -32768 <= s <= 32767) samples.
Proof.
  revert acc. induction samples as [|s samples IH]; intros acc; cbn [Py.for_each].
  - intros [= <-]. exists []. by rewrite app_nil_r.
  - rewrite res_bind_eq. unfold pack_h at 1.
    destruct (decide (-32768 <= s <= 32767)) as [Hs|]; [|discriminate].
    cbn [mret res_ret].
    intros (new & -> & Hunpack & Hbytes & Hall)%IH.
    destruct (unpack_pack_h s Hs) as (Hround & Hlo & Hhi).
    exists (s mod 256 :: (s / 256) mod 256 :: new).
    split; [by rewrite <- app_assoc|]. split; [simpl; by rewrite Hround, Hunpack|].
    split; [by repeat (constructor; [done|])|by constructor].
Qed.

End pack.

(** X9: the frames handed to the audio writer are the samples, each as two
    bytes of 0..255, low byte first, in two's complement: decoding the frames
    gives back the sample list; the file is mono with two bytes per sample at
    the given rate. *)
Theorem audio_frames_decode `{Libm} (h : heap) (snapshots : list Snapshot.t)
    (sample_rate : Z) (step_duration : float) (w : wav) :
  generate_audio h snapshots sample_rate step_duration = Ok w ->
  audio_samples h snapshots sample_rate step_duration = Ok (unpack_samples (frames w)) /\
  Forall (fun b => (0 <= b < 256)%Z) (frames w) /\
  nchannels w = 1%Z /\ sampwidth w = 2%Z /\ framerate w = sample_rate.
Proof.
  unfold generate_audio. rewrite res_bind_eq.
  destruct (audio_samples h snapshots sample_rate step_duration) as [samples|]; [|discriminate].
  rewrite res_bind_eq. unfold pack_samples.
  destruct (Py.for_each samples _ []) as [bytes|] eqn:Hpack; [|discriminate].
  intros [= <-]. simpl.
  apply pack_samples_loop in Hpack as (new & -> & Hunpack & Hbytes & _).
  simpl. by rewrite Hunpack.
Qed.

Lemma audio_frames_decode_witness :
  let h := [Contact.mk 0 0.5 0.5 0.01 0 0.5; Contact.mk 1 (-3) (-3) 0 0 1] in
  let snapshots := [Snapshot.mk 0 [0%nat] 0.5; Snapshot.mk 0 [1%nat] 2] in
  exists w,
    @generate_audio textbook_libm h snapshots 2000 0.002 = Ok w /\
    frames w = [0; 0; 151; 49; 63; 52; 4; 30; 0; 0; 9; 130; 165; 180; 1; 128]%Z /\
    @audio_samples textbook_libm h snapshots 2000 0.002
      = Ok [0; 12695; 13375; 7684; 0; -32247; -19291; -32767]%Z.
Proof.
  intros h snapshots. eexists. split; [vm_compute; reflexivity|].
  split; [reflexivity|].
  edestruct (@audio_frames_decode textbook_libm h snapshots 2000 0.002) as (Hs & _);
    [vm_compute; reflexivity|].
  exact Hs.
Defined.

(** ** The whole program *)

(** X10: when [main] ends normally it reports [steps] snapshots (none for a
    negative [--steps]), has written [steps] * 4410 samples of two bytes at
    44100 Hz and [steps] frames of 512 x 512 pixels, all showing the same
    picture, and the objects that existed before still have their fields. *)
Theorem main_outputs `{Libm} `{Random} (args : Args.t) (h h' : heap) (n : nat) (w : wav)
    (pictures : list grid) :
  main args h = (Ok (n, w, pictures), h') ->
  n = Z.to_nat (Args.steps args) /\
  length (frames w) = (2 * (n * 4410))%nat /\
  framerate w = 44100%Z /\
  length pictures = n /\
  Forall (grid_of_size 512 512) pictures /\
  (forall f f', f ∈ pictures -> f' ∈ pictures -> f = f') /\
  h `prefix_of` h'.
Proof.
  unfold main. rewrite M_bind_eq, create_contacts_values.
  set (cs := create_values (Args.contacts args) (Args.seed args)).
  rewrite M_bind_eq.
  pose proof (constructor_frame (Args.steps args) (Args.dt args)
                (seq (length h) (length cs)) (1, 1) 0.98 (h ++ cs)) as Hpre.
  destruct (run_simulation _ _ _ _ _ (h ++ cs)) as [[snapshots|] h1] eqn:Hrun;
    [|discriminate].
  destruct (run_loop_snapshots_run _ _ _ _ _ _ _ _ Hrun) as [Hlen Hsnaps].
  rewrite M_bind_eq. unfold reading at 1.
  destruct (generate_audio h1 snapshots 44100 0.1) as [audio|] eqn:Haudio; [|discriminate].
  rewrite M_bind_eq. unfold reading at 1.
  destruct (generate_visual_frames h1 snapshots (512, 512)%Z) as [fs|] eqn:Hfs;
    [|discriminate].
  intros [= <- <- <- <-]. simpl in Hpre.
  apply generate_visual_frames_each in Hfs.
  split; [exact Hlen|]. split.
  { unfold generate_audio in Haudio. rewrite res_bind_eq in Haudio.
    destruct (audio_samples h1 snapshots 44100 0.1) as [samples|] eqn:Hs; [|discriminate].
    rewrite res_bind_eq in Haudio.
    destruct (pack_samples samples) as [bytes|] eqn:Hb; [|discriminate].
    injection Haudio as <-. simpl.
    apply (audio_loop_length _ _ _ _ _ _ _ step_samples_default) in Hs.
    apply pack_samples_length in Hb. simpl in *. lia. }
  split.
  { unfold generate_audio in Haudio. rewrite res_bind_eq in Haudio.
    destruct (audio_samples h1 snapshots 44100 0.1); [|discriminate].
    rewrite res_bind_eq in Haudio. destruct (pack_samples _); [|discriminate].
    by injection Haudio as <-. }
  split; [symmetry; by eapply Forall2_length|].
  split.
  { apply Forall_forall. intros f [k Hk]%list_elem_of_lookup.
    destruct (Forall2_lookup_r _ _ _ _ _ Hfs Hk) as (s & _ & Hrender).
    eapply render_frame_size; [| |exact Hrender]; lia. }
  split; [by eapply frames_same_contacts|].
  etrans; [|exact Hpre]. by apply prefix_app_r.
Qed.

(** A loop that appends one element per iteration ends normally when no
    element makes the body raise. *)
Lemma append_loop_ok {A B} (f : A -> res B) (xs : list A) (acc : list B) :
  forallb (fun x => is_ok (f x)) xs = true ->
  exists r, Py.for_each xs (fun x acc => b ← f x; mret (acc ++ [b])) acc = Ok r.
Proof.
  revert acc. induction xs as [|x xs IH]; intros acc; simpl.
  - intros _. by exists acc.
  - intros [Hx Hxs]%andb_prop. rewrite res_bind_eq.
    destruct (f x) as [b|e]; [|discriminate]. by apply IH.
Qed.

Lemma is_ok_inv {A} (r : res A) : is_ok r = true -> exists a, r = Ok a.
Proof. destruct r as [a|e]; [by exists a|discriminate]. Qed.

(** The audio loop ends normally when every sample can be computed. *)
Lemma audio_loop_ok `{Libm} (h : heap) (snapshots : list Snapshot.t)
    (sample_rate : Z) (step_duration : float) (n : Z) (acc : list Z) :
  step_samples sample_rate step_duration = Ok n ->
  forallb (fun s => forallb (fun i => is_ok (sample h s sample_rate i)) (Py.range n))
    snapshots = true ->
  exists samples,
    Py.for_each snapshots
      (fun snapshot samples =>
         n ← step_samples sample_rate step_duration;
         Py.for_each (Py.range n)
           (fun sample_index samples =>
              s ← sample h snapshot sample_rate sample_index;
              mret (samples ++ [s]))
           samples)
      acc = Ok samples.
Proof.
  intros Hn. revert acc. induction snapshots as [|s snapshots IH]; intros acc Hall.
  - by exists acc.
  - cbn [forallb] in Hall. apply andb_prop in Hall as [Hs Hrest].
    cbn [Py.for_each]. rewrite Hn, res_bind_eq. cbv beta iota.
    destruct (append_loop_ok (sample h s sample_rate) (Py.range n) acc Hs) as [acc' Hacc].
    rewrite Hacc, <- Hn. by apply IH.
Qed.

Lemma audio_samples_checked `{Libm} (h : heap) (snapshots : list Snapshot.t)
    (sample_rate : Z) (step_duration : float) (n : Z) :
  step_samples sample_rate step_duration = Ok n ->
  forallb (fun s => forallb (fun i => is_ok (sample h s sample_rate i)) (Py.range n))
    snapshots = true ->
  exists samples, audio_samples h snapshots sample_rate step_duration = Ok samples.
Proof. intros Hn Hall. by apply (audio_loop_ok h snapshots _ _ n []). Qed.

Lemma main_outputs_witness :
  exists w pictures,
    @main textbook_libm lcg_random (Args.mk 2 0.05 2 42) [Contact.mk 7 0.5 0.5 0 0 1]
      = (Ok (2%nat, w, pictures),
         [Contact.mk 7 0.5 0.5 0 0 1;
          Contact.mk 0 0.58230758970603347 0.5198187492787838
            (-0.003402357501909134) 0.027703725825995215 0.65371901737526061;
          Contact.mk 1 0.033372329548001289 0.41738913068547845
            0.030872851703315982 0.011233968427404761 0.82894242852926259;
          Contact.mk 0 0.56463730874516693 0.51925838725854034
            (-0.23555501770924406) (-0.016988506629236053) 0.65371901737526061;
          Contact.mk 1 0.053707797856288382 0.4217272278021868
            0.2619376803402752 0.054384268190201382 0.82894242852926259]) /\
    length (frames w) = (2 * (2 * 4410))%nat /\
    framerate w = 44100%Z /\
    length pictures = 2%nat /\
    Forall (grid_of_size 512 512) pictures /\
    (forall f f', f ∈ pictures -> f' ∈ pictures -> f = f') /\
    [Contact.mk 7 0.5 0.5 0 0 1] `prefix_of`
      [Contact.mk 7 0.5 0.5 0 0 1;
       Contact.mk 0 0.58230758970603347 0.5198187492787838
         (-0.003402357501909134) 0.027703725825995215 0.65371901737526061;
       Contact.mk 1 0.033372329548001289 0.41738913068547845
         0.030872851703315982 0.011233968427404761 0.82894242852926259;
       Contact.mk 0 0.56463730874516693 0.51925838725854034
         (-0.23555501770924406) (-0.016988506629236053) 0.65371901737526061;
       Contact.mk 1 0.053707797856288382 0.4217272278021868
         0.2619376803402752 0.054384268190201382 0.82894242852926259].
Proof.
  pose (h0 := [Contact.mk 7 0.5 0.5 0 0 1]).
  pose (h1 := h0 ++
          [Contact.mk 0 0.58230758970603347 0.5198187492787838
             (-0.003402357501909134) 0.027703725825995215 0.65371901737526061;
           Contact.mk 1 0.033372329548001289 0.41738913068547845
             0.030872851703315982 0.011233968427404761 0.82894242852926259]).
  pose (h2 := h1 ++
          [Contact.mk 0 0.56463730874516693 0.51925838725854034
             (-0.23555501770924406) (-0.016988506629236053) 0.65371901737526061;
           Contact.mk 1 0.053707797856288382 0.4217272278021868
             0.2619376803402752 0.054384268190201382 0.82894242852926259]).
  pose (snapshots := [Snapshot.mk 0.050000000000000003 [3; 4]%nat 0.26634040548745175;
                      Snapshot.mk 0.10000000000000001 [3; 4]%nat 0.50369066387403738]).
  assert (Hc : @create_contacts lcg_random 2 42 h0 = (Ok [1; 2]%nat, h1))
    by (vm_compute; reflexivity).
  assert (Hr : @run_simulation textbook_libm 2 0.05 [1; 2]%nat (1, 1) 0.98 h1
               = (Ok snapshots, h2)) by (vm_compute; reflexivity).
  assert (Hs : forallb (fun s => forallb
                  (fun i => is_ok (@sample textbook_libm h2 s 44100 i)) (Py.range 4410))
                 snapshots = true) by (vm_compute; reflexivity).
  assert (Hf : is_ok (generate_visual_frames h2 snapshots (512, 512)%Z) = true)
    by (vm_compute; reflexivity).
  destruct (audio_samples_checked h2 snapshots 44100 0.1 4410 step_samples_default Hs)
    as [samples Ha].
  destruct (pack_samples_ok samples (audio_samples_range _ _ _ _ _ Ha)) as [bytes Hb].
  destruct (is_ok_inv _ Hf) as [pictures Hp].
  assert (Hmain : @main textbook_libm lcg_random (Args.mk 2 0.05 2 42) h0
                  = (Ok (2%nat, mk_wav 1 2 44100 bytes, pictures), h2)).
  { unfold main. cbn [Args.contacts Args.seed Args.steps Args.dt].
    rewrite M_bind_eq, Hc, M_bind_eq, Hr. unfold reading.
    rewrite M_bind_eq. unfold generate_audio. rewrite Ha, res_bind_eq, Hb.
    cbn [mbind res_bind mret res_ret]. rewrite M_bind_eq, Hp. reflexivity. }
  exists (mk_wav 1 2 44100 bytes), pictures. split; [exact Hmain|].
  destruct (@main_outputs textbook_libm lcg_random _ _ _ _ _ _ Hmain)
    as (_ & Hlen & Hrate & Hpics & Hsize & Hsame & Hpre).
  split; [exact Hlen|]. split; [exact Hrate|]. split; [exact Hpics|].
  split; [exact Hsize|]. split; [exact Hsame|exact Hpre].
Defined.

(** ** What the force loop reads *)

Lemma forallb_pointwise {A} (f g : A -> bool) (l : list A) :
  (forall a, f a = g a) -> forallb f l = forallb g l.
Proof. intros Hfg. induction l as [|a l IH]; simpl; [done|]. by rewrite Hfg, IH. Qed.

Section force_inputs.
Context `{Libm}.

Lemma pair_force_same_place c c' o o' :
  same_place c c' -> same_place o o' ->
  EvolutionSimulation.pair_force c o = EvolutionSimulation.pair_force c' o'.
Proof.
  intros (Hx & Hy & Ha) (Hx' & Hy' & Ha').
  unfold EvolutionSimulation.pair_force. by rewrite Hx, Hy, Ha, Hx', Hy', Ha'.
Qed.

Lemma same_place_lookup cs cs' i :
  Forall2 same_place cs cs' -> same_place (cs !!! i) (cs' !!! i).
Proof.
  intros Hall. destruct (cs !! i) as [c|] eqn:Ec.
  - destruct (Forall2_lookup_l _ _ _ _ _ Hall Ec) as (c' & Ec' & Hcc).
    by rewrite (list_lookup_total_correct _ _ _ Ec), (list_lookup_total_correct _ _ _ Ec').
  - assert (cs' !! i = None) as Ec'.
    { apply lookup_ge_None. rewrite <- (Forall2_length _ _ _ Hall).
      by apply lookup_ge_None. }
    rewrite !list_lookup_total_alt, Ec, Ec'. by repeat split.
Qed.

Lemma force_between_same_place cs cs' i j :
  Forall2 same_place cs cs' -> force_between cs i j = force_between cs' i j.
Proof.
  intros Hall. unfold force_between.
  by rewrite (pair_force_same_place _ _ _ _ (same_place_lookup cs cs' i Hall)
                (same_place_lookup cs cs' j Hall)).
Qed.

Lemma forces_of_same_place cs cs' :
  Forall2 same_place cs cs' -> forces_of cs = forces_of cs'.
Proof.
  intros Hall. pose proof (Forall2_length _ _ _ Hall) as Hlen.
  unfold forces_of.
  assert (Hok : pairs_ok cs = pairs_ok cs').
  { unfold pairs_ok, row_ok. rewrite Hlen.
    apply forallb_pointwise. intros i. apply forallb_pointwise. intros j.
    by rewrite (pair_force_same_place _ _ _ _ (same_place_lookup cs cs' i Hall)
                  (same_place_lookup cs cs' j Hall)). }
  rewrite Hok. destruct (pairs_ok cs'); [|reflexivity]. f_equal.
  rewrite Hlen. apply list_fmap_ext. intros _ k _.
  unfold net_force. rewrite Hlen.
  rewrite (foldl_pointwise (fun acc j => vadd acc (force_between cs k j))
             (fun acc j => vadd acc (force_between cs' k j)))
    by (intros acc j; by rewrite (force_between_same_place cs cs')).
  f_equal. apply foldl_pointwise.
  intros acc i. by rewrite (force_between_same_place cs cs').
Qed.

End force_inputs.

(** X11: the forces of a step are computed from the positions and the
    affinities alone: two engine states whose contacts agree in x, y and
    affinity get the same forces, or the same [ZeroDivisionError], whatever
    their velocities and identifiers are. *)
Theorem forces_read_positions `{Libm} (h h' : heap) (locs locs' : list loc) :
  Forall2 (fun l l' => same_place (deref h l) (deref h' l')) locs locs' ->
  EvolutionSimulation.compute_forces h locs = EvolutionSimulation.compute_forces h' locs'.
Proof.
  intros Hall. rewrite !compute_forces_closed.
  change (forces_of (deref h <$> locs) = forces_of (deref h' <$> locs')).
  apply forces_of_same_place. by apply Forall2_fmap.
Qed.

Lemma forces_read_positions_witness :
  let h := [Contact.mk 0 0.5 0.5 0.01 0 0.5; Contact.mk 1 0.6 0.5 0.01 0 0.7] in
  let h' := [Contact.mk 5 0.6 0.5 3 (-2) 0.7; Contact.mk 9 0.5 0.5 (-1) 0 0.5] in
  @EvolutionSimulation.compute_forces textbook_libm h [0; 1]%nat
  = @EvolutionSimulation.compute_forces textbook_libm h' [1; 0]%nat.
Proof.
  intros h h'. apply forces_read_positions.
  repeat constructor.
Defined.

(** ** The divisors of the force loop

    [distance] is the sum of a [hypot] and [1e-6]: when the [hypot] is not
    negative the sum is at least [2 ^ (-20)] (or NaN, or infinite), and its
    square at least [2 ^ (-40)], so neither is zero. *)

Section lower_bound.
Local Open Scope Z_scope.

Lemma shr_fexp_lower (c m e : Z) (l : location) :
  0 <= c < 1000 -> at_least_pow2 c m e ->
  at_least_pow2 c (shr_m (shr_fexp prec emax m e l).1) (shr_fexp prec emax m e l).2.
Proof.
  intros Hc [Hm He].
  destruct (shr_fexp_spec m e l ltac:(lia)) as [-> ->].
  set (d := Zdigits2 m).
  pose proof (Zdigits2_lower m ltac:(lia)) as Hd. fold d in Hd.
  set (k := Z.max 0 (fexp prec emax (d + e) - e)).
  assert (Hfexp : fexp prec emax (d + e) = Z.max (d + e - 53) (-1074)).
  { unfold fexp, SpecFloat.emin, prec, emax. lia. }
  destruct (Z.eq_dec k 0) as [Hk0|Hk0].
  - rewrite Hk0, Z.div_1_r, Z.add_0_r. by split.
  - assert (Hk : 0 < k) by (unfold k in *; lia).
    assert (He1 : e + k = Z.max (d + e - 53) (-1074)) by (unfold k in *; lia).
    destruct (Z_lt_le_dec (e + k) (- c)) as [Hlt|Hge].
    + assert (Hbound : 2 ^ (- c - (e + k)) * 2 ^ k <= m).
      { rewrite <- pow2_split by lia. replace (- c - (e + k) + k) with (- c - e) by lia.
        apply He. lia. }
      assert (Hdiv : 2 ^ (- c - (e + k)) <= m / 2 ^ k).
      { apply Z.div_le_lower_bound; [apply Z.pow_pos_nonneg; lia|lia]. }
      pose proof (Z.pow_pos_nonneg 2 (- c - (e + k)) ltac:(lia) ltac:(lia)).
      split; [lia|]. intros _. exact Hdiv.
    + assert (Hkd : k = d - 53) by lia.
      assert (Hdiv : 2 ^ 52 <= m / 2 ^ k).
      { apply Z.div_le_lower_bound; [apply Z.pow_pos_nonneg; lia|].
        rewrite <- pow2_split by lia. replace (k + 52) with (d - 1) by lia. exact Hd. }
      pose proof (Z.pow_pos_nonneg 2 52 ltac:(lia) ltac:(lia)).
      split; [lia|]. intros Hlt. lia.
Qed.

Lemma binary_round_aux_lower (c P E : Z) :
  0 <= c < 1000 -> at_least_pow2 c P E ->
  match binary_round_aux prec emax false P E loc_Exact with
  | S754_infinity false => True
  | S754_finite false m e => at_least_pow2 c (Z.pos m) e
  | _ => False
  end.
Proof.
  intros Hc HP. unfold binary_round_aux.
  pose proof (shr_fexp_lower c P E loc_Exact Hc HP) as H1.
  destruct (shr_fexp prec emax P E loc_Exact) as [mrs1 e1]. simpl in H1.
  set (m2 := round_nearest_even (shr_m mrs1) (loc_of_shr_record mrs1)).
  pose proof (round_nearest_even_bounds (shr_m mrs1) (loc_of_shr_record mrs1)) as Hm2.
  fold m2 in Hm2.
  assert (H2 : at_least_pow2 c m2 e1).
  { destruct H1 as [Hm He]. split; [lia|]. intros Hlt. specialize (He Hlt). lia. }
  pose proof (shr_fexp_lower c m2 e1 loc_Exact Hc H2) as H3.
  destruct (shr_fexp prec emax m2 e1 loc_Exact) as [mrs3 e3]. simpl in H3.
  destruct (shr_m mrs3) as [|m3|m3].
  - destruct H3. lia.
  - by destruct (e3 <=? emax - prec).
  - destruct H3. lia.
Qed.

Lemma iter_xO_pow (m d : positive) : Z.pos (Pos.iter xO m d) = Z.pos m * 2 ^ Z.pos d.
Proof.
  induction d as [|d IH] using Pos.peano_ind.
  - simpl. lia.
  - rewrite Pos.iter_succ, Pos2Z.inj_xO, IH, Pos2Z.inj_succ, Z.pow_succ_r by lia. lia.
Qed.

Lemma shl_align_spec (mx : positive) (ex ex' : Z) :
  (shl_align mx ex ex').2 = Z.min ex ex' /\
  Z.pos (shl_align mx ex ex').1 = Z.pos mx * 2 ^ (ex - Z.min ex ex').
Proof.
  unfold shl_align. destruct (ex' - ex) as [|d|d] eqn:Ed; simpl.
  - replace (Z.min ex ex') with ex by lia. rewrite Z.sub_diag. simpl. lia.
  - replace (Z.min ex ex') with ex by lia. rewrite Z.sub_diag. simpl. lia.
  - replace (Z.min ex ex') with ex' by lia.
    replace (ex - ex') with (Z.pos d) by lia. split; [done|apply iter_xO_pow].
Qed.

Lemma shl_align_lower (c : Z) (mx : positive) (ex ex' : Z) :
  0 <= c -> at_least_pow2 c (Z.pos mx) ex ->
  at_least_pow2 c (Z.pos (shl_align mx ex ex').1) (shl_align mx ex ex').2.
Proof.
  intros Hc [Hm He]. destruct (shl_align_spec mx ex ex') as [-> ->].
  set (e1 := Z.min ex ex').
  assert (Hpow : 0 < 2 ^ (ex - e1)) by (apply Z.pow_pos_nonneg; unfold e1; lia).
  split; [nia|]. intros Hlt.
  destruct (Z_lt_le_dec ex (- c)) as [Hex|Hex].
  - specialize (He Hex).
    replace (- c - e1) with ((- c - ex) + (ex - e1)) by lia.
    rewrite pow2_split by (unfold e1; lia).
    apply Z.mul_le_mono_nonneg; try lia; apply Z.pow_nonneg; lia.
  - assert (2 ^ (- c - e1) <= 2 ^ (ex - e1)) by (apply Z.pow_le_mono_r; lia).
    nia.
Qed.

End lower_bound.

Lemma at_least_not_zero (c : Z) (d : float) : at_least c d -> (d =? 0) = false.
Proof.
  unfold at_least. rewrite FloatAxioms.eqb_spec.
  replace (Prim2SF 0) with (S754_zero false) by (vm_compute; reflexivity).
  destruct (Prim2SF d) as [[]|[]| |[] m e]; try done.
Qed.

Lemma add_eps_lower (h : float) : (h <? 0) = false -> at_least 20 (h + 1e-6).
Proof.
  unfold at_least. rewrite FloatAxioms.ltb_spec, add_spec.
  replace (Prim2SF 0) with (S754_zero false) by (vm_compute; reflexivity).
  replace (Prim2SF 1e-6) with (S754_finite false 4722366482869645 (-72))
    by (vm_compute; reflexivity).
  destruct (Prim2SF h) as [s|s| |s m e] eqn:Eh.
  - intros _. destruct s; simpl; split; lia.
  - destruct s; [done|]. intros _. simpl. done.
  - done.
  - destruct s; [done|]. intros _.
    unfold SF64add, SFadd. cbv zeta.
    set (ez := Z.min e (-72)).
    assert (Hc : (0 <= 20 < 1000)%Z) by lia.
    assert (Heps : at_least_pow2 20 4722366482869645 (-72)).
    { split; [done|]. intros _. vm_compute. discriminate. }
    pose proof (shl_align_lower 20 4722366482869645 (-72) ez (proj1 Hc) Heps) as Ha.
    pose proof (shl_align_spec 4722366482869645 (-72) ez) as [Ha2 _].
    rewrite Ha2 in Ha. replace (Z.min (-72) ez) with ez in Ha by (unfold ez; lia).
    clear Ha2. unfold cond_Zopp.
    set (pa := (shl_align 4722366482869645 (-72) ez).1) in *.
    set (pm := (shl_align m e ez).1) in *.
    assert (Hsum : at_least_pow2 20 (Z.pos (pm + pa)) ez).
    { destruct Ha as [Ha1 Ha3]. split; [lia|]. intros Hlt.
      specialize (Ha3 Hlt). lia. }
    unfold binary_normalize. rewrite <- Pos2Z.inj_add.
    unfold binary_round.
    pose proof (shl_align_lower 20 (pm + pa) ez
      (fexp prec emax (Z.pos (digits2_pos (pm + pa)) + ez)) (proj1 Hc) Hsum) as Hz.
    destruct (shl_align (pm + pa) ez _) as [mz ez']. simpl in Hz.
    pose proof (binary_round_aux_lower 20 (Z.pos mz) ez' Hc Hz) as Hr.
    by destruct (binary_round_aux prec emax false (Z.pos mz) ez' loc_Exact) as [[]|[]| |[] ? ?].
Qed.

Lemma square_at_least (d : float) : at_least 20 d -> at_least 40 (d * d).
Proof.
  unfold at_least. rewrite mul_spec.
  destruct (Prim2SF d) as [[]|[]| |[] m e]; try done.
  intros [Hm He]. unfold SF64mul, SFmul. simpl xorb.
  assert (Hsq : at_least_pow2 40 (Z.pos (m * m)) (e + e)); last first.
  { pose proof (binary_round_aux_lower 40 _ _ ltac:(lia) Hsq) as Hr.
    by destruct (binary_round_aux prec emax false (Z.pos (m * m)) (e + e) loc_Exact)
      as [[]|[]| |[] ? ?]. }
  rewrite Pos2Z.inj_mul. split; [nia|]. intros Hlt.
  assert (Hlt' : (e < - 20)%Z) by lia. specialize (He Hlt').
  assert (Hp : (2 ^ (- (40) - (e + e)) = 2 ^ (- (20) - e) * 2 ^ (- (20) - e))%Z)
    by (rewrite <- Z.pow_add_r by lia; f_equal; lia).
  rewrite Hp.
  apply Z.mul_le_mono_nonneg; try lia; apply Z.pow_nonneg; lia.
Qed.

Lemma textbook_hypot_not_negative : hypot_not_negative textbook_libm.
Proof.
  intros a b. unfold hypot, textbook_libm.
  rewrite FloatAxioms.ltb_spec, sqrt_spec.
  replace (Prim2SF 0) with (S754_zero false) by (vm_compute; reflexivity).
  destruct (Prim2SF (a * a + b * b)) as [[]|[]| |[] m e]; try done.
  unfold SF64sqrt, SFsqrt.
  destruct (SFsqrt_core_binary prec emax (Z.pos m) e) as [[mz ez] lz].
  unfold binary_round_aux.
  destruct (shr_fexp prec emax mz ez lz) as [mrs1 e1].
  destruct (shr_fexp prec emax _ e1 loc_Exact) as [mrs2 e2].
  destruct (shr_m mrs2); try done. by destruct (e2 <=? emax - prec)%Z.
Qed.

Section never_raises.
Context {L : Libm}.
Import EvolutionSimulation.

Lemma pair_force_never_raises (contact other : Contact.t) :
  hypot_not_negative L -> is_ok (pair_force contact other) = true.
Proof.
  intros Hh. unfold pair_force, Py.truediv.
  set (d := hypot _ _ + 1e-6).
  assert (Hd : at_least 20 d) by apply add_eps_lower, Hh.
  rewrite (at_least_not_zero _ _ Hd). rewrite !res_bind_eq.
  by rewrite (at_least_not_zero _ _ (square_at_least _ Hd)).
Qed.

Lemma step_never_raises (self : t) (dt : float) (h : heap) :
  hypot_not_negative L ->
  exists snap self' h', step self dt h = (Ok (snap, self'), h').
Proof.
  intros Hh. destruct (step_outcome self dt h) as [Hok _].
  destruct Hok as (snap & self' & h' & Hs & _).
  - apply pairs_ok_spec. intros i j _. by apply pair_force_never_raises.
  - by exists snap, self', h'.
Qed.

Lemma run_loop_never_raises (r : list Z) (dt : float) (self : t)
    (snaps : list Snapshot.t) (h : heap) :
  hypot_not_negative L ->
  exists snaps' h', run_loop r dt self snaps h = (Ok snaps', h').
Proof.
  intros Hh. revert self snaps h. induction r as [|z r IH]; intros self snaps h.
  - by eexists _, _.
  - cbn [run_loop]. rewrite M_bind_eq.
    destruct (step_never_raises self dt h Hh) as (snap & self' & h' & ->).
    apply IH.
Qed.

End never_raises.

(** X12: with a [math.hypot] that returns no negative number, no call of
    [step] raises, whatever the contacts (coincident ones too), the time
    step, the bounds and the damping are: the [1e-6] added to the distance
    keeps both divisors of the force loop away from zero.  So
    [run_simulation] always returns, with [steps] snapshots (none for a
    negative [steps]). *)
Theorem run_never_raises (L : Libm) :
  hypot_not_negative L ->
  (forall self dt h, is_ok (EvolutionSimulation.step self dt h).1 = true) /\
  (forall steps dt contacts bounds damping h,
     exists snapshots h',
       run_simulation steps dt contacts bounds damping h = (Ok snapshots, h') /\
       length snapshots = Z.to_nat steps).
Proof.
  intros Hh. split.
  - intros self dt h.
    by destruct (step_never_raises self dt h Hh) as (snap & self' & h' & ->).
  - intros steps dt contacts bounds damping h.
    assert (Hrun : exists snapshots h',
              run_simulation steps dt contacts bounds damping h = (Ok snapshots, h')).
    { unfold run_simulation. rewrite M_bind_eq.
      destruct (init_spec contacts bounds damping h) as (h1 & -> & _).
      by apply run_loop_never_raises. }
    destruct Hrun as (snapshots & h' & Hrun). exists snapshots, h'.
    split; [exact Hrun|].
    by destruct (run_loop_snapshots_run _ _ _ _ _ _ _ _ Hrun).
Qed.

Lemma run_never_raises_witness :
  hypot_not_negative textbook_libm /\
  is_ok (@EvolutionSimulation.step textbook_libm
           (EvolutionSimulation.mk [0; 1]%nat 1 1 0.98 0) 0.05
           [Contact.mk 0 0.5 0.5 0 0 1; Contact.mk 1 0.5 0.5 0 0 1]).1 = true.
Proof.
  split; [exact textbook_hypot_not_negative|].
  apply (proj1 (run_never_raises textbook_libm textbook_hypot_not_negative)).
Defined.

(** ** Engines do not share contacts *)

Section separate.
Context `{Libm}.
Import EvolutionSimulation.

Lemma step_calls_frame (dts : list float) (self : t) (h : heap) (l : loc) :
  l ∉ _contacts self -> (step_calls dts self h).2 !! l = h !! l.
Proof.
  revert self h. induction dts as [|dt dts IH]; intros self h Hl; [done|].
  cbn [step_calls]. rewrite M_bind_eq.
  pose proof (step_frame self dt h) as (_ & Hframe & _).
  specialize (Hframe l Hl).
  destruct (step self dt h) as [[[snap self']|e] h'] eqn:Es; [|done].
  rewrite M_bind_eq. simpl in Hframe.
  assert (Hl' : l ∉ _contacts self') by by rewrite (step_contacts _ _ _ _ _ _ Es).
  specialize (IH self' h' Hl').
  destruct (step_calls dts self' h') as [[[snaps self'']|e] h'']; simpl in *; congruence.
Qed.

Lemma step_calls_length (dts : list float) (self : t) (h : heap) :
  length (step_calls dts self h).2 = length h.
Proof.
  revert self h. induction dts as [|dt dts IH]; intros self h; [done|].
  cbn [step_calls]. rewrite M_bind_eq.
  pose proof (step_frame self dt h) as (Hlen & _).
  destruct (step self dt h) as [[[snap self']|e] h'] eqn:Es; [|done].
  rewrite M_bind_eq. simpl in Hlen. specialize (IH self' h').
  destruct (step_calls dts self' h') as [[[snaps self'']|e] h'']; simpl in *; congruence.
Qed.

End separate.

(** X13: two engines, the second built after the first (from the same
    contacts or from others), have no contact object in common, and calls
    of [step] on one of them, however many and whether they return or
    raise, neither change a contact of the other nor create an object. *)
Theorem engines_are_separate `{Libm} (contacts contacts' : list loc)
    (bounds bounds' : float * float) (damping damping' : float)
    (h h1 h2 : heap) (a b : EvolutionSimulation.t) :
  EvolutionSimulation.init contacts bounds damping h = (Ok a, h1) ->
  EvolutionSimulation.init contacts' bounds' damping' h1 = (Ok b, h2) ->
  (forall l, l ∈ EvolutionSimulation._contacts a ->
             l ∉ EvolutionSimulation._contacts b) /\
  (forall dts l, l ∈ EvolutionSimulation._contacts b ->
     deref (step_calls dts a h2).2 l = deref h2 l) /\
  (forall dts l, l ∈ EvolutionSimulation._contacts a ->
     deref (step_calls dts b h2).2 l = deref h2 l) /\
  (forall dts sim, length (step_calls dts sim h2).2 = length h2).
Proof.
  destruct (init_spec contacts bounds damping h) as (h1' & -> & Hlen1 & _).
  intros [= <- <-].
  destruct (init_spec contacts' bounds' damping' h1') as (h2' & -> & Hlen2 & _).
  intros [= <- <-]. simpl.
  assert (Hsep : forall l, l ∈ seq (length h) (length contacts) ->
                           l ∉ seq (length h1') (length contacts')).
  { intros l Ha%elem_of_seq Hb%elem_of_seq. lia. }
  split; [exact Hsep|]. split; [|split].
  - intros dts l Hl. unfold deref. rewrite !list_lookup_total_alt.
    rewrite step_calls_frame; [done|]. simpl. intros Ha. by apply (Hsep l).
  - intros dts l Hl. unfold deref. rewrite !list_lookup_total_alt.
    rewrite step_calls_frame; [done|]. simpl. by apply Hsep.
  - intros dts sim. apply step_calls_length.
Qed.

Lemma engines_are_separate_witness :
  EvolutionSimulation.init [0; 1]%nat (1, 1) 0.98
    [Contact.mk 0 0.5 0.5 0.01 0 0.5; Contact.mk 1 0.25 0.75 0 0.02 1]
  = (Ok (EvolutionSimulation.mk [2; 3]%nat 1 1 0.98 0),
     [Contact.mk 0 0.5 0.5 0.01 0 0.5; Contact.mk 1 0.25 0.75 0 0.02 1;
      Contact.mk 0 0.5 0.5 0.01 0 0.5; Contact.mk 1 0.25 0.75 0 0.02 1]) /\
  EvolutionSimulation.init [2; 3]%nat (1, 1) 0.98
    [Contact.mk 0 0.5 0.5 0.01 0 0.5; Contact.mk 1 0.25 0.75 0 0.02 1;
     Contact.mk 0 0.5 0.5 0.01 0 0.5; Contact.mk 1 0.25 0.75 0 0.02 1]
  = (Ok (EvolutionSimulation.mk [4; 5]%nat 1 1 0.98 0),
     [Contact.mk 0 0.5 0.5 0.01 0 0.5; Contact.mk 1 0.25 0.75 0 0.02 1;
      Contact.mk 0 0.5 0.5 0.01 0 0.5; Contact.mk 1 0.25 0.75 0 0.02 1;
      Contact.mk 0 0.5 0.5 0.01 0 0.5; Contact.mk 1 0.25 0.75 0 0.02 1]) /\
  deref (@step_calls textbook_libm [0.05; 0.05]
           (EvolutionSimulation.mk [2; 3]%nat 1 1 0.98 0)
           [Contact.mk 0 0.5 0.5 0.01 0 0.5; Contact.mk 1 0.25 0.75 0 0.02 1;
            Contact.mk 0 0.5 0.5 0.01 0 0.5; Contact.mk 1 0.25 0.75 0 0.02 1;
            Contact.mk 0 0.5 0.5 0.01 0 0.5; Contact.mk 1 0.25 0.75 0 0.02 1]).2 4%nat
  = Contact.mk 0 0.5 0.5 0.01 0 0.5.
Proof.
  pose (h := [Contact.mk 0 0.5 0.5 0.01 0 0.5; Contact.mk 1 0.25 0.75 0 0.02 1]).
  assert (Ha : EvolutionSimulation.init [0; 1]%nat (1, 1) 0.98 h
               = (Ok (EvolutionSimulation.mk [2; 3]%nat 1 1 0.98 0), h ++ h))
    by (vm_compute; reflexivity).
  assert (Hb : EvolutionSimulation.init [2; 3]%nat (1, 1) 0.98 (h ++ h)
               = (Ok (EvolutionSimulation.mk [4; 5]%nat 1 1 0.98 0), h ++ h ++ h))
    by (vm_compute; reflexivity).
  split; [exact Ha|]. split; [exact Hb|].
  apply (proj1 (proj2 (@engines_are_separate textbook_libm _ _ _ _ _ _ _ _ _ _ _ Ha Hb))).
  simpl. left.
Defined.

(** ** Snapshots without contacts are silent *)






Section silence.
Context `{Libm}.



End silence.



(** ** Rounding between two integers

    A shift that drops only zero bits is exact, so a number that is at most
    an integer is rounded to at most that integer, and one that is at least
    an integer to at least that integer. *)

Section between.
Local Open Scope Z_scope.

Lemma shr_1_exact (mrs : shr_record) :
  0 <= shr_m mrs -> shr_r mrs = false -> shr_s mrs = false ->
  (2 | shr_m mrs) ->
  shr_r (shr_1 mrs) = false /\ shr_s (shr_1 mrs) = false.
Proof.
  destruct mrs as [m r s]. simpl. intros Hm -> -> [q Hq].
  destruct m as [|[p|p|]|p]; simpl; try done; lia.
Qed.

Lemma divide_pow2_split (a b m : Z) :
  0 <= a -> 0 <= b -> (2 ^ (a + b) | m) -> (2 ^ a | m) /\ (2 ^ b | m / 2 ^ a).
Proof.
  intros Ha Hb [q ->]. rewrite Z.pow_add_r by done.
  assert (0 < 2 ^ a) by (apply Z.pow_pos_nonneg; lia).
  split.
  - exists (q * 2 ^ b). ring.
  - replace (q * (2 ^ a * 2 ^ b)) with (q * 2 ^ b * 2 ^ a) by ring.
    rewrite Z.div_mul by lia. by exists q.
Qed.

Lemma iter_shr_1_exact (p : positive) (mrs : shr_record) :
  0 <= shr_m mrs -> shr_r mrs = false -> shr_s mrs = false ->
  (2 ^ Z.pos p | shr_m mrs) ->
  shr_r (SpecFloat.iter_pos shr_1 p mrs) = false /\
  shr_s (SpecFloat.iter_pos shr_1 p mrs) = false.
Proof.
  revert mrs. induction p as [p IH|p IH|]; intros mrs Hm Hr Hs Hdiv; simpl.
  - rewrite (Pos2Z.inj_xI p) in Hdiv.
    replace (2 * Z.pos p + 1) with (1 + (Z.pos p + Z.pos p)) in Hdiv by lia.
    apply divide_pow2_split in Hdiv as [H1 Hdiv]; [|lia|lia].
    apply divide_pow2_split in Hdiv as [H2 H3]; [|lia|lia].
    change (2 ^ 1) with 2 in *.
    destruct (shr_1_exact mrs Hm Hr Hs H1) as [Hr1 Hs1].
    assert (Hm1 : 0 <= shr_m (shr_1 mrs)).
    { rewrite shr_1_m by done. apply Z.div_pos; lia. }
    rewrite <- (shr_1_m mrs Hm) in H2, H3.
    destruct (IH (shr_1 mrs) Hm1 Hr1 Hs1 H2) as [Hr2 Hs2].
    assert (Hm2 : 0 <= shr_m (SpecFloat.iter_pos shr_1 p (shr_1 mrs))).
    { rewrite iter_shr_1_m by done. apply Z.div_pos; lia. }
    apply IH; try done. by rewrite iter_shr_1_m.
  - rewrite (Pos2Z.inj_xO p) in Hdiv.
    replace (2 * Z.pos p) with (Z.pos p + Z.pos p) in Hdiv by lia.
    apply divide_pow2_split in Hdiv as [H2 H3]; [|lia|lia].
    destruct (IH mrs Hm Hr Hs H2) as [Hr2 Hs2].
    assert (Hm2 : 0 <= shr_m (SpecFloat.iter_pos shr_1 p mrs)).
    { rewrite iter_shr_1_m by done. apply Z.div_pos; lia. }
    apply IH; try done. by rewrite iter_shr_1_m.
  - change (2 ^ 1) with 2 in Hdiv. by apply shr_1_exact.
Qed.

Lemma shr_fexp_exact (m e : Z) :
  0 <= m ->
  (2 ^ Z.max 0 (fexp prec emax (Zdigits2 m + e) - e) | m) ->
  loc_of_shr_record (shr_fexp prec emax m e loc_Exact).1 = loc_Exact.
Proof.
  intros Hm. unfold shr_fexp, shr.
  destruct (fexp prec emax (Zdigits2 m + e) - e) as [|p|p] eqn:En; simpl; try done.
  intros Hdiv.
  destruct (iter_shr_1_exact p (Build_shr_record m false false) Hm eq_refl eq_refl Hdiv)
    as [Hr Hs].
  destruct (SpecFloat.iter_pos shr_1 p _) as [m' r' s']. simpl in *. by subst.
Qed.

Lemma binary_round_aux_between (s : bool) (lo hi b P E : Z) :
  0 <= lo -> 0 < hi < 2 ^ b -> 0 <= b <= 53 -> E <= b - 53 -> 0 < P ->
  lo * 2 ^ (- E) <= P <= hi * 2 ^ (- E) ->
  match binary_round_aux prec emax s P E loc_Exact with
  | S754_zero s' => s' = s /\ lo = 0
  | S754_finite s' m e =>
      s' = s /\ e <= b - 53 /\ lo * 2 ^ (- e) <= Z.pos m <= hi * 2 ^ (- e)
  | _ => False
  end.
Proof.
  intros Hlo Hhi Hb HE HP [HPlo HPhi]. unfold binary_round_aux.
  destruct (shr_fexp_spec P E loc_Exact ltac:(lia)) as [Hm1 He1].
  pose proof (shr_fexp_exact P E ltac:(lia)) as Hex1.
  destruct (shr_fexp prec emax P E loc_Exact) as [mrs1 e1]. simpl in Hm1, He1, Hex1.
  set (k := Z.max 0 (fexp prec emax (Zdigits2 P + E) - E)) in *.
  set (m2 := round_nearest_even (shr_m mrs1) (loc_of_shr_record mrs1)).
  assert (Hpowb : forall x, 0 <= x -> hi * 2 ^ x < 2 ^ (b + x)).
  { intros x Hx. rewrite pow2_split by lia.
    apply Z.mul_lt_mono_pos_r; [apply Z.pow_pos_nonneg; lia|lia]. }
  assert (Hd1 : Zdigits2 P <= b - E).
  { apply Zdigits2_le; [|lia]. split; [lia|].
    replace (b - E) with (b + - E) by lia. specialize (Hpowb (- E)). lia. }
  assert (Hk : 0 <= k) by (unfold k; lia).
  assert (He1' : e1 <= b - 53).
  { rewrite He1. unfold k.
    pose proof (fexp_le (Zdigits2 P + E) (b - 53) ltac:(lia) ltac:(lia)). lia. }
  assert (H2k : 0 < 2 ^ k) by (apply Z.pow_pos_nonneg; lia).
  assert (H2e1 : 0 < 2 ^ (- e1)) by (apply Z.pow_pos_nonneg; lia).
  assert (HsplitE : 2 ^ (- E) = 2 ^ k * 2 ^ (- e1)).
  { rewrite <- pow2_split by lia. f_equal. lia. }
  rewrite HsplitE in HPlo, HPhi.
  assert (Hm1lo : lo * 2 ^ (- e1) <= shr_m mrs1).
  { rewrite Hm1. apply Z.div_le_lower_bound; [lia|]. lia. }
  assert (Hm1hi : shr_m mrs1 <= hi * 2 ^ (- e1)).
  { rewrite Hm1. apply Z.div_le_upper_bound; [lia|]. lia. }
  assert (Hm2 : shr_m mrs1 <= m2 <= hi * 2 ^ (- e1)).
  { pose proof (round_nearest_even_bounds (shr_m mrs1) (loc_of_shr_record mrs1)) as Hr.
    fold m2 in Hr. split; [lia|].
    destruct (Z.eq_dec (P mod 2 ^ k) 0) as [Hmod|Hmod].
    - unfold m2. rewrite Hex1; [simpl; lia|].
      apply Z.mod_divide; [lia|exact Hmod].
    - pose proof (Z.div_mod P (2 ^ k) ltac:(lia)) as Hdm.
      pose proof (Z.mod_pos_bound P (2 ^ k) H2k) as Hmb.
      rewrite <- Hm1 in Hdm.
      assert (shr_m mrs1 < hi * 2 ^ (- e1)); [|lia].
      destruct (Z_lt_le_dec (shr_m mrs1) (hi * 2 ^ (- e1))) as [|Hge]; [done|].
      exfalso. assert (2 ^ k * (hi * 2 ^ (- e1)) <= 2 ^ k * shr_m mrs1)
        by (apply Z.mul_le_mono_nonneg_l; lia). lia. }
  assert (Hm2pos : 0 <= m2).
  { assert (0 <= lo * 2 ^ (- e1)) by (apply Z.mul_nonneg_nonneg; lia). lia. }
  destruct (shr_fexp_spec m2 e1 loc_Exact Hm2pos) as [Hm3 He3].
  destruct (shr_fexp prec emax m2 e1 loc_Exact) as [mrs3 e3]. simpl in Hm3, He3.
  set (k' := Z.max 0 (fexp prec emax (Zdigits2 m2 + e1) - e1)) in *.
  assert (Hd2 : Zdigits2 m2 <= b - e1).
  { apply Zdigits2_le; [|lia]. split; [lia|].
    replace (b - e1) with (b + - e1) by lia. specialize (Hpowb (- e1)). lia. }
  assert (Hk' : 0 <= k') by (unfold k'; lia).
  assert (He3' : e3 <= b - 53).
  { rewrite He3. unfold k'.
    pose proof (fexp_le (Zdigits2 m2 + e1) (b - 53) ltac:(lia) ltac:(lia)). lia. }
  assert (H2k' : 0 < 2 ^ k') by (apply Z.pow_pos_nonneg; lia).
  assert (H2e3 : 0 < 2 ^ (- e3)) by (apply Z.pow_pos_nonneg; lia).
  assert (Hsplit1 : 2 ^ (- e1) = 2 ^ k' * 2 ^ (- e3)).
  { rewrite <- pow2_split by lia. f_equal. lia. }
  rewrite Hsplit1 in Hm1lo, Hm2.
  assert (Hm3lo : lo * 2 ^ (- e3) <= shr_m mrs3).
  { rewrite Hm3. apply Z.div_le_lower_bound; [lia|]. lia. }
  assert (Hm3hi : shr_m mrs3 <= hi * 2 ^ (- e3)).
  { rewrite Hm3. apply Z.div_le_upper_bound; [lia|]. lia. }
  destruct (shr_m mrs3) as [|m3|m3] eqn:Em3.
  - split; [done|]. nia.
  - assert (Hle : (e3 <=? emax - prec) = true).
    { apply Z.leb_le. unfold emax, prec. lia. }
    rewrite Hle. done.
  - exfalso. assert (0 <= lo * 2 ^ (- e3)) by (apply Z.mul_nonneg_nonneg; lia). lia.
Qed.

End between.

(** ** Colour channels *)

Section channels.
Local Open Scope Z_scope.

Lemma SFleb_finite_pos (m1 m2 : positive) (e1 e2 : Z) :
  SFleb (S754_finite false m1 e1) (S754_finite false m2 e2) = true ->
  e1 < e2 \/ (e1 = e2 /\ Z.pos m1 <= Z.pos m2).
Proof.
  unfold SFleb, SFcompare.
  destruct (Z.compare_spec e1 e2) as [He|He|He]; [|by left|discriminate].
  change (Pos.compare_cont Eq m1 m2) with (Pos.compare m1 m2).
  destruct (Pos.compare_spec m1 m2) as [Hm|Hm|Hm]; try discriminate; right; lia.
Qed.

(** A float of [0, 1] is a zero or a positive number [m * 2 ^ e] with
    [m <= 2 ^ (- e)]. *)
Lemma unit_interval_finite (v : float) :
  within v 1 ->
  match Prim2SF v with
  | S754_zero _ => True
  | S754_finite false m e => e <= -52 /\ Z.pos m <= 2 ^ (- e)
  | _ => False
  end.
Proof.
  intros [H0 H1]. rewrite FloatAxioms.leb_spec in H0, H1.
  change (Prim2SF 0%float) with (S754_zero false) in H0.
  change (Prim2SF 1%float) with (S754_finite false 4503599627370496 (-52)) in H1.
  pose proof (Prim2SF_valid v) as Hvalid.
  destruct (Prim2SF v) as [s|[]| |[] m e]; try done.
  assert (Hm : Z.pos m < 2 ^ 53).
  { simpl in Hvalid. unfold bounded, canonical_mantissa in Hvalid.
    apply andb_prop in Hvalid as [Hc _]. apply Z.eqb_eq in Hc.
    unfold fexp, SpecFloat.emin, prec, emax in Hc.
    pose proof (Zdigits2_upper m) as Hup.
    assert (Z.pos (digits2_pos m) <= 53) as Hd by lia.
    eapply Z.lt_le_trans; [exact Hup|]. apply Z.pow_le_mono_r; lia. }
  apply SFleb_finite_pos in H1 as [He|[-> Hle]].
  - split; [lia|]. assert (2 ^ 53 <= 2 ^ (- e)) by (apply Z.pow_le_mono_r; lia). lia.
  - split; [lia|]. exact Hle.
Qed.

(** [kf * v] for the float [kf] of an integer [K] of [128, 256) and [v] in
    [0, 1]: a zero or a positive number that is at most [K]. *)
Lemma scale_unit (K : Z) (kf v : float) :
  Prim2SF kf = S754_finite false (Z.to_pos (K * 2 ^ 45)) (-45) -> 128 <= K < 256 ->
  within v 1 ->
  match Prim2SF (kf * v)%float with
  | S754_zero _ => True
  | S754_finite false m e => e <= -45 /\ Z.pos m <= K * 2 ^ (- e)
  | _ => False
  end.
Proof.
  intros Hk HK Hv%unit_interval_finite. rewrite mul_spec, Hk.
  destruct (Prim2SF v) as [s|[]| |[] m e]; try done.
  destruct Hv as [He Hm]. unfold SF64mul, SFmul. simpl xorb.
  assert (H45 : 0 < 2 ^ 45) by done.
  assert (HK45 : Z.pos (Z.to_pos (K * 2 ^ 45)) = K * 2 ^ 45) by (apply Z2Pos.id; lia).
  assert (H2e : 0 < 2 ^ (- e)) by (apply Z.pow_pos_nonneg; lia).
  assert (Hbound : 0 * 2 ^ (- (-45 + e)) <= Z.pos (Z.to_pos (K * 2 ^ 45) * m)
                   <= K * 2 ^ (- (-45 + e))).
  { rewrite Pos2Z.inj_mul, HK45. split; [lia|].
    replace (- (-45 + e)) with (45 + - e) by lia. rewrite pow2_split by lia.
    rewrite <- Z.mul_assoc. apply Z.mul_le_mono_nonneg_l; [lia|].
    apply Z.mul_le_mono_nonneg_l; lia. }
  pose proof (binary_round_aux_between false 0 K 8
                (Z.pos (Z.to_pos (K * 2 ^ 45) * m)) (-45 + e)
                ltac:(lia) ltac:(split; [lia|change (2 ^ 8) with 256; lia])
                ltac:(lia) ltac:(lia) ltac:(lia) Hbound) as Hr.
  destruct (binary_round_aux prec emax false _ (-45 + e) loc_Exact)
    as [s'|s'| |s' m' e']; try done.
  destruct Hr as (-> & He' & _ & Hm'). done.
Qed.

(** [bf + p] for the float [bf] of a positive integer [B] and a [p] that is
    a zero or a positive number at most [K], where [B + K < 256]: a positive
    number of [B, B + K]. *)
Lemma offset_sum (B K : Z) (bf p : float) (mb : positive) (eb : Z) :
  Prim2SF bf = S754_finite false mb eb -> eb <= -45 -> Z.pos mb = B * 2 ^ (- eb) ->
  0 < B -> 0 <= K -> B + K < 256 ->
  match Prim2SF p with
  | S754_zero _ => True
  | S754_finite false m e => e <= -45 /\ Z.pos m <= K * 2 ^ (- e)
  | _ => False
  end ->
  match Prim2SF (bf + p)%float with
  | S754_finite false m e =>
      e <= -45 /\ B * 2 ^ (- e) <= Z.pos m <= (B + K) * 2 ^ (- e)
  | _ => False
  end.
Proof.
  intros Hb Heb Hmb HB HK HBK Hp. rewrite add_spec, Hb.
  destruct (Prim2SF p) as [s|[]| |[] m e]; try done.
  - simpl. split; [done|]. rewrite Hmb.
    assert (0 < 2 ^ (- eb)) by (apply Z.pow_pos_nonneg; lia). nia.
  - destruct Hp as [He Hm]. unfold SF64add, SFadd. cbv zeta.
    set (ez := Z.min eb e).
    destruct (shl_align_spec mb eb ez) as [_ Hpb].
    destruct (shl_align_spec m e ez) as [_ Hpp].
    replace (Z.min eb ez) with ez in Hpb by (unfold ez; lia).
    replace (Z.min e ez) with ez in Hpp by (unfold ez; lia).
    unfold cond_Zopp.
    set (pb := (shl_align mb eb ez).1) in *.
    set (pp := (shl_align m e ez).1) in *.
    assert (Hez : ez <= -45) by (unfold ez; lia).
    assert (Hpb' : Z.pos pb = B * 2 ^ (- ez)).
    { rewrite Hpb, Hmb, <- Z.mul_assoc, <- pow2_split by (unfold ez; lia).
      f_equal. f_equal. lia. }
    assert (Hpp' : Z.pos pp <= K * 2 ^ (- ez)).
    { rewrite Hpp. replace (- ez) with (- e + (e - ez)) by lia.
      rewrite pow2_split by (unfold ez; lia). rewrite Z.mul_assoc.
      apply Z.mul_le_mono_nonneg_r; [|done].
      apply Z.pow_nonneg. lia. }
    unfold binary_normalize. rewrite <- Pos2Z.inj_add. unfold binary_round.
    set (f := fexp prec emax (Z.pos (digits2_pos (pb + pp)) + ez)).
    destruct (shl_align_spec (pb + pp) ez f) as [Hez' Hmz].
    destruct (shl_align (pb + pp) ez f) as [mz ez']. simpl in Hez', Hmz.
    assert (Hez'' : ez' <= ez) by lia.
    assert (Hsum : B * 2 ^ (- ez') <= Z.pos mz <= (B + K) * 2 ^ (- ez')).
    { rewrite Hmz, <- Hez', Pos2Z.inj_add, Hpb'.
      replace (- ez') with (- ez + (ez - ez')) by lia.
      rewrite pow2_split by lia. rewrite !Z.mul_assoc.
      assert (0 < 2 ^ (ez - ez')) by (apply Z.pow_pos_nonneg; lia).
      assert (0 < 2 ^ (- ez)) by (apply Z.pow_pos_nonneg; lia).
      split.
      - apply Z.mul_le_mono_nonneg_r; lia.
      - apply Z.mul_le_mono_nonneg_r; lia. }
    pose proof (binary_round_aux_between false B (B + K) 8 (Z.pos mz) ez'
                  ltac:(lia) ltac:(split; [lia|change (2 ^ 8) with 256; lia])
                  ltac:(lia) ltac:(lia) ltac:(lia) Hsum) as Hr.
    destruct (binary_round_aux prec emax false (Z.pos mz) ez' loc_Exact)
      as [s'|s'| |s' m' e']; try done.
    + destruct Hr as [_ ->]. lia.
    + by destruct Hr as (-> & He' & Hm').
Qed.

(** [int(B + K * v)] for [v] in [0, 1]: an integer of [B, B + K]. *)
Lemma channel_range (B K : Z) (bf kf v : float) (mb : positive) (eb : Z) :
  Prim2SF bf = S754_finite false mb eb -> eb <= -45 -> Z.pos mb = B * 2 ^ (- eb) ->
  Prim2SF kf = S754_finite false (Z.to_pos (K * 2 ^ 45)) (-45) ->
  0 < B -> 128 <= K -> B + K < 256 ->
  within v 1 ->
  exists n, Py.int_of_float (bf + kf * v)%float = Ok n /\ B <= n <= B + K.
Proof.
  intros Hb Heb Hmb Hk HB HK HBK Hv.
  pose proof (scale_unit K kf v Hk ltac:(lia) Hv) as Hp.
  pose proof (offset_sum B K bf (kf * v) mb eb Hb Heb Hmb HB ltac:(lia) HBK Hp) as Hq.
  unfold Py.int_of_float.
  destruct (Prim2SF (bf + kf * v)%float) as [s|s| |[] m e]; try done.
  destruct Hq as (He & Hlo & Hhi). eexists. split; [reflexivity|].
  simpl cond_Zopp. rewrite Z.shiftl_div_pow2 by lia.
  assert (0 < 2 ^ (- e)) by (apply Z.pow_pos_nonneg; lia).
  split.
  - apply Z.div_le_lower_bound; lia.
  - apply Z.div_le_upper_bound; lia.
Qed.

End channels.

(** [min(1.0, affinity)] is in [0, 1] when the affinity is not negative. *)
Lemma min_one_unit (a : float) : (a <? 0) = false -> within (Py.min 1 a) 1.
Proof.
  intros Ha. unfold Py.min, within. destruct (a <? 1) eqn:E; [|done].
  rewrite !FloatAxioms.leb_spec. rewrite FloatAxioms.ltb_spec in E, Ha.
  change (Prim2SF 0) with (S754_zero false) in *.
  split.
  - by destruct (Prim2SF a) as [s|[]| |[] m e].
  - unfold SFleb. unfold SFltb in E.
    by destruct (SFcompare _ _) as [[]|].
Qed.

Lemma intensity_range (v : float) :
  within v 1 -> exists n, Py.int_of_float (80 + 175 * v) = Ok n /\ (80 <= n <= 255)%Z.
Proof.
  intros Hv.
  exact (channel_range 80 175 80 175 v 5629499534213120 (-46)
           ltac:(vm_compute; reflexivity) ltac:(done) ltac:(vm_compute; reflexivity)
           ltac:(vm_compute; reflexivity) ltac:(done) ltac:(done) ltac:(done) Hv).
Qed.

Lemma position_channel_range (v : float) :
  within v 1 -> exists n, Py.int_of_float (60 + 195 * v) = Ok n /\ (60 <= n <= 255)%Z.
Proof.
  intros Hv.
  exact (channel_range 60 195 60 195 v 8444249301319680 (-47)
           ltac:(vm_compute; reflexivity) ltac:(done) ltac:(vm_compute; reflexivity)
           ltac:(vm_compute; reflexivity) ltac:(done) ltac:(done) ltac:(done) Hv).
Qed.

(** X15: a contact inside the unit square whose affinity is not negative
    (a NaN affinity included) gets a colour of three 8-bit channels:
    [_color_for_contact] does not raise, the intensity is in [80, 255] and
    the other two channels are in [60, 255]. *)
Theorem colour_channels_fit (contact : Contact.t) :
  within (Contact.x contact) 1 -> within (Contact.y contact) 1 ->
  (Contact.affinity contact <? 0) = false ->
  exists r g b,
    _color_for_contact contact = Ok (r, g, b) /\
    (80 <= r <= 255)%Z /\ (60 <= g <= 255)%Z /\ (60 <= b <= 255)%Z.
Proof.
  intros Hx Hy Ha%min_one_unit.
  destruct (intensity_range _ Ha) as (r & Hr & Hrr).
  destruct (position_channel_range _ Hx) as (g & Hg & Hgr).
  destruct (position_channel_range _ Hy) as (b & Hb & Hbr).
  exists r, g, b. unfold _color_for_contact.
  rewrite Hr, res_bind_eq, Hg, res_bind_eq, Hb.
  split; [reflexivity|]. split; [exact Hrr|]. split; [exact Hgr|exact Hbr].
Qed.

Lemma colour_channels_fit_witness :
  within 0.25 1 /\ within 1 1 /\ (0.5 <? 0) = false /\
  exists r g b,
    _color_for_contact (Contact.mk 0 0.25 1 0 0 0.5) = Ok (r, g, b) /\
    (80 <= r <= 255)%Z /\ (60 <= g <= 255)%Z /\ (60 <= b <= 255)%Z.
Proof.
  split; [by vm_compute|]. split; [by vm_compute|]. split; [by vm_compute|].
  apply (colour_channels_fit (Contact.mk 0 0.25 1 0 0 0.5)); by vm_compute.
Defined.

(** ** Integers that are floats

    [float(n)] is exact for [0 <= n < 2 ^ 53]. *)

Section exact_int.
Local Open Scope Z_scope.

Lemma Zdigits2_eq (m k : Z) : 0 < k -> 2 ^ (k - 1) <= m < 2 ^ k -> Zdigits2 m = k.
Proof.
  intros Hk [Hlo Hhi].
  assert (Hm : 0 < m).
  { pose proof (Z.pow_pos_nonneg 2 (k - 1) ltac:(lia) ltac:(lia)). lia. }
  pose proof (Zdigits2_le m k ltac:(lia) ltac:(lia)) as Hle.
  destruct m as [|p|p]; try lia.
  pose proof (Zdigits2_upper p) as Hup. change (Z.pos (digits2_pos p)) with (Zdigits2 (Z.pos p)) in Hup.
  destruct (Z_lt_le_dec (Zdigits2 (Z.pos p)) k) as [Hlt|]; [|lia].
  exfalso. assert (2 ^ Zdigits2 (Z.pos p) <= 2 ^ (k - 1)); [|lia].
  apply Z.pow_le_mono_r; lia.
Qed.

(** Rounding leaves a canonical mantissa as it is. *)
Lemma binary_round_aux_canonical (s : bool) (m : positive) (e : Z) :
  fexp prec emax (Zdigits2 (Z.pos m) + e) = e -> e <= emax - prec ->
  binary_round_aux prec emax s (Z.pos m) e loc_Exact = S754_finite s m e.
Proof.
  intros Hc He. unfold binary_round_aux.
  destruct (shr_fexp_spec (Z.pos m) e loc_Exact ltac:(lia)) as [Hm1 He1].
  pose proof (shr_fexp_exact (Z.pos m) e ltac:(lia)) as Hex1.
  rewrite Hc, Z.sub_diag in Hm1, He1, Hex1. simpl in Hm1, He1, Hex1.
  destruct (shr_fexp prec emax (Z.pos m) e loc_Exact) as [mrs1 e1].
  simpl in Hm1, He1, Hex1. rewrite Z.div_1_r in Hm1. rewrite Z.add_0_r in He1. subst e1.
  rewrite Hex1 by apply Z.divide_1_l. simpl round_nearest_even. rewrite Hm1.
  destruct (shr_fexp_spec (Z.pos m) e loc_Exact ltac:(lia)) as [Hm3 He3].
  rewrite Hc, Z.sub_diag in Hm3, He3. simpl in Hm3, He3.
  destruct (shr_fexp prec emax (Z.pos m) e loc_Exact) as [mrs3 e3].
  simpl in Hm3, He3. rewrite Z.div_1_r in Hm3. rewrite Z.add_0_r in He3. subst e3.
  rewrite Hm3. by rewrite (proj2 (Z.leb_le _ _) He).
Qed.

Lemma float_of_int_exact (n : Z) :
  0 < n < 2 ^ 53 ->
  exists w m e,
    Py.float_of_int n = Ok w /\ Prim2SF w = S754_finite false m e /\
    e <= 0 /\ Z.pos m = n * 2 ^ (- e).
Proof.
  intros [Hn0 Hn]. destruct n as [|p|p]; try lia.
  set (d := Zdigits2 (Z.pos p)).
  assert (Hd : 1 <= d <= 53).
  { split.
    - unfold d. simpl. lia.
    - apply Zdigits2_le; lia. }
  pose proof (Zdigits2_lower (Z.pos p) ltac:(lia)) as Hlow. fold d in Hlow.
  pose proof (Zdigits2_upper p) as Hup.
  change (Z.pos (digits2_pos p)) with d in Hup.
  assert (Hf : fexp prec emax (d + 0) = d - 53).
  { unfold fexp, SpecFloat.emin, prec, emax. lia. }
  destruct (shl_align_spec p 0 (d - 53)) as [Hez Hmz].
  replace (Z.min 0 (d - 53)) with (d - 53) in Hez, Hmz by lia.
  replace (0 - (d - 53)) with (53 - d) in Hmz by lia.
  assert (Hnorm : binary_normalize prec emax (Z.pos p) 0 false
                  = S754_finite false (shl_align p 0 (d - 53)).1 (d - 53)).
  { unfold binary_normalize, binary_round.
    change (Z.pos (digits2_pos p)) with d. rewrite Hf.
    destruct (shl_align p 0 (d - 53)) as [mz ez]. simpl in Hez, Hmz. subst ez. simpl fst.
    apply binary_round_aux_canonical; [|unfold emax, prec; lia].
    rewrite (Zdigits2_eq (Z.pos mz) 53); [unfold fexp, SpecFloat.emin, prec, emax; lia|lia|].
    rewrite Hmz. split.
    - replace (53 - 1) with ((d - 1) + (53 - d)) by lia. rewrite pow2_split by lia.
      apply Z.mul_le_mono_nonneg_r; [apply Z.pow_nonneg; lia|done].
    - replace 53 with (d + (53 - d)) at 2 by lia. rewrite pow2_split by lia.
      apply Z.mul_lt_mono_pos_r; [apply Z.pow_pos_nonneg; lia|done]. }
  set (mz := (shl_align p 0 (d - 53)).1) in *.
  assert (Hvalid : valid_binary (S754_finite false mz (d - 53)) = true).
  { simpl. unfold bounded, canonical_mantissa.
    apply andb_true_intro. split; [|apply Z.leb_le; unfold emax, prec; lia].
    apply Z.eqb_eq. change (Z.pos (digits2_pos mz)) with (Zdigits2 (Z.pos mz)).
    rewrite (Zdigits2_eq (Z.pos mz) 53); [unfold fexp, SpecFloat.emin, prec, emax; lia|lia|].
    rewrite Hmz. split.
    - replace (53 - 1) with ((d - 1) + (53 - d)) by lia. rewrite pow2_split by lia.
      apply Z.mul_le_mono_nonneg_r; [apply Z.pow_nonneg; lia|done].
    - replace 53 with (d + (53 - d)) at 2 by lia. rewrite pow2_split by lia.
      apply Z.mul_lt_mono_pos_r; [apply Z.pow_pos_nonneg; lia|done]. }
  exists (SF2Prim (S754_finite false mz (d - 53))), mz, (d - 53).
  assert (Hprim : Prim2SF (SF2Prim (S754_finite false mz (d - 53)))
                  = S754_finite false mz (d - 53)) by by apply Prim2SF_SF2Prim.
  split; [|split; [exact Hprim|split; [lia|]]].
  - unfold Py.float_of_int. rewrite Hnorm. cbv zeta.
    unfold is_infinity. rewrite FloatAxioms.eqb_spec, abs_spec, Hprim. reflexivity.
  - rewrite Hmz. f_equal. f_equal. lia.
Qed.

End exact_int.

(** ** Frames of contacts inside the unit square *)

Section unit_frames.
Local Open Scope Z_scope.

Lemma pixel_coord_unit (v : float) (width : Z) :
  1 <= width <= 2 ^ 53 -> within v 1 -> exists x, pixel_coord v width = Ok x.
Proof.
  intros Hw Hv%unit_interval_finite. unfold pixel_coord.
  destruct (decide (width - 1 = 0)) as [->|Hne].
  - replace (Py.float_of_int 0) with (Ok 0%float) by (vm_compute; reflexivity).
    rewrite res_bind_eq. unfold Py.int_of_float. rewrite mul_spec.
    change (Prim2SF 0%float) with (S754_zero false).
    destruct (Prim2SF v) as [s|[]| |[] m e]; try done; by eexists.
  - destruct (float_of_int_exact (width - 1) ltac:(lia)) as (w & mw & ew & -> & Hw' & Hew & Hmw).
    rewrite res_bind_eq. unfold Py.int_of_float. rewrite mul_spec, Hw'.
    destruct (Prim2SF v) as [s|[]| |[] m e]; try done; [by eexists|].
    destruct Hv as [He Hm]. unfold SF64mul, SFmul. simpl xorb.
    assert (Hbound : 0 * 2 ^ (- (e + ew)) <= Z.pos (m * mw)
                     <= (width - 1) * 2 ^ (- (e + ew))).
    { split; [lia|]. rewrite Pos2Z.inj_mul, Hmw.
      replace (- (e + ew)) with (- e + - ew) by lia. rewrite pow2_split by lia.
      assert (0 <= 2 ^ (- ew)) by (apply Z.pow_nonneg; lia).
      replace ((width - 1) * (2 ^ (- e) * 2 ^ (- ew)))
        with (2 ^ (- e) * ((width - 1) * 2 ^ (- ew))) by ring.
      apply Z.mul_le_mono_nonneg_r; [|done]. apply Z.mul_nonneg_nonneg; lia. }
    pose proof (binary_round_aux_between false 0 (width - 1) 53 (Z.pos (m * mw)) (e + ew)
                  ltac:(lia) ltac:(lia) ltac:(lia) ltac:(lia) ltac:(lia) Hbound) as Hr.
    destruct (binary_round_aux prec emax false _ (e + ew) loc_Exact)
      as [s'|s'| |s' m' e']; try done; by eexists.
Qed.

Lemma mark_of_unit (width height : Z) (contact : Contact.t) :
  1 <= width <= 2 ^ 53 -> 1 <= height <= 2 ^ 53 -> in_unit_square contact ->
  exists item, mark_of width height contact = Ok item /\ eight_bit item.2.
Proof.
  intros Hw Hh (Hx & Hy & Ha%min_one_unit).
  destruct (pixel_coord_unit _ width Hw Hx) as [x Ex].
  destruct (pixel_coord_unit _ height Hh Hy) as [y Ey].
  destruct (intensity_range _ Ha) as (r & Hr & Hrr).
  destruct (position_channel_range _ Hx) as (g & Hg & Hgr).
  destruct (position_channel_range _ Hy) as (b & Hb & Hbr).
  exists (x, y, (r, g, b)). unfold mark_of, _color_for_contact.
  rewrite Ex, res_bind_eq, Ey, res_bind_eq, Hr, !res_bind_eq, Hg, res_bind_eq, Hb.
  split; [done|]. unfold eight_bit. simpl. lia.
Qed.

Lemma marks_of_unit (h : heap) (width height : Z) (contacts : list loc) :
  1 <= width <= 2 ^ 53 -> 1 <= height <= 2 ^ 53 ->
  Forall (fun l => in_unit_square (deref h l)) contacts ->
  exists items,
    Forall2 (fun l item => mark_of width height (deref h l) = Ok item) contacts items /\
    Forall (fun item => eight_bit item.2) items.
Proof.
  intros Hw Hh. induction 1 as [|l contacts Hl _ (items & Hitems & Hall)].
  - exists []. by split; constructor.
  - destruct (mark_of_unit width height (deref h l) Hw Hh Hl) as (item & Hitem & Hc).
    exists (item :: items). by split; constructor.
Qed.

Lemma painted_eight_bit (width height : Z) (items : list (Z * Z * color)) (c0 : color)
    (px py : Z) :
  Forall (fun item => eight_bit item.2) items -> eight_bit c0 ->
  eight_bit (painted width height items c0 px py).
Proof.
  unfold painted. intros Hall. revert c0.
  induction Hall as [|item items Hitem _ IH]; intros c0 Hc0; [done|].
  simpl. apply IH. by destruct (decide _).
Qed.

Lemma render_frame_unit (h : heap) (width height : Z) (s : Snapshot.t) :
  1 <= width <= 2 ^ 53 -> 1 <= height <= 2 ^ 53 ->
  Forall (fun l => in_unit_square (deref h l)) (Snapshot.contacts s) ->
  exists f,
    render_frame h width height s = Ok f /\
    grid_of_size width height f /\
    forall px py, 0 <= px < width -> 0 <= py < height -> eight_bit (get_pixel f px py).
Proof.
  intros Hw Hh Hall.
  destruct (marks_of_unit h width height _ Hw Hh Hall) as (items & Hitems & Hcols).
  destruct (render_loop h width height _ items (blank width height) ltac:(lia) ltac:(lia)
              (blank_size width height ltac:(lia) ltac:(lia)) Hitems)
    as (g & Hg & Hgrid & Hget).
  exists g. split; [exact Hg|]. split; [exact Hgrid|].
  intros px py Hpx Hpy. rewrite Hget by lia. rewrite blank_pixel by done.
  apply painted_eight_bit; [exact Hcols|]. unfold eight_bit, background. simpl. lia.
Qed.

End unit_frames.

(** X16: when every contact of every snapshot is inside the unit square
    and has an affinity that is not negative, [generate_visual_frames] does
    not raise for any size from 1 x 1 to 2^53 x 2^53: it yields one grid of
    that size per snapshot, and every channel of every pixel is in 0..255,
    as the header of the frame files announces. *)
Theorem frames_of_unit_square (h : heap) (snapshots : list Snapshot.t) (width height : Z) :
  (1 <= width <= 2 ^ 53)%Z -> (1 <= height <= 2 ^ 53)%Z ->
  Forall (fun s => Forall (fun l => in_unit_square (deref h l)) (Snapshot.contacts s))
    snapshots ->
  exists frames,
    generate_visual_frames h snapshots (width, height) = Ok frames /\
    length frames = length snapshots /\
    Forall (fun f =>
              grid_of_size width height f /\
              forall px py, (0 <= px < width)%Z -> (0 <= py < height)%Z ->
                eight_bit (get_pixel f px py)) frames.
Proof.
  intros Hw Hh Hall. unfold generate_visual_frames.
  set (ok := fun f : grid =>
               grid_of_size width height f /\
               forall px py, (0 <= px < width)%Z -> (0 <= py < height)%Z ->
                 eight_bit (get_pixel f px py)).
  assert (Hloop : forall acc, Forall ok acc ->
            exists frames,
              Py.for_each snapshots
                (fun snapshot frames =>
                   pixels ← render_frame h width height snapshot;
                   mret (frames ++ [pixels])) acc = Ok frames /\
              length frames = (length acc + length snapshots)%nat /\
              Forall ok frames).
  { induction Hall as [|s snapshots Hs _ IH]; intros acc Hacc.
    - exists acc. simpl. split; [done|]. split; [lia|done].
    - cbn [Py.for_each]. rewrite res_bind_eq.
      destruct (render_frame_unit h width height s Hw Hh Hs) as (f & -> & Hf).
      change (mret (acc ++ [f])) with (Ok (acc ++ [f])). cbv beta iota.
      destruct (IH (acc ++ [f])) as (frames & -> & Hlen & Hframes).
      { apply Forall_app. split; [done|]. by constructor. }
      exists frames. split; [done|]. split; [|done].
      rewrite Hlen, length_app. simpl. lia. }
  destruct (Hloop [] ltac:(constructor)) as (frames & Hf & Hlen & Hok).
  by exists frames.
Qed.

Lemma frames_of_unit_square_witness :
  (1 <= 4 <= 2 ^ 53)%Z /\ (1 <= 3 <= 2 ^ 53)%Z /\
  Forall (fun s => Forall (fun l => in_unit_square
                     (deref [Contact.mk 0 0.25 1 0 0 0.5; Contact.mk 1 0 0.5 0.25 0 1.5] l))
                     (Snapshot.contacts s))
    [Snapshot.mk 0.05 [0; 1]%nat 0.25] /\
  exists frames,
    generate_visual_frames [Contact.mk 0 0.25 1 0 0 0.5; Contact.mk 1 0 0.5 0.25 0 1.5]
      [Snapshot.mk 0.05 [0; 1]%nat 0.25] (4, 3)%Z = Ok frames /\
    length frames = 1%nat.
Proof.
  assert (Hall : Forall (fun s => Forall (fun l => in_unit_square
                     (deref [Contact.mk 0 0.25 1 0 0 0.5; Contact.mk 1 0 0.5 0.25 0 1.5] l))
                     (Snapshot.contacts s))
                   [Snapshot.mk 0.05 [0; 1]%nat 0.25]).
  { repeat constructor. }
  split; [by vm_compute|]. split; [by vm_compute|]. split; [exact Hall|].
  destruct (frames_of_unit_square _ _ 4 3 ltac:(by vm_compute) ltac:(by vm_compute) Hall)
    as (frames & Hf & Hlen & _).
  by exists frames.
Defined.
